(** * Geodesic flight paths: great-circle interpolation, antimeridian
      splitting and world-copy replication

    A shallow embedding of [static/geodesic.js] (class [GeodesicLine]) and of
    [static/dashboard.js]: the geometry functions ([calculateGeodesicPoints],
    [splitAtAntimeridian], [createInfiniteGeodesicLine],
    [createInfiniteMarker]), the layers of the trips and the totals.

    Numbers.  JavaScript numbers are IEEE-754 doubles.  The file computes
    with them in two ways.

    - Exact.  The definitions at the top level take the numbers for real
      numbers: every arithmetic operation is exact and the functions of
      [Math] are the mathematical ones.  They serve where rounding changes
      a coordinate in its last digits and nothing else: what the splitter
      and the world copies do with the points they are given, and the
      coordinates the interpolators aim at.  In this arithmetic the sums
      handed to [Math.acos] and [Math.asin] never leave [[-1,1]].

    - Rounded.  The definitions of [Doubles] follow the interpolators and
      the line builder with every operation rounded and the functions of
      [Math] as an implementation has them; a sum can then leave [[-1,1]],
      [Math.acos] and [Math.asin] give a not-a-number, and the renderer
      refuses a point that is not a number.  They serve where rounding
      decides what the program does: the central angle and its tests, the
      number of points, the not-a-number points of a path and what is
      thrown.

    The resolution [numPoints] is a natural number, as at every call site
    (30, 50, 100).  Infinities and signed zeros are not represented.

    Division.  A divisor of the source can vanish in two places only:
    [i / numPoints] at [numPoints = 0], and the division by [sin Δσ] in
    [GeodesicLine] at a central angle of exactly half a turn.  JavaScript
    gives a not-a-number or an infinity there; the statements below that
    depend on these quotients assume [1 <= numPoints] and [sin Δσ <> 0].

    A coordinate pair [[lat, lon]] is a pair of reals, an array of them a
    list; a pair that is not a number is [None]. *)


From Stdlib Require Import String.
From Stdlib Require Import Reals Lra Lia List Bool ZArith.
Import ListNotations.
Open Scope R_scope.

(** ** Data *)

Definition point := (R * R)%type.

(** [p[0]] and [p[1]]. *)
Definition latitude (p : point) : R := fst p.
Definition longitude (p : point) : R := snd p.

(** [a[a.length - 1]], [None] on the empty array. *)
Definition lastElement {A : Type} (l : list A) : option A :=
  match rev l with
  | [] => None
  | x :: _ => Some x
  end.

(** ** The functions of [Math] the source calls *)

(** [Math.acos]: not-a-number ([None]) outside [[-1,1]]. *)
Definition Math_acos (x : R) : option R :=
  if Rle_dec (-1) x then
    if Rle_dec x 1 then Some (acos x) else None
  else None.

(** [Math.atan2(y, x)]: the angle of the vector [(x, y)], in [(-PI, PI]],
    and [0] at the origin. *)
Definition atan2 (y x : R) : R :=
  if Rlt_dec 0 x then atan (y / x)
  else if Rlt_dec x 0 then
    if Rle_dec 0 y then atan (y / x) + PI else atan (y / x) - PI
  else if Rlt_dec 0 y then PI / 2
  else if Rlt_dec y 0 then - (PI / 2)
  else 0.

(** [Math.max(-1, Math.min(1, x))]. *)
Definition clampUnit (x : R) : R := Rmax (-1) (Rmin 1 x).

(** The crossing test [Math.abs(lon - prevLon) > 180] of both splitters. *)
Definition crosses (prevLon lon : R) : Prop := Rabs (lon - prevLon) > 180.

Definition crosses_dec (prevLon lon : R) :
  {crosses prevLon lon} + {~ crosses prevLon lon} :=
  Rgt_dec (Rabs (lon - prevLon)) 180.

(** [(180 - Math.abs(prevLon)) / Math.abs(lon - prevLon)]. *)
Definition fractionAt (prevLon lon : R) : R :=
  (180 - Rabs prevLon) / Rabs (lon - prevLon).

(** [prevLat + (lat - prevLat) * fraction]. *)
Definition midLatAt (prevLat prevLon lat lon : R) : R :=
  prevLat + (lat - prevLat) * fractionAt prevLon lon.

(** ** geodesic.js: class GeodesicLine *)

Module GeodesicLine.

(** [while (lon > 180) lon -= 360], at most [fuel] iterations. *)
Fixpoint whileAbove (fuel : nat) (lon : R) : R :=
  match fuel with
  | O => lon
  | S k => if Rgt_dec lon 180 then whileAbove k (lon - 360) else lon
  end.

(** [while (lon < -180) lon += 360], at most [fuel] iterations. *)
Fixpoint whileBelow (fuel : nat) (lon : R) : R :=
  match fuel with
  | O => lon
  | S k => if Rlt_dec lon (-180) then whileBelow k (lon + 360) else lon
  end.

(** Iterations that are enough for either loop to reach its exit test. *)
Definition loopFuel (lon : R) : nat := Z.to_nat (up (Rabs lon / 360)).

(** The two normalisation loops, one after the other. *)
Definition normalizeLon (lon : R) : R :=
  let lon := whileAbove (loopFuel lon) lon in
  whileBelow (loopFuel lon) lon.

(** The body of the interpolation loop, at index [i]. *)
Definition greatCirclePoint (φ1 λ1 φ2 λ2 Δσ : R) (numPoints i : nat) : point :=
  let fraction := INR i / INR numPoints in
  let A := sin ((1 - fraction) * Δσ) / sin Δσ in
  let B := sin (fraction * Δσ) / sin Δσ in
  let x := A * cos φ1 * cos λ1 + B * cos φ2 * cos λ2 in
  let y := A * cos φ1 * sin λ1 + B * cos φ2 * sin λ2 in
  let z := A * sin φ1 + B * sin φ2 in
  let φi := atan2 z (sqrt (x * x + y * y)) in
  let λi := atan2 y x in
  let lat := φi * 180 / PI in
  let lon := λi * 180 / PI in
  (lat, normalizeLon lon).

(** The value handed to [Math.acos].  In exact arithmetic it lies in
    [[-1,1]] ([greatCircle_acos_defined]); rounded, it can leave it, see
    [Doubles.GeodesicLine.cosineSum]. *)
Definition acosArgument (lat1 lon1 lat2 lon2 : R) : R :=
  let φ1 := lat1 * PI / 180 in
  let λ1 := lon1 * PI / 180 in
  let φ2 := lat2 * PI / 180 in
  let λ2 := lon2 * PI / 180 in
  let Δλ := λ2 - λ1 in
  sin φ1 * sin φ2 + cos φ1 * cos φ2 * cos Δλ.

Definition calculateGreatCircle (lat1 lon1 lat2 lon2 : R) (numPoints : nat)
  : list point :=
  let φ1 := lat1 * PI / 180 in
  let λ1 := lon1 * PI / 180 in
  let φ2 := lat2 * PI / 180 in
  let λ2 := lon2 * PI / 180 in
  match Math_acos (acosArgument lat1 lon1 lat2 lon2) with
  | None => [(lat1, lon1); (lat2, lon2)]
  | Some Δσ =>
      if Rlt_dec Δσ 0.001 then [(lat1, lon1); (lat2, lon2)]
      else map (greatCirclePoint φ1 λ1 φ2 λ2 Δσ numPoints)
               (seq 0 (S numPoints))
  end.

(** [result[k]?.push(x)]: nothing happens when [result[k]] is undefined. *)
Fixpoint pushAt {A : Type} (k : nat) (x : A) (result : list (list A))
  : list (list A) :=
  match result, k with
  | [], _ => []
  | s :: rest, O => (s ++ [x]) :: rest
  | s :: rest, S k' => s :: pushAt k' x rest
  end.

Record splitState : Type := mkSplit {
  result : list (list point);
  currentSegment : list point
}.

(** One iteration of the loop of [splitAtAntimeridian]. *)
Definition splitStep (st : splitState) (p : point) : splitState :=
  let '(lat, lon) := p in
  match lastElement (currentSegment st) with
  | None => mkSplit (result st) (currentSegment st ++ [(lat, lon)])
  | Some (prevLat, prevLon) =>
      if crosses_dec prevLon lon then
        let result1 := result st ++ [currentSegment st] in
        let midLat := midLatAt prevLat prevLon lat lon in
        let midLon := if Rgt_dec prevLon 0 then 180 else -180 in
        let result2 :=
          pushAt (length (currentSegment st) - 1) (midLat, midLon) result1 in
        mkSplit result2 [(midLat, - midLon); (lat, lon)]
      else mkSplit (result st) (currentSegment st ++ [(lat, lon)])
  end.

Definition splitLoop (points : list point) : splitState :=
  fold_left splitStep points (mkSplit [] []).

(** The tail of the function: the last push, then
    [result.length === 1 ? result[0] : result.flat()]. *)
Definition finish (st : splitState) : list point :=
  let result :=
    match currentSegment st with
    | [] => result st
    | _ :: _ => result st ++ [currentSegment st]
    end in
  match result with
  | [only] => only
  | _ => concat result
  end.

Definition splitAtAntimeridian (points : list point) : list point :=
  finish (splitLoop points).

Definition createFlightPath (origin destination : point) : list point :=
  let '(lat1, lon1) := origin in
  let '(lat2, lon2) := destination in
  let lonDiff := Rabs (lon2 - lon1) in
  if Rgt_dec lonDiff 180 then
    let points := calculateGreatCircle lat1 lon1 lat2 lon2 100 in
    splitAtAntimeridian points
  else calculateGreatCircle lat1 lon1 lat2 lon2 30.

End GeodesicLine.

(** ** dashboard.js: the geodesic functions *)

Definition toRad : R := PI / 180.

(** [λ2] after the choice of the wrap direction. *)
Definition unwrapλ2 (λ1 λ2 : R) : R :=
  let lonDiff := (λ2 - λ1) * 180 / PI in
  if Rgt_dec (Rabs lonDiff) 180 then
    if Rgt_dec lonDiff 0 then λ2 - 2 * PI else λ2 + 2 * PI
  else λ2.

(** The value handed to [Math.acos]. *)
Definition acosArgument (lat1 lon1 lat2 lon2 : R) : R :=
  let φ1 := lat1 * toRad in
  let λ1 := lon1 * toRad in
  let φ2 := lat2 * toRad in
  let λ2 := unwrapλ2 λ1 (lon2 * toRad) in
  let Δλ := λ2 - λ1 in
  clampUnit (sin φ1 * sin φ2 + cos φ1 * cos φ2 * cos Δλ).

(** [Δσ]; [Math.acos] is applied inside its domain, see [acosArgument_in_domain]. *)
Definition centralAngle (lat1 lon1 lat2 lon2 : R) : R :=
  acos (acosArgument lat1 lon1 lat2 lon2).

(** The initial bearing [θ]. *)
Definition initialBearing (φ1 φ2 Δλ : R) : R :=
  atan2 (sin Δλ * cos φ2)
        (cos φ1 * sin φ2 - sin φ1 * cos φ2 * cos Δλ).

(** The body of the interpolation loop, at index [i].  In exact arithmetic
    the sum handed to [Math.asin] lies in [[-1,1]]
    ([geodesicPoint_asin_in_domain]); rounded, it can leave it, see
    [Doubles.geodesicPoint]. *)
Definition geodesicPoint (φ1 λ1 Δσ θ : R) (numPoints i : nat) : point :=
  let f := INR i / INR numPoints in
  let σ := f * Δσ in
  let φ := asin (sin φ1 * cos σ + cos φ1 * sin σ * cos θ) in
  let λ := λ1 + atan2 (sin θ * sin σ * cos φ1)
                      (cos σ - sin φ1 * sin φ) in
  let lat := φ * 180 / PI in
  let lon := λ * 180 / PI in
  (lat, lon).

Definition calculateGeodesicPoints (lat1 lon1 lat2 lon2 : R) (numPoints : nat)
  : list point :=
  let φ1 := lat1 * toRad in
  let λ1 := lon1 * toRad in
  let φ2 := lat2 * toRad in
  let λ2 := unwrapλ2 λ1 (lon2 * toRad) in
  let Δλ := λ2 - λ1 in
  let Δσ := centralAngle lat1 lon1 lat2 lon2 in
  if Rlt_dec Δσ 0.001 then [(lat1, lon1); (lat2, lon2)]
  else
    let θ := initialBearing φ1 φ2 Δλ in
    map (geodesicPoint φ1 λ1 Δσ θ numPoints) (seq 0 (S numPoints)).

(** The two variables the loop of [splitAtAntimeridian] updates. *)
Record splitState : Type := mkSplit {
  segments : list (list point);
  currentSegment : list point
}.

Definition midLonAt (prevLon : R) : R :=
  if Rgt_dec prevLon 0 then 179.999 else -179.999.

Definition otherLonAt (prevLon : R) : R :=
  if Rgt_dec prevLon 0 then -179.999 else 179.999.

(** One iteration of the [for] loop, on [points[i] = [lat, lon]]. *)
Definition splitStep (st : splitState) (p : point) : splitState :=
  let '(lat, lon) := p in
  match lastElement (currentSegment st) with
  | None => mkSplit (segments st) (currentSegment st ++ [(lat, lon)])
  | Some (prevLat, prevLon) =>
      if crosses_dec prevLon lon then
        let midLat := midLatAt prevLat prevLon lat lon in
        let midLon := midLonAt prevLon in
        let closed := currentSegment st ++ [(midLat, midLon)] in
        let otherLon := otherLonAt prevLon in
        mkSplit (segments st ++ [closed]) [(midLat, otherLon); (lat, lon)]
      else mkSplit (segments st) (currentSegment st ++ [(lat, lon)])
  end.

Definition splitLoop (points : list point) : splitState :=
  fold_left splitStep points (mkSplit [] []).

(** The final [if (currentSegment.length > 0) segments.push(currentSegment)]. *)
Definition finish (st : splitState) : list (list point) :=
  match currentSegment st with
  | [] => segments st
  | _ :: _ => segments st ++ [currentSegment st]
  end.

Definition splitAtAntimeridian (points : list point) : list (list point) :=
  finish (splitLoop points).

(** ** dashboard.js: the world copies *)

(** [for (let offset = -720; offset <= 720; offset += 360)]: the values
    [offset] takes, at most [fuel] of them. *)
Fixpoint offsetsFrom (fuel : nat) (offset : Z) : list Z :=
  match fuel with
  | O => []
  | S k =>
      if (offset <=? 720)%Z then offset :: offsetsFrom k (offset + 360)%Z
      else []
  end.

(** Six steps reach the exit test: the sixth sees [1080 > 720]. *)
Definition worldOffsets : list Z := offsetsFrom 6 (-720).

(** [s || d] on strings and on numbers. *)
Definition orString (s : option string) (d : string) : string :=
  match s with
  | Some v => if String.eqb v EmptyString then d else v
  | None => d
  end.

Definition orNumber (x : option R) (d : R) : R :=
  match x with
  | Some v => if Req_dec_T v 0 then d else v
  | None => d
  end.

Record lineOptions : Type := mkLineOptions {
  color : option string;
  weight : option R;
  opacity : option R;
  popupContent : option string
}.

(** What [L.polyline] is given, and the popup bound to it afterwards. *)
Record polyline : Type := mkPolyline {
  latlngs : list point;
  lineColor : string;
  lineWeight : R;
  lineOpacity : R;
  smoothFactor : R;
  interactive : bool;
  popup : option string
}.

(** [point => [point[0], point[1] + offset]]. *)
Definition shiftPoint (offset : Z) (p : point) : point :=
  (fst p, snd p + IZR offset).

Definition isPrimary (offset : Z) (segmentIndex : nat) : bool :=
  (offset =? 0)%Z && (segmentIndex =? 0)%nat.

(** The body of the inner [for] loop. *)
Definition lineCopy (options : lineOptions) (segmentIndex : nat)
  (segment : list point) (offset : Z) : polyline :=
  let offsetSegment := map (shiftPoint offset) segment in
  mkPolyline offsetSegment
    (orString (color options) "#ff4444"%string)
    (orNumber (weight options) 3)
    (orNumber (opacity options) 0.7)
    1.0
    (isPrimary offset segmentIndex)
    (if isPrimary offset segmentIndex
     then Some (orString (popupContent options) "Flight Path"%string)
     else None).

(** [segments.forEach((segment, segmentIndex) => ...)], the layers in the
    order they are added. *)
Fixpoint forEachSegment (options : lineOptions) (segmentIndex : nat)
  (segments : list (list point)) : list polyline :=
  match segments with
  | [] => []
  | segment :: rest =>
      map (lineCopy options segmentIndex segment) worldOffsets
      ++ forEachSegment options (S segmentIndex) rest
  end.

Definition createInfiniteGeodesicLine (origin dest : point)
  (options : lineOptions) : list polyline :=
  let '(lat1, lon1) := origin in
  let '(lat2, lon2) := dest in
  let geodesicPoints := calculateGeodesicPoints lat1 lon1 lat2 lon2 100 in
  let segments := splitAtAntimeridian geodesicPoints in
  forEachSegment options 0 segments.

Record markerOptions : Type := mkMarkerOptions {
  radius : option R;
  markerColor : option string;
  fillColor : option string;
  fillOpacity : option R;
  markerWeight : option R
}.

Record circleMarker : Type := mkCircleMarker {
  position : point;
  markerRadius : R;
  strokeColor : string;
  fill : string;
  fillAlpha : R;
  strokeWeight : R;
  markerInteractive : bool;
  markerPopup : option string
}.

(** The body of the loop of [createInfiniteMarker]. *)
Definition markerCopy (latlng : point) (options : markerOptions)
  (popupContent : string) (offset : Z) : circleMarker :=
  let '(lat, lon) := latlng in
  mkCircleMarker (lat, lon + IZR offset)
    (orNumber (radius options) 8)
    (orString (markerColor options) "#0066cc"%string)
    (orString (fillColor options) "#0066cc"%string)
    (orNumber (fillOpacity options) 0.8)
    (orNumber (markerWeight options) 2)
    (offset =? 0)%Z
    (if (offset =? 0)%Z && negb (String.eqb popupContent EmptyString)
     then Some popupContent else None).

Definition createInfiniteMarker (latlng : point) (options : markerOptions)
  (popupContent : string) : list circleMarker :=
  map (markerCopy latlng options popupContent) worldOffsets.

(** ** How a call ends *)

(** A JavaScript call either returns a value or throws. *)
Inductive completion (A : Type) : Type :=
| Returns (value : A)
| Throws (condition : string).

Arguments Returns {A} value.
Arguments Throws {A} condition.

(** A coordinate pair in range. *)
Definition validCoordinate (p : point) : Prop :=
  -90 <= latitude p <= 90 /\ -180 <= longitude p <= 180.

(** ** Properties of segments *)

(** No two neighbours of the list are further apart in longitude than 180. *)
Fixpoint noJump (s : list point) : Prop :=
  match s with
  | [] => True
  | p :: rest =>
      match rest with
      | [] => True
      | q :: _ => ~ crosses (longitude p) (longitude q)
      end /\ noJump rest
  end.

Definition lonInRange (p : point) : Prop := -180 <= longitude p <= 180.

(** The segments without the points the splitter added: every segment but
    the last loses its last point, every segment but the first its first. *)
Fixpoint withoutInserted (isFirst : bool) (segs : list (list point))
  : list point :=
  match segs with
  | [] => []
  | s :: rest =>
      let body := if isFirst then s else tl s in
      match rest with
      | [] => body
      | _ :: _ => removelast body ++ withoutInserted false rest
      end
  end.

(** ** Statements and invariants used below *)

(** What the loop has read so far, recovered from its two variables. *)
Definition covered (st : splitState) : list point :=
  withoutInserted true (segments st ++ [currentSegment st]).

(** A segment is only ever closed when it holds a point, and the segment
    opened after it holds two. *)
Definition openAfterClose (st : splitState) : Prop :=
  segments st <> [] -> currentSegment st <> [].

(** The invariant of the loop on inputs with longitudes in [[-180,180]]. *)
Definition segmentsSound (st : splitState) : Prop :=
  Forall noJump (segments st) /\ noJump (currentSegment st) /\
  (forall q, lastElement (currentSegment st) = Some q -> lonInRange q).

(** The three parts of the claim on [split], at one input. *)
Definition splitClaim (points : list point) : Prop :=
  withoutInserted true (splitAtAntimeridian points) = points /\
  Forall noJump (splitAtAntimeridian points) /\
  (noJump points -> splitAtAntimeridian points = [points]).

(** The longitude [λ2] stands for after the wrap direction is chosen, in
    degrees: [lon2] itself or [lon2] a full turn away. *)
Definition unwrappedLon (lon1 lon2 : R) : R :=
  if Rgt_dec (Rabs (lon2 - lon1)) 180 then
    if Rgt_dec (lon2 - lon1) 0 then lon2 - 360 else lon2 + 360
  else lon2.

(** The claim on [interpolate], at one input. *)
Definition interpolateClaim (p1 p2 : point) (n : nat) : Prop :=
  let points :=
    calculateGeodesicPoints (latitude p1) (longitude p1)
                            (latitude p2) (longitude p2) n in
  length points = S n /\ hd_error points = Some p1 /\
  lastElement points = Some p2.

(** What [createInfiniteGeodesicLine] replicates: the interpolated path,
    split. *)
Definition renderedSegments (origin dest : point) : list (list point) :=
  splitAtAntimeridian
    (calculateGeodesicPoints (latitude origin) (longitude origin)
                             (latitude dest) (longitude dest) 100).

Definition tokyo : point := (35.7, 139.7).
Definition losAngeles : point := (34, -118.2).

Definition tokyoPath : list point :=
  calculateGeodesicPoints 35.7 139.7 34 (-118.2) 100.

(** The scenario as the claim states it: resolution 100, the wrap towards
    the east, and at least two segments with a point on the boundary. *)
Definition tokyoClaim : Prop :=
  renderedSegments tokyo losAngeles = splitAtAntimeridian tokyoPath /\
  unwrapλ2 (139.7 * toRad) (-118.2 * toRad) - 139.7 * toRad = 102.1 * toRad /\
  (2 <= length (renderedSegments tokyo losAngeles))%nat /\
  exists seg p, In seg (renderedSegments tokyo losAngeles) /\ In p seg /\
                (longitude p = 179.999 \/ longitude p = -179.999).

Definition interactiveCount (layers : list polyline) : nat :=
  length (filter interactive layers).

Definition interactiveMarkers (markers : list circleMarker) : nat :=
  length (filter markerInteractive markers).

Definition plainOptions : lineOptions := mkLineOptions None None None None.

(** ** Further notions used below *)

(** The pairs of neighbours of a list that the crossing test accepts. *)
Fixpoint countJumps (s : list point) : nat :=
  match s with
  | [] => 0
  | p :: rest =>
      match rest with
      | [] => 0
      | q :: _ =>
          if crosses_dec (longitude p) (longitude q) then 1 else 0
      end + countJumps rest
  end.

(** The points held by all segments together. *)
Definition totalPoints (segs : list (list point)) : nat :=
  length (concat segs).

Definition latInRange (p : point) : Prop := -90 <= latitude p <= 90.

(** ** dashboard.js: the trips, their layers and the totals *)

(** A record of [window.tripsData]; [tripId] is [t.id], a number, the key
    of the trip, [tripOrigin], [tripDest], [tripDistance] and
    [tripEmissions] are [t.origin], [t.dest], [t.distance], [t.emissions]. *)
Record trip : Type := mkTrip {
  tripId : nat;
  tripOrigin : point;
  tripDest : point;
  origin_code : string;
  dest_code : string;
  tripDistance : R;
  tripEmissions : R
}.

(** [L.layerGroup([lineGroup, originGroup, destGroup])].  Leaflet tells
    layer objects apart by a stamp; [stamp] is the rank of the trip in
    [tripsData], the order in which the groups are created. *)
Record layerGroup : Type := mkLayerGroup {
  stamp : nat;
  lineGroup : list polyline;
  originGroup : list circleMarker;
  destGroup : list circleMarker
}.

(** A value of [tripLayers]. *)
Record layerEntry : Type := mkLayerEntry {
  group : layerGroup;
  emissions : R;
  distance : R
}.

(** The object [tripLayers], its keys the ids: the binding written last
    for a key is the one read. *)
Definition registry : Type := list (nat * layerEntry).

(** [tripLayers[id]], [None] for [undefined]. *)
Definition lookup (layers : registry) (id : nat) : option layerEntry :=
  match find (fun binding => Nat.eqb (fst binding) id) layers with
  | Some binding => Some (snd binding)
  | None => None
  end.

(** [tripLayers[id] = entry]. *)
Definition assign (layers : registry) (id : nat) (entry : layerEntry)
  : registry :=
  (id, entry) :: layers.

(** The layers a map holds, by stamp.  [addTo(map)] does nothing for a
    layer the map holds already, [map.removeLayer] nothing for one it does
    not hold. *)
Definition addLayer (layer : nat) (onMap : list nat) : list nat :=
  if existsb (Nat.eqb layer) onMap then onMap else onMap ++ [layer].

Definition removeLayer (layer : nat) (onMap : list nat) : list nat :=
  filter (fun held => negb (Nat.eqb layer held)) onMap.

(** A checkbox of class [trip-checkbox]: [dataset.tripId], the id of a trip
    in decimal notation, and [checked]. *)
Record checkbox : Type := mkCheckbox {
  dataTripId : nat;
  checked : bool
}.

(** The three variables of [updateAnalytics]. *)
Record totals : Type := mkTotals {
  totalEmissions : R;
  totalDistance : R;
  visibleCount : nat
}.

(** The body of the loop of [updateAnalytics]. *)
Definition countTrip (layers : registry) (sums : totals) (cb : checkbox)
  : totals :=
  let id := dataTripId cb in
  if checked cb then
    match lookup layers id with
    | Some entry =>
        mkTotals (totalEmissions sums + emissions entry)
                 (totalDistance sums + distance entry)
                 (S (visibleCount sums))
    | None => sums
    end
  else sums.

Definition visibleTotals (layers : registry) (checkboxes : list checkbox)
  : totals :=
  fold_left (countTrip layers) checkboxes (mkTotals 0 0 0).

(** The three elements [updateAnalytics] writes. *)
Record analytics : Type := mkAnalytics {
  total_emissions : string;
  tree_equivalent : string;
  trip_count : nat
}.

(** What the page holds besides the checkboxes: the stamps of the groups
    on the map, [tripLayers], and the three texts. *)
Record page : Type := mkPage {
  onMap : list nat;
  tripLayers : registry;
  shown : analytics
}.

Definition newline : string := String (Ascii.ascii_of_nat 10) EmptyString.

Section Formatting.

(** [x.toFixed(digits)], the decimal notation of a number: not in the
    source, a parameter here. *)
Variable toFixed : nat -> R -> string.

(** The template literal given as [popupContent]. *)
Definition linePopup (t : trip) : string :=
  (newline ++
   "                    <b>" ++ origin_code t ++ " → " ++ dest_code t
     ++ "</b><br>" ++ newline ++
   "                    Distance: " ++ toFixed 0 (tripDistance t)
     ++ " km<br>" ++ newline ++
   "                    CO₂ Emissions: " ++ toFixed 1 (tripEmissions t)
     ++ " kg<br>" ++ newline ++
   "                    <small>Click trip in list to toggle visibility</small>"
     ++ newline ++
   "                ")%string.

(** The three layer groups of a trip, joined in one group. *)
Definition tripGroup (rank : nat) (t : trip) : layerGroup :=
  let lineGroup :=
    createInfiniteGeodesicLine (tripOrigin t) (tripDest t)
      (mkLineOptions (Some "#ff4444"%string) (Some 3) (Some 0.7)
                     (Some (linePopup t))) in
  let originGroup :=
    createInfiniteMarker (tripOrigin t)
      (mkMarkerOptions (Some 8) (Some "#0066cc"%string)
                       (Some "#0066cc"%string) (Some 0.8) (Some 2))
      ("<b>Origin:</b> " ++ origin_code t)%string in
  let destGroup :=
    createInfiniteMarker (tripDest t)
      (mkMarkerOptions (Some 8) (Some "#00cc66"%string)
                       (Some "#00cc66"%string) (Some 0.8) (Some 2))
      ("<b>Destination:</b> " ++ dest_code t)%string in
  mkLayerGroup rank lineGroup originGroup destGroup.

(** The body of [window.tripsData.forEach], for the trip of rank [rank]. *)
Definition createTripLayers (p : page) (ranked : nat * trip) : page :=
  let '(rank, t) := ranked in
  let tripGroup := tripGroup rank t in
  mkPage (addLayer (stamp tripGroup) (onMap p))
         (assign (tripLayers p) (tripId t)
            (mkLayerEntry tripGroup (tripEmissions t) (tripDistance t)))
         (shown p).

(** [tripsData.forEach(...)], from a page without trip layers. *)
Definition createAllTripLayers (tripsData : list trip) (start : page) : page :=
  fold_left createTripLayers (combine (seq 0 (length tripsData)) tripsData)
            start.

Definition updateAnalytics (layers : registry) (checkboxes : list checkbox)
  : analytics :=
  let sums := visibleTotals layers checkboxes in
  mkAnalytics (toFixed 1 (totalEmissions sums) ++ " kg")%string
              (toFixed 1 (totalEmissions sums / 21) ++ " trees")%string
              (visibleCount sums).

(** [handleTripToggle(e)] with [e.target = target], one of [checkboxes], on
    what the page holds.  Reading [layers.group] of an [undefined] entry
    throws.  The call of [fitMapToVisibleTrips] moves the view only, which a
    [page] does not hold. *)
Definition handleTripToggle (checkboxes : list checkbox) (target : checkbox)
  (p : page) : completion page :=
  let id := dataTripId target in
  match lookup (tripLayers p) id with
  | None => Throws "TypeError"
  | Some layers =>
      let onMap' :=
        if checked target then addLayer (stamp (group layers)) (onMap p)
        else removeLayer (stamp (group layers)) (onMap p) in
      Returns (mkPage onMap' (tripLayers p)
                      (updateAnalytics (tripLayers p) checkboxes))
  end.

(** The handler run for a sequence of change events, each with the
    checkboxes as they are then and its target; an exception ends the
    handler it is thrown in and leaves the page to the next event. *)
Definition afterEvents (events : list (list checkbox * checkbox)) (p : page)
  : page :=
  fold_left
    (fun p event =>
       match handleTripToggle (fst event) (snd event) p with
       | Returns p' => p'
       | Throws _ => p
       end)
    events p.

End Formatting.

(** Two partial results of [updateAnalytics], added up. *)
Definition addTotals (a b : totals) : totals :=
  mkTotals (totalEmissions a + totalEmissions b)
           (totalDistance a + totalDistance b)
           (visibleCount a + visibleCount b).

(** A formatter and a trip to try the statements on. *)
Definition plainFixed (digits : nat) (x : R) : string := EmptyString.

Definition noTexts : analytics := mkAnalytics EmptyString EmptyString 0.

Definition flight (id : nat) : trip :=
  mkTrip id (35.7, 139.7) (34, -118.2) "HND" "LAX" 8800 900.

(** ** Doubles: rounded arithmetic and not-a-number *)

(** The definitions above compute with exact reals.  Those of [Doubles]
    follow the two interpolators and the line builder operation by
    operation in the arithmetic of the machine: every sum, difference,
    product and quotient is rounded ([fl]), [Math.PI] and the functions of
    [Math] are the approximations the implementation has, and [Math.acos] and
    [Math.asin] give a not-a-number outside [[-1,1]].  Nothing is assumed of
    a [machine] unless a statement says that it is [accurate]: what holds for
    every machine holds for the one the program runs on.  Overflow is not
    represented. *)
Module Doubles.

Record machine : Type := mkMachine {
  fl : R -> R;
  Math_PI : R;
  Math_sin : R -> R;
  Math_cos : R -> R;
  asinOn : R -> R;
  acosOn : R -> R;
  Math_atan2 : R -> R -> R
}.

(** [Math.acos] and [Math.asin]: not-a-number ([None]) outside [[-1,1]],
    the value the implementation has inside. *)
Definition Math_acos (M : machine) (x : R) : option R :=
  if Rle_dec (-1) x then
    if Rle_dec x 1 then Some (acosOn M x) else None
  else None.

Definition Math_asin (M : machine) (x : R) : option R :=
  if Rle_dec (-1) x then
    if Rle_dec x 1 then Some (asinOn M x) else None
  else None.

(** The machine that does not round: the arithmetic of the definitions
    above. *)
Definition exact : machine :=
  mkMachine (fun x => x) PI sin cos asin acos atan2.

(** What the statements on magnitudes assume of a machine, with room to
    spare for doubles: a rounding error of at most 10^-9 times the size of
    the result, plus 10^-9; [Math.PI], sines, cosines and arc cosines within
    10^-9 of their values; arc sines no larger than [Math.PI / 2] and angles
    of [Math.atan2] no larger than [Math.PI]. *)
Definition tolerance : R := 1 / 1000000000.

Record accurate (M : machine) : Prop := mkAccurate {
  fl_error : forall x, Rabs (fl M x - x) <= tolerance * Rabs x + tolerance;
  PI_error : Rabs (Math_PI M - PI) <= tolerance;
  sin_error : forall x, Rabs (Math_sin M x - sin x) <= tolerance;
  cos_error : forall x, Rabs (Math_cos M x - cos x) <= tolerance;
  acos_error :
    forall x, -1 <= x <= 1 -> Rabs (acosOn M x - acos x) <= tolerance;
  asin_range : forall x, Rabs (asinOn M x) <= Math_PI M / 2;
  atan2_range : forall y x, Rabs (Math_atan2 M y x) <= Math_PI M
}.

(** An accurate machine that is not the exact one: its cosine errs upward
    by the tolerance. *)
Definition tilted : machine :=
  mkMachine (fun x => x) PI sin (fun x => cos x + tolerance) asin acos atan2.

(** *** dashboard.js: [calculateGeodesicPoints] *)

Section Dashboard.

Variable M : machine.

Local Notation "x ⊕ y" := (fl M (x + y)) (at level 50, left associativity).
Local Notation "x ⊖ y" := (fl M (x - y)) (at level 50, left associativity).
Local Notation "x ⊗ y" := (fl M (x * y)) (at level 40, left associativity).
Local Notation "x ⊘ y" := (fl M (x / y)) (at level 40, left associativity).
Local Abbreviation π := (Math_PI M).
Local Abbreviation sin := (Math_sin M).
Local Abbreviation cos := (Math_cos M).
Local Abbreviation atan2 := (Math_atan2 M).

Definition toRad : R := π ⊘ 180.

(** [λ2] after the choice of the wrap direction. *)
Definition unwrapλ2 (λ1 λ2 : R) : R :=
  let lonDiff := (λ2 ⊖ λ1) ⊗ 180 ⊘ π in
  if Rgt_dec (Rabs lonDiff) 180 then
    if Rgt_dec lonDiff 0 then λ2 ⊖ 2 ⊗ π else λ2 ⊕ 2 ⊗ π
  else λ2.

(** The sum of products inside [Math.min]. *)
Definition cosineSum (lat1 lon1 lat2 lon2 : R) : R :=
  let φ1 := lat1 ⊗ toRad in
  let λ1 := lon1 ⊗ toRad in
  let φ2 := lat2 ⊗ toRad in
  let λ2 := unwrapλ2 λ1 (lon2 ⊗ toRad) in
  let Δλ := λ2 ⊖ λ1 in
  sin φ1 ⊗ sin φ2 ⊕ cos φ1 ⊗ cos φ2 ⊗ cos Δλ.

(** [Math.max(-1, Math.min(1, sum))], the value handed to [Math.acos]. *)
Definition acosArgument (lat1 lon1 lat2 lon2 : R) : R :=
  clampUnit (cosineSum lat1 lon1 lat2 lon2).

(** [Δσ], [None] when it is not a number. *)
Definition centralAngle (lat1 lon1 lat2 lon2 : R) : option R :=
  Math_acos M (acosArgument lat1 lon1 lat2 lon2).

(** The initial bearing [θ]. *)
Definition initialBearing (φ1 φ2 Δλ : R) : R :=
  atan2 (sin Δλ ⊗ cos φ2)
        (cos φ1 ⊗ sin φ2 ⊖ sin φ1 ⊗ cos φ2 ⊗ cos Δλ).

(** The body of the interpolation loop, at index [i].  When [Math.asin]
    gives a not-a-number, so does [Math.sin(φ)] and with it [Math.atan2]:
    the point pushed is [[NaN, NaN]], here [None]. *)
Definition geodesicPoint (φ1 λ1 Δσ θ : R) (numPoints i : nat)
  : option point :=
  let f := INR i ⊘ INR numPoints in
  let σ := f ⊗ Δσ in
  match Math_asin M (sin φ1 ⊗ cos σ ⊕ cos φ1 ⊗ sin σ ⊗ cos θ) with
  | None => None
  | Some φ =>
      let λ := λ1 ⊕ atan2 (sin θ ⊗ sin σ ⊗ cos φ1)
                          (cos σ ⊖ sin φ1 ⊗ sin φ) in
      let lat := φ ⊗ 180 ⊘ π in
      let lon := λ ⊗ 180 ⊘ π in
      Some (lat, lon)
  end.

(** A central angle that is not a number fails the test [Δσ < 0.001] and
    makes every point of the loop a not-a-number. *)
Definition calculateGeodesicPoints (lat1 lon1 lat2 lon2 : R) (numPoints : nat)
  : list (option point) :=
  let φ1 := lat1 ⊗ toRad in
  let λ1 := lon1 ⊗ toRad in
  let φ2 := lat2 ⊗ toRad in
  let λ2 := unwrapλ2 λ1 (lon2 ⊗ toRad) in
  let Δλ := λ2 ⊖ λ1 in
  match centralAngle lat1 lon1 lat2 lon2 with
  | None => map (fun _ => None) (seq 0 (S numPoints))
  | Some Δσ =>
      if Rlt_dec Δσ 0.001 then [Some (lat1, lon1); Some (lat2, lon2)]
      else
        let θ := initialBearing φ1 φ2 Δλ in
        map (geodesicPoint φ1 λ1 Δσ θ numPoints) (seq 0 (S numPoints))
  end.

End Dashboard.

(** *** dashboard.js: [splitAtAntimeridian] on computed points *)

(** The splitter on a path that may hold not-a-number points.  The test
    [Math.abs(lon - prevLon) > 180] is false as soon as one of the two
    longitudes is not a number, so such a point is pushed like any other.
    The arithmetic of a crossing is that of the splitter above. *)
Record splitState : Type := mkSplit {
  segments : list (list (option point));
  currentSegment : list (option point)
}.

Definition splitStep (st : splitState) (p : option point) : splitState :=
  match lastElement (currentSegment st), p with
  | Some (Some (prevLat, prevLon)), Some (lat, lon) =>
      if crosses_dec prevLon lon then
        let midLat := midLatAt prevLat prevLon lat lon in
        let midLon := midLonAt prevLon in
        let closed := currentSegment st ++ [Some (midLat, midLon)] in
        let otherLon := otherLonAt prevLon in
        mkSplit (segments st ++ [closed])
                [Some (midLat, otherLon); Some (lat, lon)]
      else mkSplit (segments st) (currentSegment st ++ [p])
  | _, _ => mkSplit (segments st) (currentSegment st ++ [p])
  end.

Definition splitLoop (points : list (option point)) : splitState :=
  fold_left splitStep points (mkSplit [] []).

Definition finish (st : splitState) : list (list (option point)) :=
  match currentSegment st with
  | [] => segments st
  | _ :: _ => segments st ++ [currentSegment st]
  end.

Definition splitAtAntimeridian (points : list (option point))
  : list (list (option point)) :=
  finish (splitLoop points).

(** *** dashboard.js: [createInfiniteGeodesicLine] *)

(** The points of a list when all of them are numbers. *)
Fixpoint numbers (latlngs : list (option point)) : option (list point) :=
  match latlngs with
  | [] => Some []
  | None :: _ => None
  | Some p :: rest =>
      match numbers rest with
      | Some ps => Some (p :: ps)
      | None => None
      end
  end.

Definition bind {A B : Type} (c : completion A) (f : A -> completion B)
  : completion B :=
  match c with
  | Returns a => f a
  | Throws condition => Throws condition
  end.

(** The body of the inner [for] loop.  Adding the offset keeps a
    not-a-number, and [L.polyline] throws on a point that is not a number
    (Leaflet: [Invalid LatLng object]); from numbers it builds the polyline
    of [lineCopy] above. *)
Definition lineCopy (options : lineOptions) (segmentIndex : nat)
  (segment : list (option point)) (offset : Z) : completion polyline :=
  match numbers segment with
  | Some latlngs => Returns (lineCopy options segmentIndex latlngs offset)
  | None => Throws "Invalid LatLng object"
  end.

(** [for (let offset = -720; offset <= 720; offset += 360)], stopped by the
    first exception. *)
Fixpoint forOffsets (options : lineOptions) (segmentIndex : nat)
  (segment : list (option point)) (offsets : list Z)
  : completion (list polyline) :=
  match offsets with
  | [] => Returns []
  | offset :: rest =>
      bind (lineCopy options segmentIndex segment offset) (fun line =>
      bind (forOffsets options segmentIndex segment rest) (fun lines =>
      Returns (line :: lines)))
  end.

(** [segments.forEach((segment, segmentIndex) => ...)]. *)
Fixpoint forEachSegment (options : lineOptions) (segmentIndex : nat)
  (segments : list (list (option point))) : completion (list polyline) :=
  match segments with
  | [] => Returns []
  | segment :: rest =>
      bind (forOffsets options segmentIndex segment worldOffsets)
        (fun lines =>
      bind (forEachSegment options (S segmentIndex) rest) (fun more =>
      Returns (lines ++ more)))
  end.

(** What the builder splits and replicates. *)
Definition renderedSegments (M : machine) (origin dest : point)
  : list (list (option point)) :=
  splitAtAntimeridian
    (calculateGeodesicPoints M (latitude origin) (longitude origin)
                               (latitude dest) (longitude dest) 100).

Definition createInfiniteGeodesicLine (M : machine) (origin dest : point)
  (options : lineOptions) : completion (list polyline) :=
  let '(lat1, lon1) := origin in
  let '(lat2, lon2) := dest in
  let geodesicPoints := calculateGeodesicPoints M lat1 lon1 lat2 lon2 100 in
  let segments := splitAtAntimeridian geodesicPoints in
  forEachSegment options 0 segments.

(** *** geodesic.js: class GeodesicLine *)

Module GeodesicLine.

Section Class.

Variable M : machine.

Local Notation "x ⊕ y" := (fl M (x + y)) (at level 50, left associativity).
Local Notation "x ⊖ y" := (fl M (x - y)) (at level 50, left associativity).
Local Notation "x ⊗ y" := (fl M (x * y)) (at level 40, left associativity).
Local Notation "x ⊘ y" := (fl M (x / y)) (at level 40, left associativity).
Local Abbreviation π := (Math_PI M).
Local Abbreviation sin := (Math_sin M).
Local Abbreviation cos := (Math_cos M).
Local Abbreviation atan2 := (Math_atan2 M).

(** The sum of products handed to [Math.acos] as it is. *)
Definition cosineSum (lat1 lon1 lat2 lon2 : R) : R :=
  let φ1 := lat1 ⊗ π ⊘ 180 in
  let λ1 := lon1 ⊗ π ⊘ 180 in
  let φ2 := lat2 ⊗ π ⊘ 180 in
  let λ2 := lon2 ⊗ π ⊘ 180 in
  let Δλ := λ2 ⊖ λ1 in
  sin φ1 ⊗ sin φ2 ⊕ cos φ1 ⊗ cos φ2 ⊗ cos Δλ.

(** [Δσ], [None] when it is not a number. *)
Definition centralAngle (lat1 lon1 lat2 lon2 : R) : option R :=
  Math_acos M (cosineSum lat1 lon1 lat2 lon2).

(** The two normalisation loops, each run for at most [fuel] iterations;
    what is stated below holds for every [fuel]. *)
Fixpoint whileAbove (fuel : nat) (lon : R) : R :=
  match fuel with
  | O => lon
  | S k => if Rgt_dec lon 180 then whileAbove k (lon ⊖ 360) else lon
  end.

Fixpoint whileBelow (fuel : nat) (lon : R) : R :=
  match fuel with
  | O => lon
  | S k => if Rlt_dec lon (-180) then whileBelow k (lon ⊕ 360) else lon
  end.

Definition normalizeLon (fuel : nat) (lon : R) : R :=
  let lon := whileAbove fuel lon in
  whileBelow fuel lon.

(** The body of the interpolation loop, at index [i]; [Math.sqrt] is the
    rounded square root. *)
Definition greatCirclePoint (fuel : nat) (φ1 λ1 φ2 λ2 Δσ : R)
  (numPoints i : nat) : point :=
  let fraction := INR i ⊘ INR numPoints in
  let A := sin ((1 ⊖ fraction) ⊗ Δσ) ⊘ sin Δσ in
  let B := sin (fraction ⊗ Δσ) ⊘ sin Δσ in
  let x := A ⊗ cos φ1 ⊗ cos λ1 ⊕ B ⊗ cos φ2 ⊗ cos λ2 in
  let y := A ⊗ cos φ1 ⊗ sin λ1 ⊕ B ⊗ cos φ2 ⊗ sin λ2 in
  let z := A ⊗ sin φ1 ⊕ B ⊗ sin φ2 in
  let φi := atan2 z (fl M (sqrt (x ⊗ x ⊕ y ⊗ y))) in
  let λi := atan2 y x in
  let lat := φi ⊗ 180 ⊘ π in
  let lon := λi ⊗ 180 ⊘ π in
  (lat, normalizeLon fuel lon).

Definition calculateGreatCircle (fuel : nat) (lat1 lon1 lat2 lon2 : R)
  (numPoints : nat) : list point :=
  let φ1 := lat1 ⊗ π ⊘ 180 in
  let λ1 := lon1 ⊗ π ⊘ 180 in
  let φ2 := lat2 ⊗ π ⊘ 180 in
  let λ2 := lon2 ⊗ π ⊘ 180 in
  match centralAngle lat1 lon1 lat2 lon2 with
  | None => [(lat1, lon1); (lat2, lon2)]
  | Some Δσ =>
      if Rlt_dec Δσ 0.001 then [(lat1, lon1); (lat2, lon2)]
      else map (greatCirclePoint fuel φ1 λ1 φ2 λ2 Δσ numPoints)
               (seq 0 (S numPoints))
  end.

(** The splitter is the one above: it only compares and copies what the
    interpolator computed. *)
Definition createFlightPath (fuel : nat) (origin destination : point)
  : list point :=
  let '(lat1, lon1) := origin in
  let '(lat2, lon2) := destination in
  let lonDiff := Rabs (lon2 ⊖ lon1) in
  if Rgt_dec lonDiff 180 then
    let points := calculateGreatCircle fuel lat1 lon1 lat2 lon2 100 in
    GeodesicLine.splitAtAntimeridian points
  else calculateGreatCircle fuel lat1 lon1 lat2 lon2 30.

End Class.

End GeodesicLine.

(** *** One run in doubles *)

(** The doubles of the run of either interpolator on the point (8, 0) taken
    twice, with round-to-nearest arithmetic: [Math.PI], [Math.PI / 180], the
    latitude in radians, its sine and cosine, which are the doubles nearest
    to the exact values, and their squares, each written as the quotient of
    an integer by a power of two.  In decimal notation they are
    3.141592653589793, 0.017453292519943295, 0.13962634015954636,
    0.13917310096006544, 0.9902680687415704, 0.019369152030840567,
    0.9806308479691596 and, for the sum of the two squares,
    1.0000000000000002. *)
Definition πd : R := 884279719003555 / 281474976710656.
Definition toRadD : R := 5030569068109113 / 288230376151711744.
Definition φd : R := 5030569068109113 / 36028797018963968.
Definition sinD : R := 5014239404989977 / 36028797018963968.
Definition cosD : R := 4459770905381437 / 4503599627370496.
Definition sinSquareD : R := 1395694493897217 / 72057594037927936.
Definition cosSquareD : R := 8832737443003841 / 9007199254740992.
Definition sumD : R := 4503599627370497 / 4503599627370496.

(** The roundings of that run; every other result of the run is a double
    already. *)
Definition roundD (x : R) : R :=
  if Req_dec_T x (πd / 180) then toRadD
  else if Req_dec_T x (8 * πd / 180) then φd
  else if Req_dec_T x (sinD * sinD) then sinSquareD
  else if Req_dec_T x (cosD * cosD) then cosSquareD
  else if Req_dec_T x (sinSquareD + cosSquareD) then sumD
  else x.

Definition recorded : machine :=
  mkMachine roundD πd
    (fun x => if Req_dec_T x φd then sinD else sin x)
    (fun x => if Req_dec_T x φd then cosD else cos x)
    asin acos atan2.

End Doubles.

(** ** The claims that fail, as statements *)

(** The claim on the clamp, at one input: the central angle of neither
    interpolator is a not-a-number. *)
Definition clampClaim (M : Doubles.machine) (lat1 lon1 lat2 lon2 : R) : Prop :=
  Doubles.centralAngle M lat1 lon1 lat2 lon2 <> None /\
  Doubles.GeodesicLine.centralAngle M lat1 lon1 lat2 lon2 <> None.

(** The claim on malformed trips, at one trip: the build is rejected. *)
Definition rejectionClaim (M : Doubles.machine) (origin dest : point) : Prop :=
  ~ (validCoordinate origin /\ validCoordinate dest) ->
  exists condition,
    Doubles.createInfiniteGeodesicLine M origin dest plainOptions =
    Throws condition.

(** A point that is a number, with its longitude or its latitude within a
    bound; a not-a-number passes. *)
Definition lonWithin (bound : R) (p : option point) : Prop :=
  match p with
  | Some q => - bound <= longitude q <= bound
  | None => True
  end.

Definition latWithin (bound : R) (p : option point) : Prop :=
  match p with
  | Some q => - bound <= latitude q <= bound
  | None => True
  end.

(** A state of the dashboard splitter, as a state of the splitter on
    computed points. *)
Definition liftState (st : splitState) : Doubles.splitState :=
  Doubles.mkSplit (map (map Some) (segments st))
                  (map Some (currentSegment st)).

(** * Proofs *)

(** ** Lists *)

Lemma lastElement_snoc {A : Type} (l : list A) (x : A) :
  lastElement (l ++ [x]) = Some x.
Proof. unfold lastElement. rewrite rev_app_distr. reflexivity. Qed.

Lemma lastElement_none {A : Type} (l : list A) :
  lastElement l = None -> l = [].
Proof.
  destruct l as [|x l] using rev_ind; [reflexivity|].
  rewrite lastElement_snoc. discriminate.
Qed.

Lemma lastElement_some {A : Type} (l : list A) (x : A) :
  lastElement l = Some x -> exists front, l = front ++ [x].
Proof.
  destruct l as [|y l _] using rev_ind.
  - discriminate.
  - rewrite lastElement_snoc. intros [= ->]. now exists l.
Qed.

Lemma tl_snoc {A : Type} (l : list A) (x : A) :
  l <> [] -> tl (l ++ [x]) = tl l ++ [x].
Proof. destruct l; [congruence | reflexivity]. Qed.

(** ** The crossing test *)

Lemma crosses_far (a b : R) : crosses a b <-> b - a > 180 \/ a - b > 180.
Proof.
  unfold crosses, Rabs. destruct (Rcase_abs (b - a)); split; intros H; lra.
Qed.

Lemma not_crosses_near (a b : R) :
  ~ crosses a b <-> -180 <= b - a <= 180.
Proof. rewrite crosses_far. lra. Qed.

(** ** [noJump] *)

Lemma noJump_snoc (s : list point) (q p : point) :
  noJump (s ++ [q]) -> ~ crosses (longitude q) (longitude p) ->
  noJump ((s ++ [q]) ++ [p]).
Proof.
  induction s as [|a s IH]; simpl.
  - intros _ H. tauto.
  - intros [Ha Hs] Hq. split; [|now apply IH].
    destruct s; exact Ha.
Qed.

Lemma noJump_app_l (s t : list point) : noJump (s ++ t) -> noJump s.
Proof.
  induction s as [|a s IH]; simpl; [tauto|].
  intros [Ha Hs]. split; [|now apply IH].
  destruct s; simpl in *; [exact I | exact Ha].
Qed.

Lemma noJump_middle (s : list point) (q p : point) (t : list point) :
  noJump ((s ++ [q]) ++ p :: t) -> ~ crosses (longitude q) (longitude p).
Proof.
  induction s as [|a s IH]; simpl.
  - tauto.
  - intros [_ Hs]. now apply IH.
Qed.

(** ** The dashboard splitter, step by step *)

Lemma splitStep_empty (segs : list (list point)) (p : point) :
  splitStep (mkSplit segs []) p = mkSplit segs [p].
Proof. destruct p. reflexivity. Qed.

Lemma splitStep_push (segs : list (list point)) (cur : list point)
  (q p : point) :
  ~ crosses (longitude q) (longitude p) ->
  splitStep (mkSplit segs (cur ++ [q])) p = mkSplit segs ((cur ++ [q]) ++ [p]).
Proof.
  intros H. destruct p as [la lo], q as [pla plo]. unfold splitStep. simpl.
  rewrite lastElement_snoc.
  destruct (crosses_dec plo lo) as [c|c]; [contradiction | reflexivity].
Qed.

Lemma splitStep_cross (segs : list (list point)) (cur : list point)
  (q p : point) :
  crosses (longitude q) (longitude p) ->
  splitStep (mkSplit segs (cur ++ [q])) p =
  let midLat := midLatAt (latitude q) (longitude q) (latitude p) (longitude p) in
  mkSplit (segs ++ [(cur ++ [q]) ++ [(midLat, midLonAt (longitude q))]])
          [(midLat, otherLonAt (longitude q)); p].
Proof.
  intros H. destruct p as [la lo], q as [pla plo]. unfold splitStep. simpl.
  rewrite lastElement_snoc.
  destruct (crosses_dec plo lo) as [c|c]; [reflexivity | contradiction].
Qed.

(** After any non-empty input the current segment ends with the point read
    last: the test of the next iteration compares consecutive points. *)
Lemma splitStep_last (st : splitState) (p : point) :
  lastElement (currentSegment (splitStep st p)) = Some p.
Proof.
  destruct st as [segs cur], p as [la lo]. unfold splitStep. simpl.
  destruct (lastElement cur) as [[pla plo]|].
  - destruct (crosses_dec plo lo); simpl.
    + reflexivity.
    + apply lastElement_snoc.
  - apply lastElement_snoc.
Qed.

Lemma fold_left_snoc {A B : Type} (f : A -> B -> A) (l : list B) (x : B) (a : A) :
  fold_left f (l ++ [x]) a = f (fold_left f l a) x.
Proof. rewrite fold_left_app. reflexivity. Qed.

Lemma splitLoop_snoc (points : list point) (p : point) :
  splitLoop (points ++ [p]) = splitStep (splitLoop points) p.
Proof. apply fold_left_snoc. Qed.

Lemma splitLoop_last (points : list point) (p : point) :
  lastElement (currentSegment (splitLoop (points ++ [p]))) = Some p.
Proof. rewrite splitLoop_snoc. apply splitStep_last. Qed.

(** ** Reconstruction *)

Lemma withoutInserted_push (segs : list (list point)) (isFirst : bool)
  (cur : list point) (p : point) :
  (segs <> [] \/ isFirst = false -> cur <> []) ->
  withoutInserted isFirst (segs ++ [cur ++ [p]]) =
  withoutInserted isFirst (segs ++ [cur]) ++ [p].
Proof.
  revert isFirst. induction segs as [|s rest IH]; intros isFirst H.
  - simpl. destruct isFirst; [reflexivity|].
    apply tl_snoc. apply H. now right.
  - assert (Hcur : cur <> []) by (apply H; left; discriminate).
    simpl. rewrite IH by (intros _; exact Hcur).
    destruct rest; simpl; now rewrite app_assoc.
Qed.

Lemma withoutInserted_close (segs : list (list point)) (isFirst : bool)
  (cur : list point) (mid other p : point) :
  (segs <> [] \/ isFirst = false -> cur <> []) ->
  withoutInserted isFirst ((segs ++ [cur ++ [mid]]) ++ [[other; p]]) =
  withoutInserted isFirst (segs ++ [cur]) ++ [p].
Proof.
  revert isFirst. induction segs as [|s rest IH]; intros isFirst H.
  - simpl. destruct isFirst.
    + now rewrite removelast_last.
    + rewrite tl_snoc by (apply H; now right). now rewrite removelast_last.
  - assert (Hcur : cur <> []) by (apply H; left; discriminate).
    simpl. rewrite IH by (intros _; exact Hcur).
    destruct rest; simpl; now rewrite app_assoc.
Qed.

Lemma splitStep_covered (st : splitState) (p : point) :
  openAfterClose st ->
  covered (splitStep st p) = covered st ++ [p] /\
  openAfterClose (splitStep st p).
Proof.
  destruct st as [segs cur]. unfold openAfterClose, covered. simpl. intros Hinv.
  destruct cur as [|q cur _] using rev_ind.
  - rewrite splitStep_empty. simpl. split; [|discriminate].
    apply (withoutInserted_push segs true [] p).
    intros [Hs|Hf]; [now apply Hinv | discriminate].
  - destruct (crosses_dec (longitude q) (longitude p)) as [c|c].
    + rewrite splitStep_cross by exact c. simpl. split; [|discriminate].
      apply withoutInserted_close. intros _. now destruct cur.
    + rewrite splitStep_push by exact c. simpl. split.
      * apply withoutInserted_push. intros _. now destruct cur.
      * intros _. now destruct cur.
Qed.

Lemma splitLoop_covered (points : list point) :
  covered (splitLoop points) = points /\ openAfterClose (splitLoop points).
Proof.
  induction points as [|p points [IH Hinv]] using rev_ind.
  - split; [reflexivity | intros H; now elim H].
  - rewrite splitLoop_snoc.
    destruct (splitStep_covered (splitLoop points) p Hinv) as [Hc Ho].
    split; [|exact Ho]. now rewrite Hc, IH.
Qed.

Lemma finish_covered (st : splitState) :
  openAfterClose st -> withoutInserted true (finish st) = covered st.
Proof.
  destruct st as [segs cur]. unfold openAfterClose, finish, covered. simpl.
  intros H. destruct cur as [|q cur]; [|reflexivity].
  destruct segs; [reflexivity|]. exfalso. apply H; [discriminate | reflexivity].
Qed.

Lemma split_reconstructs (points : list point) :
  withoutInserted true (splitAtAntimeridian points) = points.
Proof.
  unfold splitAtAntimeridian.
  destruct (splitLoop_covered points) as [Hc Ho].
  now rewrite finish_covered.
Qed.

(** ** No jump inside a returned segment *)

Lemma midLonAt_near (prevLon : R) :
  -180 <= prevLon <= 180 -> ~ crosses prevLon (midLonAt prevLon).
Proof.
  intros H. apply not_crosses_near. unfold midLonAt.
  destruct (Rgt_dec prevLon 0); lra.
Qed.

Lemma otherLonAt_near (prevLon lon : R) :
  -180 <= prevLon <= 180 -> -180 <= lon <= 180 -> crosses prevLon lon ->
  ~ crosses (otherLonAt prevLon) lon.
Proof.
  intros Hp Hl Hc. apply crosses_far in Hc. apply not_crosses_near.
  unfold otherLonAt. destruct (Rgt_dec prevLon 0); lra.
Qed.

Lemma splitStep_sound (st : splitState) (p : point) :
  segmentsSound st -> lonInRange p -> segmentsSound (splitStep st p).
Proof.
  destruct st as [segs cur]. unfold segmentsSound. simpl.
  intros (Hsegs & Hcur & Hlast) Hp.
  destruct cur as [|q cur _] using rev_ind.
  - rewrite splitStep_empty. simpl. split; [exact Hsegs|]. split; [tauto|].
    intros q' [= <-]. exact Hp.
  - specialize (Hlast q (lastElement_snoc cur q)).
    destruct (crosses_dec (longitude q) (longitude p)) as [c|c].
    + rewrite splitStep_cross by exact c. simpl. split; [|split].
      * apply Forall_app. split; [exact Hsegs|]. constructor; [|constructor].
        apply noJump_snoc; [exact Hcur|]. simpl.
        now apply midLonAt_near.
      * split; [|tauto]. now apply otherLonAt_near.
      * intros q' [= <-]. exact Hp.
    + rewrite splitStep_push by exact c. simpl. split; [|split].
      * exact Hsegs.
      * now apply noJump_snoc.
      * intros q'. rewrite lastElement_snoc. intros [= <-]. exact Hp.
Qed.

Lemma splitLoop_sound (points : list point) :
  Forall lonInRange points -> segmentsSound (splitLoop points).
Proof.
  induction points as [|p points IH] using rev_ind; intros H.
  - split; [constructor|]. split; [exact I|]. intros q. discriminate.
  - apply Forall_app in H as [Hpts Hp]. rewrite splitLoop_snoc.
    apply splitStep_sound; [now apply IH | now inversion Hp].
Qed.

Lemma split_noJump (points : list point) :
  Forall lonInRange points -> Forall noJump (splitAtAntimeridian points).
Proof.
  intros H. destruct (splitLoop_sound points H) as (Hsegs & Hcur & _).
  unfold splitAtAntimeridian, finish.
  destruct (currentSegment (splitLoop points)) eqn:E; [exact Hsegs|].
  apply Forall_app. split; [exact Hsegs|]. now constructor.
Qed.

(** ** An input without a jump is returned as it is *)

Lemma splitLoop_noJump (points : list point) :
  noJump points -> splitLoop points = mkSplit [] points.
Proof.
  induction points as [|p points IH] using rev_ind; intros H.
  - reflexivity.
  - rewrite splitLoop_snoc, IH by now apply noJump_app_l in H.
    destruct points as [|q points _] using rev_ind.
    + apply splitStep_empty.
    + apply splitStep_push. now apply (noJump_middle points q p []).
Qed.

Lemma split_noJump_single (points : list point) :
  points <> [] -> noJump points -> splitAtAntimeridian points = [points].
Proof.
  intros Hne H. unfold splitAtAntimeridian. rewrite splitLoop_noJump by exact H.
  unfold finish. simpl. now destruct points.
Qed.

(** ** The splitter of the dashboard: the claims *)

(** C10. [splitAtAntimeridian] is total on inputs shorter than two points:
    the empty list gives the empty list of segments, a one-point list gives
    exactly one segment holding that point. *)
Theorem split_short_inputs :
  splitAtAntimeridian [] = [] /\
  forall p : point, splitAtAntimeridian [p] = [[p]].
Proof.
  split; [reflexivity|]. intros [la lo]. reflexivity.
Qed.

(** C2. When the loop finds a crossing between the consecutive points [q] and
    [p], it closes the current segment with the crossing point, whose
    longitude is 179.999 if [q] lies on the positive side and -179.999
    otherwise, and opens a new segment made of the mirrored boundary point
    followed by [p]. *)
Theorem split_closes_and_reopens_at_crossing
  (points : list point) (q p : point) :
  crosses (longitude q) (longitude p) ->
  let st := splitLoop (points ++ [q]) in
  let midLat :=
    midLatAt (latitude q) (longitude q) (latitude p) (longitude p) in
  lastElement (currentSegment st) = Some q /\
  (longitude q > 0 ->
   splitLoop ((points ++ [q]) ++ [p]) =
   mkSplit (segments st ++ [currentSegment st ++ [(midLat, 179.999)]])
           [(midLat, -179.999); p]) /\
  (~ longitude q > 0 ->
   splitLoop ((points ++ [q]) ++ [p]) =
   mkSplit (segments st ++ [currentSegment st ++ [(midLat, -179.999)]])
           [(midLat, 179.999); p]).
Proof.
  intros Hc st midLat.
  pose proof (splitLoop_last points q) as Hlast. fold st in Hlast.
  split; [exact Hlast|].
  rewrite (splitLoop_snoc (points ++ [q]) p). fold st.
  destruct st as [segs cur]. simpl in *.
  apply lastElement_some in Hlast as [front ->].
  rewrite splitStep_cross by exact Hc. simpl. fold midLat.
  unfold midLonAt, otherLonAt.
  split; intros Hq; destruct (Rgt_dec (longitude q) 0); try contradiction;
    reflexivity.
Qed.

Lemma crosses_170 : crosses (longitude (0, 170)) (longitude (0, -170)).
Proof. apply crosses_far. simpl. lra. Qed.

Lemma split_closes_and_reopens_at_crossing_witness :
  splitLoop (([] ++ [(0, 170)]) ++ [(0, -170)]) =
  mkSplit [[(0, 170); (midLatAt 0 170 0 (-170), 179.999)]]
          [(midLatAt 0 170 0 (-170), -179.999); (0, -170)].
Proof.
  apply (split_closes_and_reopens_at_crossing [] (0, 170) (0, -170) crosses_170).
  simpl. lra.
Defined.

(** C3, as stated, fails on a longitude outside [[-180,180]]: from
    [[(0,400); (0,40)]], the two-point path of a trip that starts at
    longitude 400, the first segment returned is [[(0,400); (0,179.999)]],
    a jump of 220.001. *)
Lemma split_jump_remains : ~ splitClaim [(0, 400); (0, 40)].
Proof.
  intros (_ & H & _).
  assert (Hc : crosses (longitude (0, 400)) (longitude (0, 40)))
    by (apply crosses_far; simpl; lra).
  assert (E : splitAtAntimeridian [(0, 400); (0, 40)] =
              [[(0, 400); (midLatAt 0 400 0 40, 179.999)];
               [(midLatAt 0 400 0 40, -179.999); (0, 40)]]).
  { unfold splitAtAntimeridian.
    change (splitLoop [(0, 400); (0, 40)])
      with (splitStep (mkSplit [] ([] ++ [(0, 400)])) (0, 40)).
    rewrite splitStep_cross by exact Hc. simpl.
    unfold midLonAt, otherLonAt. destruct (Rgt_dec 400 0); [reflexivity | lra]. }
  rewrite E in H. inversion H as [|s l Hs _]; subst.
  destruct Hs as [Hs _]. apply Hs. apply crosses_far. simpl. lra.
Qed.

(** C3, amended.  For every input the segments returned, without the points
    the splitter inserted, are the input; when every longitude of the input
    lies in [[-180,180]] no returned segment has two neighbours more than 180
    apart; a non-empty input without such a jump comes back as one segment,
    the input itself. *)
Theorem split_reconstructs_and_bounds (points : list point) :
  withoutInserted true (splitAtAntimeridian points) = points /\
  (Forall lonInRange points -> Forall noJump (splitAtAntimeridian points)) /\
  (points <> [] -> noJump points -> splitAtAntimeridian points = [points]).
Proof.
  split; [apply split_reconstructs|].
  split; [apply split_noJump | apply split_noJump_single].
Qed.

(** ** [Math.atan2] *)

Lemma atan2_bounds (y x : R) : - PI < atan2 y x <= PI.
Proof.
  pose proof PI_RGT_0 as Hpi. pose proof (atan_bound (y / x)) as Hb.
  unfold atan2.
  destruct (Rlt_dec 0 x) as [Hx|Hx]; [lra|].
  destruct (Rlt_dec x 0) as [Hx'|Hx'].
  - destruct (Rle_dec 0 y) as [Hy|Hy].
    + assert (y / x <= 0).
      { unfold Rdiv. assert (/ x < 0) by now apply Rinv_lt_0_compat. nra. }
      assert (atan (y / x) <= 0).
      { rewrite <- atan_0. destruct H as [H|H].
        - left. now apply atan_increasing.
        - rewrite H. lra. }
      lra.
    + assert (0 < y / x).
      { unfold Rdiv. assert (/ x < 0) by now apply Rinv_lt_0_compat. nra. }
      assert (0 < atan (y / x)).
      { rewrite <- atan_0. now apply atan_increasing. }
      lra.
  - destruct (Rlt_dec 0 y); [lra|]. destruct (Rlt_dec y 0); lra.
Qed.

Lemma atan2_nonneg (y x : R) : 0 <= y -> 0 <= atan2 y x <= PI.
Proof.
  intros Hy. pose proof PI_RGT_0 as Hpi. pose proof (atan_bound (y / x)) as Hb.
  split; [|apply atan2_bounds].
  unfold atan2.
  destruct (Rlt_dec 0 x) as [Hx|Hx].
  - assert (0 <= y / x).
    { unfold Rdiv. assert (0 < / x) by now apply Rinv_0_lt_compat. nra. }
    rewrite <- atan_0. destruct H as [H|H].
    + left. now apply atan_increasing.
    + rewrite <- H. lra.
  - destruct (Rlt_dec x 0) as [Hx'|Hx'].
    + destruct (Rle_dec 0 y); lra.
    + destruct (Rlt_dec 0 y); [lra|]. destruct (Rlt_dec y 0); lra.
Qed.

Lemma atan2_pos (y x : R) : 0 < y -> 0 < atan2 y x < PI.
Proof.
  intros Hy. pose proof PI_RGT_0 as Hpi. pose proof (atan_bound (y / x)) as Hb.
  unfold atan2.
  destruct (Rlt_dec 0 x) as [Hx|Hx].
  - assert (0 < y / x).
    { unfold Rdiv. assert (0 < / x) by now apply Rinv_0_lt_compat. nra. }
    assert (0 < atan (y / x)).
    { rewrite <- atan_0. now apply atan_increasing. }
    lra.
  - destruct (Rlt_dec x 0) as [Hx'|Hx'].
    + destruct (Rle_dec 0 y); [|lra].
      assert (y / x < 0).
      { unfold Rdiv. assert (/ x < 0) by now apply Rinv_lt_0_compat. nra. }
      assert (atan (y / x) < 0).
      { rewrite <- atan_0. now apply atan_increasing. }
      lra.
    + destruct (Rlt_dec 0 y); lra.
Qed.

Lemma atan2_0_nonneg (x : R) : 0 <= x -> atan2 0 x = 0.
Proof.
  intros Hx. unfold atan2.
  destruct (Rlt_dec 0 x).
  - unfold Rdiv. rewrite Rmult_0_l. apply atan_0.
  - destruct (Rlt_dec x 0); [lra|].
    destruct (Rlt_dec 0 0); [lra|]. destruct (Rlt_dec 0 0); [lra|reflexivity].
Qed.

(** The angle of a vector given in polar form. *)
Lemma cos_pos_range (α : R) : - PI < α <= PI -> 0 < cos α -> - (PI / 2) < α < PI / 2.
Proof.
  intros Ha Hc. pose proof PI_RGT_0 as Hpi.
  split.
  - destruct (Rlt_dec (- (PI / 2)) α) as [H|H]; [exact H|].
    assert (cos (- α) <= 0) by (apply cos_le_0; lra).
    rewrite cos_neg in H0. lra.
  - destruct (Rlt_dec α (PI / 2)) as [H|H]; [exact H|].
    assert (cos α <= 0) by (apply cos_le_0; lra). lra.
Qed.

Lemma sin_nonneg_range (α : R) : - PI < α <= PI -> 0 <= sin α -> 0 <= α.
Proof.
  intros Ha Hs. destruct (Rle_dec 0 α) as [H|H]; [exact H|].
  assert (sin α < 0) by (apply sin_lt_0_var; lra). lra.
Qed.

Lemma sin_neg_range (α : R) : - PI < α <= PI -> sin α < 0 -> α < 0.
Proof.
  intros Ha Hs. destruct (Rlt_dec α 0) as [H|H]; [exact H|].
  assert (0 <= sin α) by (apply sin_ge_0; lra). lra.
Qed.

Lemma polar_quotient (r α : R) :
  0 < r -> cos α <> 0 -> r * sin α / (r * cos α) = tan α.
Proof. intros Hr Hc. unfold tan. field. split; lra. Qed.

Lemma atan2_polar (r α : R) :
  0 < r -> - PI < α <= PI -> atan2 (r * sin α) (r * cos α) = α.
Proof.
  intros Hr Ha. pose proof PI_RGT_0 as Hpi. unfold atan2.
  destruct (Rlt_dec 0 (r * cos α)) as [Hx|Hx].
  - assert (Hc : 0 < cos α) by nra.
    rewrite polar_quotient by lra. apply atan_tan. now apply cos_pos_range.
  - destruct (Rlt_dec (r * cos α) 0) as [Hx'|Hx'].
    + assert (Hc : cos α < 0) by nra.
      rewrite polar_quotient by lra.
      destruct (Rle_dec 0 (r * sin α)) as [Hy|Hy].
      * assert (Hs : 0 <= sin α) by nra.
        pose proof (sin_nonneg_range α Ha Hs) as H0.
        assert (PI / 2 < α).
        { destruct (Rlt_dec (PI / 2) α) as [H|H]; [exact H|].
          assert (0 <= cos α) by (apply cos_ge_0; lra). lra. }
        assert (E : tan α = tan (α - PI)).
        { unfold tan. replace (α - PI) with (- (PI - α)) by ring.
          rewrite sin_neg, cos_neg.
          replace (PI - α) with (- α + PI) by ring.
          rewrite neg_sin, neg_cos, sin_neg, cos_neg. field. lra. }
        rewrite E, atan_tan by lra. ring.
      * assert (Hs : sin α < 0) by nra.
        pose proof (sin_neg_range α Ha Hs) as H0.
        assert (α < - (PI / 2)).
        { destruct (Rlt_dec α (- (PI / 2))) as [H|H]; [exact H|].
          assert (0 <= cos α) by (apply cos_ge_0; lra). lra. }
        assert (E : tan α = tan (α + PI)).
        { unfold tan. rewrite neg_sin, neg_cos. field. lra. }
        rewrite E, atan_tan by lra. ring.
    + assert (Hc : cos α = 0) by nra.
      pose proof (sin2_cos2 α) as Hsc. unfold Rsqr in Hsc. rewrite Hc in Hsc.
      destruct (Rlt_dec 0 (r * sin α)) as [Hy|Hy].
      * assert (Hs : 0 < sin α) by nra.
        assert (0 <= α) by (apply sin_nonneg_range; lra).
        symmetry. apply cos_inj; [lra | lra |]. now rewrite cos_PI2.
      * destruct (Rlt_dec (r * sin α) 0) as [Hy'|Hy'].
        -- assert (Hs : sin α < 0) by nra.
           assert (α < 0) by (now apply sin_neg_range).
           assert (- α = PI / 2).
           { apply cos_inj; [lra | lra |]. now rewrite cos_neg, cos_PI2. }
           lra.
        -- assert (sin α = 0) by nra. nra.
Qed.

(** Sine and cosine of [Math.atan2(y, x)], scaled by the length of [(x, y)]. *)
Lemma norm_scaled (x t : R) :
  0 <= x -> sqrt (x * x + (t * x) * (t * x)) = x * sqrt (1 + t²).
Proof.
  intros Hx. apply sqrt_lem_1.
  - nra.
  - apply Rmult_le_pos; [exact Hx | apply sqrt_pos].
  - assert (H : 0 <= 1 + t²) by (unfold Rsqr; nra).
    pose proof (sqrt_sqrt _ H) as Hs. unfold Rsqr in *. nra.
Qed.

Lemma atan2_cos_sin (y x : R) :
  cos (atan2 y x) * sqrt (x * x + y * y) = x /\
  sin (atan2 y x) * sqrt (x * x + y * y) = y.
Proof.
  pose proof PI_RGT_0 as Hpi. unfold atan2.
  destruct (Rlt_dec 0 x) as [Hx|Hx].
  - set (t := y / x). assert (Hy : y = t * x) by (unfold t; field; lra).
    assert (Hp : 0 < sqrt (1 + t²)) by (apply sqrt_lt_R0; unfold Rsqr; nra).
    assert (Hn : sqrt (x * x + y * y) = x * sqrt (1 + t²)).
    { replace (x * x + y * y) with (x * x + (t * x) * (t * x))
        by (rewrite Hy; ring).
      apply norm_scaled. lra. }
    rewrite Hn, cos_atan, sin_atan. split; [field; lra|].
    rewrite Hy. field. lra.
  - destruct (Rlt_dec x 0) as [Hx'|Hx'].
    + set (t := y / x). assert (Hy : y = t * x) by (unfold t; field; lra).
      assert (Hp : 0 < sqrt (1 + t²)) by (apply sqrt_lt_R0; unfold Rsqr; nra).
      assert (Hn : sqrt (x * x + y * y) = - x * sqrt (1 + t²)).
      { replace (x * x + y * y) with (- x * - x + (- t * - x) * (- t * - x))
          by (rewrite Hy; ring).
        rewrite norm_scaled by lra. f_equal. f_equal. unfold Rsqr. ring. }
      rewrite Hn.
      destruct (Rle_dec 0 y).
      * rewrite neg_cos, neg_sin, cos_atan, sin_atan. split; [field; lra|].
        rewrite Hy. field. lra.
      * replace (atan t - PI) with (- (- atan t + PI)) by ring.
        rewrite cos_neg, sin_neg, neg_cos, neg_sin, cos_neg, sin_neg,
          cos_atan, sin_atan.
        split; [field; lra|]. rewrite Hy. field. lra.
    + assert (E : x = 0) by lra. subst x.
      replace (0 * 0 + y * y) with (y * y) by ring.
      destruct (Rlt_dec 0 y) as [Hy|Hy].
      * rewrite cos_PI2, sin_PI2, sqrt_square by lra. lra.
      * destruct (Rlt_dec y 0) as [Hy'|Hy'].
        -- rewrite cos_neg, sin_neg, cos_PI2, sin_PI2.
           replace (y * y) with (- y * - y) by ring.
           rewrite sqrt_square by lra. lra.
        -- assert (E : y = 0) by lra. subst y.
           rewrite Rmult_0_l, sqrt_0. lra.
Qed.

Lemma atan2_sin_pos (y x : R) : 0 < y -> 0 < sin (atan2 y x).
Proof.
  intros Hy. destruct (atan2_pos y x Hy). now apply sin_gt_0.
Qed.

(** ** The central angle *)

Lemma clampUnit_range (x : R) : -1 <= clampUnit x <= 1.
Proof.
  unfold clampUnit, Rmax, Rmin.
  destruct (Rle_dec 1 x); destruct (Rle_dec (-1) _); lra.
Qed.

Lemma clampUnit_id (x : R) : -1 <= x <= 1 -> clampUnit x = x.
Proof.
  intros H. unfold clampUnit, Rmax, Rmin.
  destruct (Rle_dec 1 x); destruct (Rle_dec (-1) _); lra.
Qed.

Lemma Math_acos_in_domain (x : R) : -1 <= x <= 1 -> Math_acos x = Some (acos x).
Proof.
  intros [H1 H2]. unfold Math_acos.
  destruct (Rle_dec (-1) x); [|contradiction].
  destruct (Rle_dec x 1); [reflexivity | contradiction].
Qed.

Lemma acosArgument_in_domain (lat1 lon1 lat2 lon2 : R) :
  Math_acos (acosArgument lat1 lon1 lat2 lon2) =
  Some (centralAngle lat1 lon1 lat2 lon2).
Proof. apply Math_acos_in_domain. apply clampUnit_range. Qed.

Lemma centralAngle_range (lat1 lon1 lat2 lon2 : R) :
  0 <= centralAngle lat1 lon1 lat2 lon2 <= PI.
Proof. apply acos_bound. Qed.

(** The spherical law of cosines, exactly: the three numbers below are the
    coordinates of a unit vector. *)
Lemma unit_vector (φ1 φ2 Δλ : R) :
  let C := sin φ1 * sin φ2 + cos φ1 * cos φ2 * cos Δλ in
  let X := cos φ1 * sin φ2 - sin φ1 * cos φ2 * cos Δλ in
  let Y := sin Δλ * cos φ2 in
  C * C + (X * X + Y * Y) = 1.
Proof.
  intros C X Y. unfold C, X, Y.
  pose proof (sin2_cos2 φ1) as H1. pose proof (sin2_cos2 φ2) as H2.
  pose proof (sin2_cos2 Δλ) as H3. unfold Rsqr in *.
  set (a := sin φ1) in *. set (b := cos φ1) in *.
  set (c := sin φ2) in *. set (d := cos φ2) in *.
  set (v := sin Δλ) in *. set (u := cos Δλ) in *.
  replace ((a * c + b * d * u) * (a * c + b * d * u) +
           ((b * c - a * d * u) * (b * c - a * d * u) + v * d * (v * d)))
    with ((a * a + b * b) * (c * c + d * d * (u * u)) + d * d * (v * v))
    by ring.
  rewrite H1.
  replace (1 * (c * c + d * d * (u * u)) + d * d * (v * v))
    with (c * c + d * d * (v * v + u * u)) by ring.
  rewrite H3. lra.
Qed.

Lemma cosine_sum_range (φ1 φ2 Δλ : R) :
  -1 <= sin φ1 * sin φ2 + cos φ1 * cos φ2 * cos Δλ <= 1.
Proof.
  pose proof (unit_vector φ1 φ2 Δλ) as H. simpl in H.
  set (C := sin φ1 * sin φ2 + cos φ1 * cos φ2 * cos Δλ) in *.
  set (X := cos φ1 * sin φ2 - sin φ1 * cos φ2 * cos Δλ) in *.
  set (Y := sin Δλ * cos φ2) in *.
  nra.
Qed.

(** ** The degenerate case *)

Lemma unwrapλ2_same (λ : R) : unwrapλ2 λ λ = λ.
Proof.
  unfold unwrapλ2.
  replace ((λ - λ) * 180 / PI) with 0 by (field; apply PI_neq0).
  rewrite Rabs_R0. destruct (Rgt_dec 0 180); [lra | reflexivity].
Qed.

Lemma cosine_sum_same (φ : R) : sin φ * sin φ + cos φ * cos φ * cos 0 = 1.
Proof.
  rewrite cos_0. pose proof (sin2_cos2 φ) as H. unfold Rsqr in H. lra.
Qed.

Lemma centralAngle_same (lat lon : R) : centralAngle lat lon lat lon = 0.
Proof.
  unfold centralAngle, acosArgument. rewrite unwrapλ2_same.
  replace (lon * toRad - lon * toRad) with 0 by ring.
  rewrite cosine_sum_same, clampUnit_id by lra. apply acos_1.
Qed.

Lemma calculateGeodesicPoints_degenerate (lat1 lon1 lat2 lon2 : R) (n : nat) :
  centralAngle lat1 lon1 lat2 lon2 < 0.001 ->
  calculateGeodesicPoints lat1 lon1 lat2 lon2 n = [(lat1, lon1); (lat2, lon2)].
Proof.
  intros H. unfold calculateGeodesicPoints.
  destruct (Rlt_dec (centralAngle lat1 lon1 lat2 lon2) 0.001);
    [reflexivity | contradiction].
Qed.

Lemma calculateGeodesicPoints_regular (lat1 lon1 lat2 lon2 : R) (n : nat) :
  ~ centralAngle lat1 lon1 lat2 lon2 < 0.001 ->
  calculateGeodesicPoints lat1 lon1 lat2 lon2 n =
  map (geodesicPoint (lat1 * toRad) (lon1 * toRad)
         (centralAngle lat1 lon1 lat2 lon2)
         (initialBearing (lat1 * toRad) (lat2 * toRad)
            (unwrapλ2 (lon1 * toRad) (lon2 * toRad) - lon1 * toRad)) n)
      (seq 0 (S n)).
Proof.
  intros H. unfold calculateGeodesicPoints.
  destruct (Rlt_dec (centralAngle lat1 lon1 lat2 lon2) 0.001);
    [contradiction | reflexivity].
Qed.

Lemma greatCircle_acosArgument_range (lat1 lon1 lat2 lon2 : R) :
  -1 <= GeodesicLine.acosArgument lat1 lon1 lat2 lon2 <= 1.
Proof. apply cosine_sum_range. Qed.

(** ** The interpolated points of the dashboard *)

Lemma toRad_back (x : R) : x * toRad * 180 / PI = x.
Proof. unfold toRad. field. apply PI_neq0. Qed.

Lemma toRad_quarter (x : R) :
  -90 <= x <= 90 -> - (PI / 2) <= x * toRad <= PI / 2.
Proof. intros H. pose proof PI_RGT_0. unfold toRad. split; nra. Qed.

Lemma toRad_quarter_lt (x : R) :
  -90 < x < 90 -> - (PI / 2) < x * toRad < PI / 2.
Proof. intros H. pose proof PI_RGT_0. unfold toRad. split; nra. Qed.

Lemma calculateGeodesicPoints_length (lat1 lon1 lat2 lon2 : R) (n : nat) :
  ~ centralAngle lat1 lon1 lat2 lon2 < 0.001 ->
  length (calculateGeodesicPoints lat1 lon1 lat2 lon2 n) = S n.
Proof.
  intros H. rewrite calculateGeodesicPoints_regular by exact H.
  now rewrite length_map, length_seq.
Qed.

Lemma fraction_range (n i : nat) :
  (1 <= n)%nat -> (i <= n)%nat -> 0 <= INR i / INR n <= 1.
Proof.
  intros Hn Hi. assert (0 < INR n) by (apply lt_0_INR; lia).
  assert (0 <= INR i) by apply pos_INR.
  assert (INR i <= INR n) by now apply le_INR.
  split.
  - apply Rmult_le_pos; [lra|]. left. now apply Rinv_0_lt_compat.
  - apply Rmult_le_reg_r with (INR n); [lra|]. unfold Rdiv.
    rewrite Rmult_assoc, Rinv_l by lra. lra.
Qed.

(** Every interpolated longitude is within 180 degrees of [lon1]. *)
Lemma geodesicPoint_lon_near (lat1 lon1 Δσ θ : R) (n i : nat) :
  lon1 - 180 < longitude (geodesicPoint (lat1 * toRad) (lon1 * toRad) Δσ θ n i)
    <= lon1 + 180.
Proof.
  unfold geodesicPoint, longitude. simpl.
  match goal with |- context [atan2 ?y ?x] =>
    pose proof (atan2_bounds y x) as Hb; set (a := atan2 y x) in * end.
  pose proof PI_RGT_0 as Hpi.
  replace ((lon1 * toRad + a) * 180 / PI) with (lon1 + a * (180 / PI))
    by (unfold toRad; field; lra).
  assert (Hk : 0 < 180 / PI) by (apply Rdiv_lt_0_compat; lra).
  assert (E : PI * (180 / PI) = 180) by (field; lra).
  split; nra.
Qed.

(** When the path leaves towards the east ([sin θ * cos φ1 >= 0]) every
    interpolated longitude lies between [lon1] and [lon1 + 180]. *)
Lemma geodesicPoint_lon_east (lat1 lon1 Δσ θ : R) (n i : nat) :
  (1 <= n)%nat -> (i <= n)%nat -> 0 <= Δσ <= PI ->
  0 <= sin θ * cos (lat1 * toRad) ->
  lon1 <= longitude (geodesicPoint (lat1 * toRad) (lon1 * toRad) Δσ θ n i)
    <= lon1 + 180.
Proof.
  intros Hn Hi Hd He.
  pose proof (fraction_range n i Hn Hi) as Hf.
  unfold geodesicPoint, longitude. simpl.
  set (f := INR i / INR n) in *.
  assert (Hσ : 0 <= f * Δσ <= PI) by nra.
  assert (Hs : 0 <= sin (f * Δσ)) by (apply sin_ge_0; lra).
  match goal with |- context [atan2 ?y ?x] =>
    assert (Hy : 0 <= y) by nra;
    pose proof (atan2_nonneg y x Hy) as Hb; set (a := atan2 y x) in * end.
  pose proof PI_RGT_0 as Hpi.
  replace ((lon1 * toRad + a) * 180 / PI) with (lon1 + a * (180 / PI))
    by (unfold toRad; field; lra).
  assert (Hk : 0 < 180 / PI) by (apply Rdiv_lt_0_compat; lra).
  assert (E : PI * (180 / PI) = 180) by (field; lra).
  split; nra.
Qed.

(** Longitudes that fit in a window of 180 degrees never jump. *)
Lemma window_noJump (low : R) (s : list point) :
  Forall (fun p => low <= longitude p <= low + 180) s -> noJump s.
Proof.
  induction 1 as [|p s Hp Hs IH]; simpl; [exact I|].
  split; [|exact IH].
  destruct s as [|q s]; [exact I|].
  inversion Hs as [|? ? Hq _]; subst. apply not_crosses_near. lra.
Qed.

Lemma calculateGeodesicPoints_east_window (lat1 lon1 lat2 lon2 : R) (n : nat) :
  (1 <= n)%nat ->
  ~ centralAngle lat1 lon1 lat2 lon2 < 0.001 ->
  0 <= sin (initialBearing (lat1 * toRad) (lat2 * toRad)
              (unwrapλ2 (lon1 * toRad) (lon2 * toRad) - lon1 * toRad))
       * cos (lat1 * toRad) ->
  Forall (fun p => lon1 <= longitude p <= lon1 + 180)
         (calculateGeodesicPoints lat1 lon1 lat2 lon2 n).
Proof.
  intros Hn Hd He. rewrite calculateGeodesicPoints_regular by exact Hd.
  apply Forall_forall. intros p Hp. apply in_map_iff in Hp as (i & <- & Hi).
  apply in_seq in Hi. apply geodesicPoint_lon_east; try assumption; try lia.
  apply centralAngle_range.
Qed.

(** ** The end points of the interpolated path *)

(** [Math.asin] is applied inside its domain as well. *)
Lemma geodesicPoint_asin_in_domain (φ1 σ θ : R) :
  -1 <= sin φ1 * cos σ + cos φ1 * sin σ * cos θ <= 1.
Proof.
  pose proof (sin2_cos2 φ1) as H1. pose proof (sin2_cos2 σ) as H2.
  pose proof (sin2_cos2 θ) as H3. unfold Rsqr in *.
  set (a := sin φ1) in *. set (b := cos φ1) in *.
  set (s := sin σ) in *. set (c := cos σ) in *.
  set (t := cos θ) in *. set (u := sin θ) in *.
  assert (Hsq : (a * c + b * s * t) * (a * c + b * s * t) <= 1).
  { assert (E : (a * c + b * s * t) * (a * c + b * s * t) =
                (a * a + b * b * (t * t)) * (s * s + c * c)
                - (a * s - b * t * c) * (a * s - b * t * c)) by ring.
    rewrite E, H2.
    pose proof (Rle_0_sqr (a * s - b * t * c)) as Hp. unfold Rsqr in Hp.
    pose proof (Rle_0_sqr (b * u)) as Hq. unfold Rsqr in Hq.
    assert (E' : a * a + b * b * (t * t) = 1 - b * u * (b * u)).
    { replace (b * u * (b * u)) with (b * b * (u * u)) by ring.
      replace (u * u) with (1 - t * t) by lra. lra. }
    rewrite E'. lra. }
  split; nra.
Qed.

Lemma geodesicPoint_first (lat1 lon1 Δσ θ : R) (n : nat) :
  -90 <= lat1 <= 90 ->
  geodesicPoint (lat1 * toRad) (lon1 * toRad) Δσ θ n 0 = (lat1, lon1).
Proof.
  intros Hlat. unfold geodesicPoint. simpl INR.
  replace (0 / INR n * Δσ) with 0 by (unfold Rdiv; ring).
  rewrite sin_0, cos_0.
  replace (sin (lat1 * toRad) * 1 + cos (lat1 * toRad) * 0 * cos θ)
    with (sin (lat1 * toRad)) by ring.
  rewrite asin_sin by now apply toRad_quarter.
  replace (sin θ * 0 * cos (lat1 * toRad)) with 0 by ring.
  rewrite atan2_0_nonneg.
  - rewrite Rplus_0_r, !toRad_back. reflexivity.
  - pose proof (sin2_cos2 (lat1 * toRad)) as H. unfold Rsqr in H.
    pose proof (Rle_0_sqr (cos (lat1 * toRad))) as Hc. unfold Rsqr in Hc. lra.
Qed.

(** The wrap direction leaves a longitude difference of at most half a
    turn, when both longitudes are in range. *)
Lemma unwrapλ2_half_turn (lon1 lon2 : R) :
  -180 <= lon1 <= 180 -> -180 <= lon2 <= 180 ->
  - PI <= unwrapλ2 (lon1 * toRad) (lon2 * toRad) - lon1 * toRad <= PI.
Proof.
  intros H1 H2. pose proof PI_RGT_0 as Hpi. unfold unwrapλ2.
  replace ((lon2 * toRad - lon1 * toRad) * 180 / PI) with (lon2 - lon1)
    by (unfold toRad; field; lra).
  unfold toRad.
  destruct (Rgt_dec (Rabs (lon2 - lon1)) 180) as [Hc|Hc].
  - apply crosses_far in Hc.
    destruct (Rgt_dec (lon2 - lon1) 0); split; nra.
  - apply not_crosses_near in Hc. split; nra.
Qed.

Lemma unwrapλ2_degrees (lon1 lon2 : R) :
  unwrapλ2 (lon1 * toRad) (lon2 * toRad) = unwrappedLon lon1 lon2 * toRad.
Proof.
  pose proof PI_RGT_0 as Hpi. unfold unwrapλ2, unwrappedLon.
  replace ((lon2 * toRad - lon1 * toRad) * 180 / PI) with (lon2 - lon1)
    by (unfold toRad; field; lra).
  destruct (Rgt_dec (Rabs (lon2 - lon1)) 180); [|reflexivity].
  destruct (Rgt_dec (lon2 - lon1) 0); unfold toRad; field; lra.
Qed.

Lemma sin_central (x : R) : -1 <= x <= 1 -> sin (acos x) = sqrt (1 - x * x).
Proof. intros H. rewrite sin_acos by exact H. reflexivity. Qed.

Section LastPoint.

Variables φ1 φ2 Δλ : R.
Hypothesis Hφ1 : - (PI / 2) < φ1 < PI / 2.
Hypothesis Hφ2 : - (PI / 2) < φ2 < PI / 2.

Let C := sin φ1 * sin φ2 + cos φ1 * cos φ2 * cos Δλ.
Let X := cos φ1 * sin φ2 - sin φ1 * cos φ2 * cos Δλ.
Let Y := sin Δλ * cos φ2.
Let Δσ := acos (clampUnit C).
Let θ := atan2 Y X.

Lemma central_cos : cos Δσ = C.
Proof.
  unfold Δσ. rewrite clampUnit_id by apply cosine_sum_range.
  apply cos_acos. apply cosine_sum_range.
Qed.

Lemma central_sin : sin Δσ = sqrt (X * X + Y * Y).
Proof.
  unfold Δσ. rewrite clampUnit_id by apply cosine_sum_range.
  rewrite sin_central by apply cosine_sum_range. f_equal.
  pose proof (unit_vector φ1 φ2 Δλ) as H. simpl in H. fold C X Y in H. lra.
Qed.

Lemma bearing_cos : sin Δσ * cos θ = X.
Proof.
  rewrite central_sin, Rmult_comm. apply (atan2_cos_sin Y X).
Qed.

Lemma bearing_sin : sin θ * sin Δσ = Y.
Proof. rewrite central_sin. apply (atan2_cos_sin Y X). Qed.

Lemma last_sine :
  sin φ1 * cos Δσ + cos φ1 * sin Δσ * cos θ = sin φ2.
Proof.
  rewrite Rmult_assoc, bearing_cos, central_cos. unfold C, X.
  pose proof (sin2_cos2 φ1) as H. unfold Rsqr in H.
  replace (sin φ1 * (sin φ1 * sin φ2 + cos φ1 * cos φ2 * cos Δλ) +
           cos φ1 * (cos φ1 * sin φ2 - sin φ1 * cos φ2 * cos Δλ))
    with ((sin φ1 * sin φ1 + cos φ1 * cos φ1) * sin φ2) by ring.
  rewrite H. ring.
Qed.

Lemma last_latitude :
  asin (sin φ1 * cos Δσ + cos φ1 * sin Δσ * cos θ) = φ2.
Proof. rewrite last_sine. apply asin_sin. lra. Qed.

Lemma last_vector :
  sin θ * sin Δσ * cos φ1 = cos φ1 * cos φ2 * sin Δλ /\
  cos Δσ - sin φ1 * sin φ2 = cos φ1 * cos φ2 * cos Δλ.
Proof.
  rewrite bearing_sin, central_cos. unfold C, Y. split; ring.
Qed.

Lemma last_longitude (λ1 : R) :
  - PI < Δλ <= PI ->
  λ1 + atan2 (sin θ * sin Δσ * cos φ1) (cos Δσ - sin φ1 * sin φ2) = λ1 + Δλ.
Proof.
  intros H. destruct last_vector as [-> ->].
  rewrite atan2_polar; [reflexivity | | exact H].
  apply Rmult_lt_0_compat; apply cos_gt_0; lra.
Qed.

Lemma last_longitude_back (λ1 : R) :
  Δλ = - PI ->
  λ1 + atan2 (sin θ * sin Δσ * cos φ1) (cos Δσ - sin φ1 * sin φ2) = λ1 + PI.
Proof.
  intros H. destruct last_vector as [-> ->].
  assert (E : sin Δλ = sin PI /\ cos Δλ = cos PI).
  { rewrite H, sin_neg, cos_neg, sin_PI. split; [ring | reflexivity]. }
  destruct E as [-> ->].
  rewrite atan2_polar; [reflexivity | | pose proof PI_RGT_0; lra].
  apply Rmult_lt_0_compat; apply cos_gt_0; lra.
Qed.

End LastPoint.

Lemma geodesicPoint_last (lat1 lon1 lat2 lon2 : R) (n : nat) :
  -90 < lat1 < 90 -> -90 < lat2 < 90 ->
  -180 <= lon1 <= 180 -> -180 <= lon2 <= 180 -> (1 <= n)%nat ->
  geodesicPoint (lat1 * toRad) (lon1 * toRad)
    (centralAngle lat1 lon1 lat2 lon2)
    (initialBearing (lat1 * toRad) (lat2 * toRad)
       (unwrapλ2 (lon1 * toRad) (lon2 * toRad) - lon1 * toRad)) n n =
  (lat2, if Req_dec_T (lon2 - lon1) (-180) then lon2 + 360
         else unwrappedLon lon1 lon2).
Proof.
  intros Hlat1 Hlat2 Hlon1 Hlon2 Hn.
  pose proof PI_RGT_0 as Hpi.
  pose proof (toRad_quarter_lt lat1 Hlat1) as Hφ1.
  pose proof (toRad_quarter_lt lat2 Hlat2) as Hφ2.
  pose proof (unwrapλ2_half_turn lon1 lon2 Hlon1 Hlon2) as Hturn.
  unfold geodesicPoint, centralAngle, acosArgument, initialBearing.
  assert (Hf : INR n / INR n = 1).
  { apply Rdiv_diag. apply not_0_INR. lia. }
  rewrite Hf, !Rmult_1_l.
  set (Δλ := unwrapλ2 (lon1 * toRad) (lon2 * toRad) - lon1 * toRad) in *.
  rewrite (last_latitude (lat1 * toRad) (lat2 * toRad) Δλ) by assumption.
  rewrite toRad_back. f_equal.
  destruct (Req_dec_T (lon2 - lon1) (-180)) as [Hback|Hback].
  - assert (HΔ : Δλ = - PI).
    { unfold Δλ. rewrite unwrapλ2_degrees. unfold unwrappedLon.
      destruct (Rgt_dec (Rabs (lon2 - lon1)) 180) as [Hc|Hc].
      - apply crosses_far in Hc. lra.
      - unfold toRad. replace lon2 with (lon1 - 180) by lra. field. }
    rewrite (last_longitude_back (lat1 * toRad) (lat2 * toRad) Δλ)
      by assumption.
    unfold toRad. replace lon2 with (lon1 - 180) by lra. field. lra.
  - assert (HΔ : - PI < Δλ <= PI).
    { split; [|lra]. destruct Hturn as [[Hlt|Heq] _]; [exact Hlt|].
      exfalso. apply Hback. unfold Δλ in Heq.
      rewrite unwrapλ2_degrees in Heq. unfold unwrappedLon in *.
      destruct (Rgt_dec (Rabs (lon2 - lon1)) 180) as [Hc|Hc].
      - apply crosses_far in Hc. unfold toRad in Heq.
        destruct (Rgt_dec (lon2 - lon1) 0); nra.
      - unfold toRad in Heq. nra. }
    rewrite (last_longitude (lat1 * toRad) (lat2 * toRad) Δλ)
      by assumption.
    unfold Δλ. rewrite unwrapλ2_degrees.
    replace (lon1 * toRad + (unwrappedLon lon1 lon2 * toRad - lon1 * toRad))
      with (unwrappedLon lon1 lon2 * toRad) by ring.
    apply toRad_back.
Qed.

(** ** A lower bound on the central angle *)

Lemma cos_milliradian : 0.9 < cos 0.001.
Proof.
  replace 0.001 with (2 * 0.0005) by lra. rewrite cos_2a_sin.
  assert (H : sin 0.0005 < 0.0005) by (apply sin_lt_x; lra).
  assert (H0 : 0 <= sin 0.0005).
  { apply sin_ge_0; [lra|]. pose proof PI2_1. lra. }
  nra.
Qed.

Lemma centralAngle_not_small (x : R) :
  x <= 0.9 -> ~ acos (clampUnit x) < 0.001.
Proof.
  intros Hx Hsmall.
  pose proof (clampUnit_range x) as Hr.
  pose proof (acos_bound (clampUnit x)) as Hb.
  assert (Hc : clampUnit x <= 0.9).
  { unfold clampUnit, Rmax, Rmin.
    destruct (Rle_dec 1 x); destruct (Rle_dec (-1) _); lra. }
  assert (H : cos 0.001 < cos (acos (clampUnit x))).
  { apply cos_decreasing_1; try lra. pose proof PI2_1. lra. }
  rewrite cos_acos in H by exact Hr.
  pose proof cos_milliradian. lra.
Qed.

(** ** Tokyo to Los Angeles *)

Lemma tokyo_unwrapped : unwrappedLon 139.7 (-118.2) = 241.8.
Proof.
  unfold unwrappedLon.
  destruct (Rgt_dec (Rabs (-118.2 - 139.7)) 180) as [H|H].
  - destruct (Rgt_dec (-118.2 - 139.7) 0); lra.
  - exfalso. apply H. apply (proj2 (crosses_far 139.7 (-118.2))). lra.
Qed.

Lemma tokyo_Δλ :
  unwrapλ2 (139.7 * toRad) (-118.2 * toRad) - 139.7 * toRad = 102.1 * toRad.
Proof. rewrite unwrapλ2_degrees, tokyo_unwrapped. lra. Qed.

Lemma tokyo_Δλ_range : PI / 2 < 102.1 * toRad < PI.
Proof. pose proof PI_RGT_0. unfold toRad. split; lra. Qed.

Lemma tokyo_not_degenerate : ~ centralAngle 35.7 139.7 34 (-118.2) < 0.001.
Proof.
  unfold centralAngle, acosArgument. rewrite tokyo_Δλ.
  apply centralAngle_not_small.
  pose proof PI_RGT_0 as Hpi. pose proof PI_4 as Hpi4.
  pose proof tokyo_Δλ_range as HΔ.
  assert (H1 : - (PI / 2) < 35.7 * toRad < PI / 2) by (apply toRad_quarter_lt; lra).
  assert (H2 : - (PI / 2) < 34 * toRad < PI / 2) by (apply toRad_quarter_lt; lra).
  assert (Hc1 : 0 < cos (35.7 * toRad)) by (apply cos_gt_0; lra).
  assert (Hc2 : 0 < cos (34 * toRad)) by (apply cos_gt_0; lra).
  assert (Hc : cos (102.1 * toRad) < 0) by (apply cos_lt_0; lra).
  assert (Hs1 : sin (35.7 * toRad) <= 1) by apply SIN_bound.
  assert (Hp2 : 0 < 34 * toRad) by (unfold toRad; nra).
  assert (Hs2 : sin (34 * toRad) < 34 * toRad) by (apply sin_lt_x; exact Hp2).
  assert (Hs2' : 0 <= sin (34 * toRad)) by (apply sin_ge_0; lra).
  assert (Hb : 34 * toRad <= 0.8) by (unfold toRad; lra).
  assert (Hprod : cos (35.7 * toRad) * cos (34 * toRad) * cos (102.1 * toRad) <= 0).
  { assert (0 < cos (35.7 * toRad) * cos (34 * toRad))
      by now apply Rmult_lt_0_compat.
    nra. }
  nra.
Qed.

Lemma tokyo_leaves_east :
  0 <= sin (initialBearing (35.7 * toRad) (34 * toRad)
              (unwrapλ2 (139.7 * toRad) (-118.2 * toRad) - 139.7 * toRad))
       * cos (35.7 * toRad).
Proof.
  rewrite tokyo_Δλ. pose proof PI_RGT_0 as Hpi.
  pose proof tokyo_Δλ_range as HΔ.
  assert (H1 : - (PI / 2) < 35.7 * toRad < PI / 2) by (apply toRad_quarter_lt; lra).
  assert (H2 : - (PI / 2) < 34 * toRad < PI / 2) by (apply toRad_quarter_lt; lra).
  apply Rmult_le_pos; [|left; apply cos_gt_0; lra].
  left. unfold initialBearing. apply atan2_sin_pos.
  apply Rmult_lt_0_compat; [apply sin_gt_0; lra | apply cos_gt_0; lra].
Qed.

Lemma lastElement_map_seq {A : Type} (f : nat -> A) (n : nat) :
  lastElement (map f (seq 0 (S n))) = Some (f n).
Proof.
  rewrite seq_S, map_app. simpl. apply lastElement_snoc.
Qed.

Lemma calculateGeodesicPoints_last (lat1 lon1 lat2 lon2 : R) (n : nat) :
  -90 < lat1 < 90 -> -90 < lat2 < 90 ->
  -180 <= lon1 <= 180 -> -180 <= lon2 <= 180 -> (1 <= n)%nat ->
  ~ centralAngle lat1 lon1 lat2 lon2 < 0.001 ->
  lastElement (calculateGeodesicPoints lat1 lon1 lat2 lon2 n) =
  Some (lat2, if Req_dec_T (lon2 - lon1) (-180) then lon2 + 360
              else unwrappedLon lon1 lon2).
Proof.
  intros H1 H2 H3 H4 Hn Hd.
  rewrite calculateGeodesicPoints_regular by exact Hd.
  rewrite lastElement_map_seq. f_equal. now apply geodesicPoint_last.
Qed.

Lemma calculateGeodesicPoints_first (lat1 lon1 lat2 lon2 : R) (n : nat) :
  -90 <= lat1 <= 90 ->
  ~ centralAngle lat1 lon1 lat2 lon2 < 0.001 ->
  hd_error (calculateGeodesicPoints lat1 lon1 lat2 lon2 n) = Some (lat1, lon1).
Proof.
  intros H1 Hd.
  rewrite calculateGeodesicPoints_regular by exact Hd.
  simpl. f_equal. now apply geodesicPoint_first.
Qed.

(** ** Paths that leave towards the west *)

Lemma atan2_nonpos (y x : R) :
  y <= 0 -> (y = 0 -> 0 <= x) -> - PI < atan2 y x <= 0.
Proof.
  intros Hy H0. pose proof PI_RGT_0 as Hpi.
  split; [apply atan2_bounds|].
  destruct Hy as [Hy|Hy].
  - pose proof (atan_bound (y / x)) as Hb. unfold atan2.
    destruct (Rlt_dec 0 x) as [Hx|Hx].
    + assert (y / x < 0).
      { unfold Rdiv. assert (0 < / x) by now apply Rinv_0_lt_compat. nra. }
      left. rewrite <- atan_0. now apply atan_increasing.
    + destruct (Rlt_dec x 0) as [Hx'|Hx'].
      * destruct (Rle_dec 0 y); lra.
      * destruct (Rlt_dec 0 y); [lra|]. destruct (Rlt_dec y 0); lra.
  - subst y. rewrite atan2_0_nonneg by now apply H0. lra.
Qed.

Lemma sin_zero_ends (σ : R) : 0 <= σ <= PI -> sin σ = 0 -> σ = 0 \/ σ = PI.
Proof.
  intros H Hs. destruct (Req_dec σ 0) as [E|E]; [now left|].
  destruct (Req_dec σ PI) as [E'|E']; [now right|].
  assert (0 < sin σ) by (apply sin_gt_0; lra). lra.
Qed.

(** At an angle of half a turn the bearing is [Math.atan2(0, 0)]. *)
Lemma antipodal_bearing (φ1 φ2 Δλ : R) :
  acos (clampUnit (sin φ1 * sin φ2 + cos φ1 * cos φ2 * cos Δλ)) = PI ->
  initialBearing φ1 φ2 Δλ = 0.
Proof.
  intros H. pose proof (unit_vector φ1 φ2 Δλ) as Hu. simpl in Hu.
  pose proof (cosine_sum_range φ1 φ2 Δλ) as Hr.
  rewrite clampUnit_id in H by exact Hr.
  apply (f_equal cos) in H. rewrite cos_acos, cos_PI in H by exact Hr.
  rewrite H in Hu.
  set (X := cos φ1 * sin φ2 - sin φ1 * cos φ2 * cos Δλ) in *.
  set (Y := sin Δλ * cos φ2) in *.
  assert (HX : X = 0) by nra. assert (HY : Y = 0) by nra.
  unfold initialBearing. fold X Y. rewrite HX, HY.
  apply atan2_0_nonneg. lra.
Qed.

Lemma geodesicPoint_lon_west (φ1 φ2 Δλ lon1 : R) (n i : nat) :
  (1 <= n)%nat -> (i <= n)%nat ->
  sin (initialBearing φ1 φ2 Δλ) * cos φ1 < 0 ->
  let Δσ := acos (clampUnit (sin φ1 * sin φ2 + cos φ1 * cos φ2 * cos Δλ)) in
  lon1 - 180 <=
    longitude (geodesicPoint φ1 (lon1 * toRad) Δσ (initialBearing φ1 φ2 Δλ) n i)
    <= lon1.
Proof.
  intros Hn Hi Hw Δσ.
  pose proof (fraction_range n i Hn Hi) as Hf.
  pose proof (acos_bound (clampUnit (sin φ1 * sin φ2 + cos φ1 * cos φ2 * cos Δλ)))
    as Hd. fold Δσ in Hd.
  pose proof PI_RGT_0 as Hpi.
  unfold geodesicPoint, longitude. simpl.
  set (f := INR i / INR n) in *. set (θ := initialBearing φ1 φ2 Δλ) in *.
  assert (Hσ : 0 <= f * Δσ <= PI) by nra.
  assert (Hs : 0 <= sin (f * Δσ)) by (apply sin_ge_0; lra).
  match goal with |- context [atan2 ?y ?x] =>
    assert (Hb : - PI < atan2 y x <= 0); [|set (a := atan2 y x) in *] end.
  { apply atan2_nonpos.
    - replace (sin θ * sin (f * Δσ) * cos φ1)
        with (sin θ * cos φ1 * sin (f * Δσ)) by ring. nra.
    - intros Hy.
      assert (Hz : sin (f * Δσ) = 0).
      { replace (sin θ * sin (f * Δσ) * cos φ1)
          with (sin θ * cos φ1 * sin (f * Δσ)) in Hy by ring. nra. }
      destruct (sin_zero_ends _ Hσ Hz) as [E|E].
      + rewrite E, sin_0, cos_0.
        replace (sin φ1 * 1 + cos φ1 * 0 * cos θ) with (sin φ1) by ring.
        rewrite sin_asin by apply SIN_bound.
        pose proof (sin2_cos2 φ1) as H. unfold Rsqr in H.
        pose proof (Rle_0_sqr (cos φ1)) as Hc. unfold Rsqr in Hc. lra.
      + assert (HΔ : Δσ = PI) by nra.
        exfalso. unfold θ in Hw. rewrite (antipodal_bearing φ1 φ2 Δλ HΔ) in Hw.
        rewrite sin_0 in Hw. lra. }
  replace ((lon1 * toRad + a) * 180 / PI) with (lon1 + a * (180 / PI))
    by (unfold toRad; field; lra).
  assert (Hk : 0 < 180 / PI) by (apply Rdiv_lt_0_compat; lra).
  assert (E : PI * (180 / PI) = 180) by (field; lra).
  split; nra.
Qed.

(** The splitter never finds a crossing in an interpolated path: its
    longitudes stay on one side of [lon1], within 180 degrees. *)
Lemma interpolated_path_noJump (lat1 lon1 lat2 lon2 : R) (n : nat) :
  (1 <= n)%nat ->
  ~ centralAngle lat1 lon1 lat2 lon2 < 0.001 ->
  noJump (calculateGeodesicPoints lat1 lon1 lat2 lon2 n).
Proof.
  intros Hn Hd.
  set (θ := initialBearing (lat1 * toRad) (lat2 * toRad)
              (unwrapλ2 (lon1 * toRad) (lon2 * toRad) - lon1 * toRad)).
  destruct (Rle_dec 0 (sin θ * cos (lat1 * toRad))) as [He|Hw].
  - apply (window_noJump lon1).
    now apply calculateGeodesicPoints_east_window.
  - apply (window_noJump (lon1 - 180)).
    rewrite calculateGeodesicPoints_regular by exact Hd.
    apply Forall_forall. intros p Hp. apply in_map_iff in Hp as (i & <- & Hi).
    apply in_seq in Hi.
    replace (lon1 - 180 + 180) with lon1 by ring.
    apply geodesicPoint_lon_west; [exact Hn | lia | fold θ; lra].
Qed.

Lemma interpolated_path_single_segment (lat1 lon1 lat2 lon2 : R) (n : nat) :
  (1 <= n)%nat ->
  ~ centralAngle lat1 lon1 lat2 lon2 < 0.001 ->
  splitAtAntimeridian (calculateGeodesicPoints lat1 lon1 lat2 lon2 n) =
  [calculateGeodesicPoints lat1 lon1 lat2 lon2 n].
Proof.
  intros Hn Hd. apply split_noJump_single.
  - intros E. apply (f_equal (@length point)) in E.
    rewrite calculateGeodesicPoints_length in E by exact Hd. discriminate.
  - now apply interpolated_path_noJump.
Qed.

(** ** Longitudes after splitting *)

Lemma midLonAt_range (prevLon : R) : -180 <= midLonAt prevLon <= 180.
Proof. unfold midLonAt. destruct (Rgt_dec prevLon 0); lra. Qed.

Lemma otherLonAt_range (prevLon : R) : -180 <= otherLonAt prevLon <= 180.
Proof. unfold otherLonAt. destruct (Rgt_dec prevLon 0); lra. Qed.

Lemma splitStep_range (st : splitState) (p : point) :
  Forall (Forall lonInRange) (segments st) ->
  Forall lonInRange (currentSegment st) -> lonInRange p ->
  Forall (Forall lonInRange) (segments (splitStep st p)) /\
  Forall lonInRange (currentSegment (splitStep st p)).
Proof.
  destruct st as [segs cur]. simpl. intros Hsegs Hcur Hp.
  destruct cur as [|q cur _] using rev_ind.
  - rewrite splitStep_empty. simpl. split; [exact Hsegs | now constructor].
  - destruct (crosses_dec (longitude q) (longitude p)) as [c|c].
    + rewrite splitStep_cross by exact c. simpl. split.
      * apply Forall_app. split; [exact Hsegs|]. constructor; [|constructor].
        apply Forall_app. split; [exact Hcur|]. constructor; [|constructor].
        apply midLonAt_range.
      * constructor; [apply otherLonAt_range|]. now constructor.
    + rewrite splitStep_push by exact c. simpl. split; [exact Hsegs|].
      apply Forall_app. split; [exact Hcur | now constructor].
Qed.

Lemma split_range (points : list point) :
  Forall lonInRange points ->
  Forall (Forall lonInRange) (splitAtAntimeridian points).
Proof.
  intros H.
  assert (Hloop : Forall (Forall lonInRange) (segments (splitLoop points)) /\
                  Forall lonInRange (currentSegment (splitLoop points))).
  { induction points as [|p points IH] using rev_ind.
    - split; constructor.
    - apply Forall_app in H as [Hpts Hp]. rewrite splitLoop_snoc.
      destruct (IH Hpts) as [H1 H2].
      apply splitStep_range; [exact H1 | exact H2 | now inversion Hp]. }
  destruct Hloop as [H1 H2]. unfold splitAtAntimeridian, finish.
  destruct (currentSegment (splitLoop points)) eqn:E; [exact H1|].
  apply Forall_app. split; [exact H1 | now constructor].
Qed.

(** ** The normalisation loops of [GeodesicLine] *)

Lemma whileAbove_exit (fuel : nat) (lon : R) :
  lon <= 180 + 360 * INR fuel ->
  GeodesicLine.whileAbove fuel lon <= 180 /\
  (-180 <= lon -> -180 <= GeodesicLine.whileAbove fuel lon) /\
  (lon <= 180 -> GeodesicLine.whileAbove fuel lon = lon).
Proof.
  revert lon. induction fuel as [|k IH]; intros lon H.
  - simpl in *. repeat split; try lra.
  - rewrite S_INR in H. simpl.
    destruct (Rgt_dec lon 180) as [Hg|Hg].
    + destruct (IH (lon - 360)) as (H1 & H2 & H3); [lra|].
      split; [exact H1|]. split; [|lra].
      intros _. destruct (Rle_dec (lon - 360) 180) as [Hl|Hl].
      * rewrite H3 by exact Hl. lra.
      * apply H2. lra.
    + repeat split; lra.
Qed.

Lemma whileBelow_exit (fuel : nat) (lon : R) :
  -180 - 360 * INR fuel <= lon ->
  -180 <= GeodesicLine.whileBelow fuel lon /\
  (lon <= 180 -> GeodesicLine.whileBelow fuel lon <= 180) /\
  (-180 <= lon -> GeodesicLine.whileBelow fuel lon = lon).
Proof.
  revert lon. induction fuel as [|k IH]; intros lon H.
  - simpl in *. repeat split; try lra.
  - rewrite S_INR in H. simpl.
    destruct (Rlt_dec lon (-180)) as [Hg|Hg].
    + destruct (IH (lon + 360)) as (H1 & H2 & H3); [lra|].
      split; [exact H1|]. split; [|lra].
      intros _. destruct (Rle_dec (-180) (lon + 360)) as [Hl|Hl].
      * rewrite H3 by exact Hl. lra.
      * apply H2. lra.
    + repeat split; lra.
Qed.

Lemma loopFuel_enough (lon : R) : Rabs lon < 360 * INR (GeodesicLine.loopFuel lon).
Proof.
  unfold GeodesicLine.loopFuel.
  pose proof (archimed (Rabs lon / 360)) as [Hup _].
  pose proof (Rabs_pos lon) as Habs.
  assert (Hq : 0 <= Rabs lon / 360) by (apply Rle_mult_inv_pos; lra).
  assert (Hz : (0 <= up (Rabs lon / 360))%Z).
  { apply le_IZR. lra. }
  rewrite INR_IZR_INZ, Z2Nat.id by exact Hz.
  apply Rmult_lt_reg_r with (/ 360); [lra|].
  replace (360 * IZR (up (Rabs lon / 360)) * / 360)
    with (IZR (up (Rabs lon / 360))) by field.
  exact Hup.
Qed.

(** The fuel given to the two loops lets both reach their exit test. *)
Lemma normalizeLon_range (lon : R) : -180 <= GeodesicLine.normalizeLon lon <= 180.
Proof.
  unfold GeodesicLine.normalizeLon.
  pose proof (loopFuel_enough lon) as Hf.
  destruct (whileAbove_exit (GeodesicLine.loopFuel lon) lon) as (H1 & H2 & H3).
  { unfold Rabs in Hf. destruct (Rcase_abs lon); lra. }
  set (lon' := GeodesicLine.whileAbove (GeodesicLine.loopFuel lon) lon) in *.
  pose proof (loopFuel_enough lon') as Hf'.
  destruct (whileBelow_exit (GeodesicLine.loopFuel lon') lon') as (H4 & H5 & H6).
  { unfold Rabs in Hf'. destruct (Rcase_abs lon'); lra. }
  split; [exact H4 | now apply H5].
Qed.

Lemma normalizeLon_id (lon : R) :
  -180 <= lon <= 180 -> GeodesicLine.normalizeLon lon = lon.
Proof.
  intros H. unfold GeodesicLine.normalizeLon.
  assert (E : forall fuel, GeodesicLine.whileAbove fuel lon = lon).
  { intros [|k]; simpl; [reflexivity|]. destruct (Rgt_dec lon 180); [lra|reflexivity]. }
  rewrite E.
  destruct (GeodesicLine.loopFuel lon); simpl; [reflexivity|].
  destruct (Rlt_dec lon (-180)); [lra | reflexivity].
Qed.

Lemma calculateGreatCircle_range (lat1 lon1 lat2 lon2 : R) (n : nat) :
  -180 <= lon1 <= 180 -> -180 <= lon2 <= 180 ->
  Forall lonInRange (GeodesicLine.calculateGreatCircle lat1 lon1 lat2 lon2 n).
Proof.
  intros H1 H2. unfold GeodesicLine.calculateGreatCircle.
  assert (Hends : Forall lonInRange [(lat1, lon1); (lat2, lon2)]).
  { constructor; [exact H1|]. constructor; [exact H2 | constructor]. }
  destruct (Math_acos _) as [Δσ|]; [|exact Hends].
  destruct (Rlt_dec Δσ 0.001); [exact Hends|].
  apply Forall_forall. intros p Hp. apply in_map_iff in Hp as (i & <- & _).
  unfold GeodesicLine.greatCirclePoint. apply normalizeLon_range.
Qed.

(** ** Two points where [n + 1] are claimed *)

Lemma centralAngle_10_10 : centralAngle 10 10 10 10 < 0.001.
Proof. rewrite centralAngle_same. lra. Qed.

(** C6, as stated, fails in the degenerate case: a point interpolated with
    itself at resolution 30 gives 2 points, not 31. *)
Lemma interpolate_two_points : ~ interpolateClaim (10, 10) (10, 10) 30.
Proof.
  unfold interpolateClaim. simpl.
  rewrite calculateGeodesicPoints_degenerate by apply centralAngle_10_10.
  simpl. intros (H & _). discriminate.
Qed.

(** The last point keeps the unwrapped longitude: from Tokyo to Los Angeles
    it is 241.8, not -118.2. *)
Lemma interpolate_last_unwrapped :
  lastElement (calculateGeodesicPoints 35.7 139.7 34 (-118.2) 100) =
  Some (34, 241.8).
Proof.
  rewrite calculateGeodesicPoints_last;
    try lra; try lia; try apply tokyo_not_degenerate.
  destruct (Req_dec_T (-118.2 - 139.7) (-180)); [lra|].
  now rewrite tokyo_unwrapped.
Qed.

(** ** A rendered longitude beyond 180 *)

Lemma tokyo_segments :
  renderedSegments tokyo losAngeles =
  [calculateGeodesicPoints 35.7 139.7 34 (-118.2) 100].
Proof.
  unfold renderedSegments, tokyo, losAngeles, latitude, longitude. simpl.
  apply interpolated_path_single_segment; [lia | apply tokyo_not_degenerate].
Qed.

Lemma Forall_lastElement {A : Type} (P : A -> Prop) (l : list A) (x : A) :
  Forall P l -> lastElement l = Some x -> P x.
Proof.
  intros H E. apply lastElement_some in E as [front ->].
  apply Forall_app in H as [_ H]. now inversion H.
Qed.

(** C4, as stated, fails on a path that is unwrapped eastwards: from Tokyo
    to Los Angeles the path handed to the renderer ends at longitude 241.8. *)
Lemma rendered_longitude_beyond_180 :
  ~ Forall (Forall lonInRange) (renderedSegments tokyo losAngeles).
Proof.
  rewrite tokyo_segments. intros H. inversion H as [|s l Hs _]; subst.
  pose proof (Forall_lastElement _ _ _ Hs interpolate_last_unwrapped) as Hl.
  unfold lonInRange, longitude in Hl. simpl in Hl. lra.
Qed.

(** ** Tokyo to Los Angeles, end to end *)

(** C1, as stated, fails: the path is not split. *)
Lemma tokyo_not_split : ~ tokyoClaim.
Proof.
  intros (_ & _ & H & _). rewrite tokyo_segments in H. simpl in H. lia.
Qed.

Lemma createFlightPath_far (lat1 lon1 lat2 lon2 : R) :
  crosses lon1 lon2 ->
  GeodesicLine.createFlightPath (lat1, lon1) (lat2, lon2) =
  GeodesicLine.splitAtAntimeridian
    (GeodesicLine.calculateGreatCircle lat1 lon1 lat2 lon2 100).
Proof.
  intros H. unfold GeodesicLine.createFlightPath.
  destruct (Rgt_dec (Rabs (lon2 - lon1)) 180); [reflexivity | contradiction].
Qed.

Lemma createFlightPath_near (lat1 lon1 lat2 lon2 : R) :
  ~ crosses lon1 lon2 ->
  GeodesicLine.createFlightPath (lat1, lon1) (lat2, lon2) =
  GeodesicLine.calculateGreatCircle lat1 lon1 lat2 lon2 30.
Proof.
  intros H. unfold GeodesicLine.createFlightPath.
  destruct (Rgt_dec (Rabs (lon2 - lon1)) 180); [contradiction | reflexivity].
Qed.

Lemma createInfiniteGeodesicLine_layers (origin dest : point)
  (options : lineOptions) :
  createInfiniteGeodesicLine origin dest options =
  forEachSegment options 0 (renderedSegments origin dest).
Proof. destruct origin, dest. reflexivity. Qed.

(** C1, amended.  From Tokyo (35.7, 139.7) to Los Angeles (34.0, -118.2)
    both builders interpolate at resolution 100, and the wrap goes east, a
    longitude difference of +102.1 degrees; the 101 interpolated points of
    the dashboard run from (35.7, 139.7) to (34, 241.8) with every longitude
    between 139.7 and 319.7, no two neighbours are more than 180 apart, and
    splitting returns exactly one segment, the interpolated path itself,
    with no point inserted: the five polylines drawn are its five copies. *)
Theorem tokyo_path_one_segment :
  GeodesicLine.createFlightPath tokyo losAngeles =
    GeodesicLine.splitAtAntimeridian
      (GeodesicLine.calculateGreatCircle 35.7 139.7 34 (-118.2) 100) /\
  unwrapλ2 (139.7 * toRad) (-118.2 * toRad) - 139.7 * toRad = 102.1 * toRad /\
  length tokyoPath = 101%nat /\
  hd_error tokyoPath = Some (35.7, 139.7) /\
  lastElement tokyoPath = Some (34, 241.8) /\
  Forall (fun p => 139.7 <= longitude p <= 139.7 + 180) tokyoPath /\
  noJump tokyoPath /\
  renderedSegments tokyo losAngeles = [tokyoPath] /\
  forall options,
    createInfiniteGeodesicLine tokyo losAngeles options =
    map (lineCopy options 0 tokyoPath) worldOffsets.
Proof.
  split; [apply createFlightPath_far, crosses_far; lra|].
  split; [apply tokyo_Δλ|].
  split; [apply calculateGeodesicPoints_length, tokyo_not_degenerate|].
  split; [apply calculateGeodesicPoints_first;
          [lra | apply tokyo_not_degenerate]|].
  split; [apply interpolate_last_unwrapped|].
  split; [apply calculateGeodesicPoints_east_window;
          [lia | apply tokyo_not_degenerate | apply tokyo_leaves_east]|].
  split; [apply interpolated_path_noJump; [lia | apply tokyo_not_degenerate]|].
  split; [apply tokyo_segments|].
  intros options. rewrite createInfiniteGeodesicLine_layers, tokyo_segments.
  reflexivity.
Qed.

(** ** World copies *)

Lemma worldOffsets_values : worldOffsets = [-720; -360; 0; 360; 720]%Z.
Proof. reflexivity. Qed.

(** More fuel changes nothing: the loop has left by its exit test. *)
Lemma worldOffsets_fuel (extra : nat) :
  offsetsFrom (6 + extra) (-720) = worldOffsets.
Proof. reflexivity. Qed.

Lemma lineCopy_latlngs (options : lineOptions) (j : nat) (seg : list point)
  (offset : Z) :
  latlngs (lineCopy options j seg offset) =
  map (fun p => (latitude p, longitude p + IZR offset)) seg.
Proof. reflexivity. Qed.

Lemma forEachSegment_length (options : lineOptions) (idx : nat)
  (segs : list (list point)) :
  length (forEachSegment options idx segs) = (5 * length segs)%nat.
Proof.
  revert idx. induction segs as [|seg rest IH]; intros idx; [reflexivity|].
  cbn [forEachSegment]. rewrite length_app, length_map, IH.
  rewrite worldOffsets_values. simpl length. lia.
Qed.

Lemma forEachSegment_nth (options : lineOptions) (segs : list (list point)) :
  forall (idx j k : nat) (seg : list point),
  nth_error segs j = Some seg -> (k < 5)%nat ->
  nth_error (forEachSegment options idx segs) (5 * j + k) =
  Some (lineCopy options (idx + j) seg (nth k worldOffsets 0%Z)).
Proof.
  induction segs as [|s rest IH]; intros idx j k seg Hj Hk.
  - destruct j; discriminate.
  - cbn [forEachSegment]. destruct j as [|j].
    + injection Hj as ->. rewrite Nat.add_0_r. simpl (5 * 0 + k)%nat.
      rewrite nth_error_app1 by (rewrite length_map; simpl; lia).
      rewrite (nth_error_map (lineCopy options idx seg)).
      rewrite (nth_error_nth' worldOffsets 0%Z) by (simpl; lia).
      reflexivity.
    + rewrite nth_error_app2 by (rewrite length_map; simpl; lia).
      rewrite length_map. simpl length.
      replace (5 * S j + k - 5)%nat with (5 * j + k)%nat by lia.
      rewrite (IH (S idx) j k seg Hj Hk). do 2 f_equal. lia.
Qed.

Lemma forEachSegment_later_passive (options : lineOptions) (idx : nat)
  (segs : list (list point)) :
  interactiveCount (forEachSegment options (S idx) segs) = 0%nat.
Proof.
  unfold interactiveCount. revert idx.
  induction segs as [|seg rest IH]; intros idx; [reflexivity|].
  cbn [forEachSegment]. rewrite filter_app, length_app, IH. reflexivity.
Qed.

Lemma forEachSegment_one_primary (options : lineOptions)
  (seg : list point) (rest : list (list point)) :
  interactiveCount (forEachSegment options 0 (seg :: rest)) = 1%nat.
Proof.
  pose proof (forEachSegment_later_passive options 0 rest) as H.
  unfold interactiveCount in *. cbn [forEachSegment].
  rewrite filter_app, length_app, H. reflexivity.
Qed.

Lemma calculateGeodesicPoints_nonempty (lat1 lon1 lat2 lon2 : R) (n : nat) :
  calculateGeodesicPoints lat1 lon1 lat2 lon2 n <> [].
Proof.
  unfold calculateGeodesicPoints.
  destruct (Rlt_dec _ 0.001); [discriminate|]. simpl. discriminate.
Qed.

Lemma split_nonempty (points : list point) :
  points <> [] -> splitAtAntimeridian points <> [].
Proof.
  intros H. destruct points as [|p points _] using rev_ind; [now elim H|].
  pose proof (splitLoop_last points p) as Hl.
  unfold splitAtAntimeridian, finish.
  destruct (currentSegment (splitLoop (points ++ [p]))); [discriminate|].
  now destruct (segments (splitLoop (points ++ [p]))).
Qed.

Lemma renderedSegments_nonempty (origin dest : point) :
  renderedSegments origin dest <> [].
Proof. apply split_nonempty, calculateGeodesicPoints_nonempty. Qed.

(** C5.  The offsets are -720, -360, 0, 360, 720.  Every segment of the
    split path is drawn five times, in the order of the offsets, each copy
    with every longitude shifted by the offset and every latitude kept, and
    of all the copies exactly one is interactive: the copy at offset 0 of
    the first segment.  A marker is drawn five times in the same way, and
    only its copy at offset 0 is interactive. *)
Theorem world_copies (origin dest latlng : point) (options : lineOptions)
  (markerOpts : markerOptions) (popupText : string) :
  let segs := renderedSegments origin dest in
  let layers := createInfiniteGeodesicLine origin dest options in
  let markers := createInfiniteMarker latlng markerOpts popupText in
  worldOffsets = [-720; -360; 0; 360; 720]%Z /\
  length layers = (5 * length segs)%nat /\
  (forall j k seg, nth_error segs j = Some seg -> (k < 5)%nat ->
     exists layer, nth_error layers (5 * j + k) = Some layer /\
       latlngs layer =
         map (fun p => (latitude p,
                        longitude p + IZR (nth k worldOffsets 0%Z))) seg /\
       interactive layer = ((j =? 0)%nat && (k =? 2)%nat)) /\
  interactiveCount layers = 1%nat /\
  length markers = 5%nat /\
  (forall k, (k < 5)%nat ->
     exists marker, nth_error markers k = Some marker /\
       position marker =
         (latitude latlng, longitude latlng + IZR (nth k worldOffsets 0%Z)) /\
       markerInteractive marker = (k =? 2)%nat) /\
  interactiveMarkers markers = 1%nat.
Proof.
  destruct latlng as [la lo]. intros segs layers markers. unfold layers.
  rewrite createInfiniteGeodesicLine_layers. fold segs.
  split; [reflexivity|].
  split; [apply forEachSegment_length|].
  split.
  { intros j k seg Hj Hk. eexists. split.
    - exact (forEachSegment_nth options segs 0 j k seg Hj Hk).
    - split; [apply lineCopy_latlngs|].
      unfold lineCopy, isPrimary. simpl interactive.
      do 5 (destruct k as [|k]; [now destruct j|]). lia. }
  split.
  { pose proof (renderedSegments_nonempty origin dest) as Hne. fold segs in Hne.
    destruct segs as [|seg rest]; [now elim Hne|].
    apply forEachSegment_one_primary. }
  split; [reflexivity|].
  split; [|reflexivity].
  intros k Hk.
  do 5 (destruct k as [|k]; [eexists; split; [reflexivity|]; split; reflexivity|]).
  lia.
Qed.

(** ** A longitude of 400 *)

Lemma midLatAt_level (prevLon lon : R) : midLatAt 0 prevLon 0 lon = 0.
Proof. unfold midLatAt. ring. Qed.

(** A longitude of 400 goes through the interpolator and the splitter. *)
Lemma malformed_segments :
  renderedSegments (0, 400) (0, 40) =
  [[(0, 400); (0, 179.999)]; [(0, -179.999); (0, 40)]].
Proof.
  assert (Hd : centralAngle 0 400 0 40 < 0.001).
  { unfold centralAngle, acosArgument.
    rewrite unwrapλ2_degrees. unfold unwrappedLon.
    destruct (Rgt_dec (Rabs (40 - 400)) 180) as [H|H].
    - destruct (Rgt_dec (40 - 400) 0); [lra|].
      replace ((40 + 360) * toRad - 400 * toRad) with 0 by ring.
      rewrite cosine_sum_same, clampUnit_id, acos_1 by lra. lra.
    - exfalso. apply H. apply (proj2 (crosses_far 400 40)). lra. }
  unfold renderedSegments, latitude, longitude. simpl fst. simpl snd.
  rewrite calculateGeodesicPoints_degenerate by exact Hd.
  unfold splitAtAntimeridian.
  change (splitLoop [(0, 400); (0, 40)])
    with (splitStep (mkSplit [] ([] ++ [(0, 400)])) (0, 40)).
  rewrite splitStep_cross by (apply crosses_far; simpl; lra).
  simpl. rewrite midLatAt_level. unfold midLonAt, otherLonAt.
  destruct (Rgt_dec 400 0); [reflexivity | lra].
Qed.

Lemma malformed_trip_layers :
  length (createInfiniteGeodesicLine (0, 400) (0, 40) plainOptions) = 10%nat.
Proof.
  rewrite createInfiniteGeodesicLine_layers, forEachSegment_length.
  now rewrite malformed_segments.
Qed.

(** ** The splitter of [GeodesicLine] *)

Lemma greatCircle_splitLoop_snoc (points : list point) (p : point) :
  GeodesicLine.splitLoop (points ++ [p]) =
  GeodesicLine.splitStep (GeodesicLine.splitLoop points) p.
Proof. apply fold_left_snoc. Qed.

Lemma greatCircle_splitStep_last (st : GeodesicLine.splitState) (p : point) :
  lastElement (GeodesicLine.currentSegment (GeodesicLine.splitStep st p)) =
  Some p.
Proof.
  destruct st as [res cur], p as [la lo]. unfold GeodesicLine.splitStep. simpl.
  destruct (lastElement cur) as [[pla plo]|].
  - destruct (crosses_dec plo lo); simpl.
    + reflexivity.
    + apply lastElement_snoc.
  - apply lastElement_snoc.
Qed.

Lemma concat_snoc_nonempty {A : Type} (l : list (list A)) (s : list A) :
  s <> [] -> concat (l ++ [s]) <> [].
Proof.
  intros H. rewrite concat_app. simpl. rewrite app_nil_r.
  intros E. apply app_eq_nil in E as [_ E]. contradiction.
Qed.

Lemma greatCircle_split_nonempty (points : list point) :
  points <> [] -> GeodesicLine.splitAtAntimeridian points <> [].
Proof.
  intros H. destruct points as [|p points _] using rev_ind; [now elim H|].
  unfold GeodesicLine.splitAtAntimeridian. rewrite greatCircle_splitLoop_snoc.
  pose proof (greatCircle_splitStep_last (GeodesicLine.splitLoop points) p) as Hl.
  destruct (GeodesicLine.splitStep (GeodesicLine.splitLoop points) p) as [res cur].
  unfold GeodesicLine.finish. simpl in *.
  destruct cur as [|q cur]; [discriminate|].
  destruct res as [|s res]; [discriminate|].
  destruct res as [|s' res].
  - simpl. rewrite app_nil_r. intros E. apply app_eq_nil in E as [_ E].
    discriminate.
  - apply (concat_snoc_nonempty (s :: s' :: res)). discriminate.
Qed.

Lemma calculateGreatCircle_nonempty (lat1 lon1 lat2 lon2 : R) (n : nat) :
  GeodesicLine.calculateGreatCircle lat1 lon1 lat2 lon2 n <> [].
Proof.
  unfold GeodesicLine.calculateGreatCircle.
  destruct (Math_acos _); [|discriminate].
  destruct (Rlt_dec _ 0.001); [discriminate|]. simpl. discriminate.
Qed.

(** With two points before a crossing, [result[currentSegment.length - 1]]
    is [result[1]], which does not exist: the crossing point is not added,
    and [flat()] joins the two segments into one list with the jump in it. *)
Lemma greatCircle_split_flattens :
  GeodesicLine.splitAtAntimeridian [(0, 160); (0, 170); (0, -170)] =
  [(0, 160); (0, 170); (0, - 180); (0, -170)].
Proof.
  unfold GeodesicLine.splitAtAntimeridian, GeodesicLine.splitLoop. simpl.
  destruct (crosses_dec 160 170) as [c|_].
  { apply crosses_far in c. lra. }
  simpl. destruct (crosses_dec 170 (-170)) as [_|c].
  - simpl. rewrite midLatAt_level.
    destruct (Rgt_dec 170 0); [reflexivity | lra].
  - exfalso. apply c. apply crosses_far. lra.
Qed.

(** With one point before the crossing the index happens to be right. *)
Lemma greatCircle_split_one_before :
  GeodesicLine.splitAtAntimeridian [(0, 170); (0, -170)] =
  [(0, 170); (0, 180); (0, - 180); (0, -170)].
Proof.
  unfold GeodesicLine.splitAtAntimeridian, GeodesicLine.splitLoop. simpl.
  destruct (crosses_dec 170 (-170)) as [_|c].
  - simpl. rewrite midLatAt_level.
    destruct (Rgt_dec 170 0); [reflexivity | lra].
  - exfalso. apply c. apply crosses_far. lra.
Qed.

(** ** The end points of the path of [GeodesicLine] *)

Lemma degrees_back (x : R) : x * PI / 180 * 180 / PI = x.
Proof. field. apply PI_neq0. Qed.

Lemma sqrt_cos_sq (φ λ : R) :
  0 <= cos φ ->
  sqrt (cos φ * cos λ * (cos φ * cos λ) + cos φ * sin λ * (cos φ * sin λ)) =
  cos φ.
Proof.
  intros H. pose proof (sin2_cos2 λ) as Hs. unfold Rsqr in Hs.
  replace (cos φ * cos λ * (cos φ * cos λ) + cos φ * sin λ * (cos φ * sin λ))
    with (cos φ * cos φ * (sin λ * sin λ + cos λ * cos λ)) by ring.
  rewrite Hs, Rmult_1_r. now apply sqrt_square.
Qed.

(** The point of the sphere with angles [φ], [λ], converted back. *)
Lemma unit_vector_angles (φ λ : R) :
  - (PI / 2) < φ < PI / 2 -> - PI < λ <= PI ->
  let x := cos φ * cos λ in
  let y := cos φ * sin λ in
  let z := sin φ in
  atan2 z (sqrt (x * x + y * y)) = φ /\ atan2 y x = λ.
Proof.
  intros Hφ Hλ x y z. unfold x, y, z. pose proof PI_RGT_0 as Hpi.
  assert (Hc : 0 < cos φ) by (apply cos_gt_0; lra).
  rewrite sqrt_cos_sq by lra. split.
  - rewrite <- (Rmult_1_l (sin φ)), <- (Rmult_1_l (cos φ)).
    apply atan2_polar; lra.
  - now apply atan2_polar.
Qed.

Lemma greatCirclePoint_first (lat1 lon1 φ2 λ2 Δσ : R) (n : nat) :
  -90 < lat1 < 90 -> -180 < lon1 <= 180 -> sin Δσ <> 0 ->
  GeodesicLine.greatCirclePoint (lat1 * PI / 180) (lon1 * PI / 180) φ2 λ2 Δσ n 0
  = (lat1, lon1).
Proof.
  intros Hlat Hlon Hs. pose proof PI_RGT_0 as Hpi.
  unfold GeodesicLine.greatCirclePoint. simpl INR.
  replace (0 / INR n) with 0 by (unfold Rdiv; ring).
  replace ((1 - 0) * Δσ) with Δσ by ring.
  rewrite Rmult_0_l, sin_0.
  replace (sin Δσ / sin Δσ) with 1 by (field; exact Hs).
  replace (0 / sin Δσ) with 0 by (unfold Rdiv; ring).
  set (φ1 := lat1 * PI / 180). set (λ1 := lon1 * PI / 180).
  replace (1 * cos φ1 * cos λ1 + 0 * cos φ2 * cos λ2) with (cos φ1 * cos λ1)
    by ring.
  replace (1 * cos φ1 * sin λ1 + 0 * cos φ2 * sin λ2) with (cos φ1 * sin λ1)
    by ring.
  replace (1 * sin φ1 + 0 * sin φ2) with (sin φ1) by ring.
  destruct (unit_vector_angles φ1 λ1) as [-> ->].
  - unfold φ1; split; nra.
  - unfold λ1; split; nra.
  - unfold φ1, λ1. rewrite !degrees_back, normalizeLon_id by lra. reflexivity.
Qed.

Lemma greatCirclePoint_last (φ1 λ1 lat2 lon2 Δσ : R) (n : nat) :
  -90 < lat2 < 90 -> -180 < lon2 <= 180 -> sin Δσ <> 0 -> (1 <= n)%nat ->
  GeodesicLine.greatCirclePoint φ1 λ1 (lat2 * PI / 180) (lon2 * PI / 180) Δσ n n
  = (lat2, lon2).
Proof.
  intros Hlat Hlon Hs Hn. pose proof PI_RGT_0 as Hpi.
  unfold GeodesicLine.greatCirclePoint.
  replace (INR n / INR n) with 1 by (symmetry; apply Rdiv_diag, not_0_INR; lia).
  replace ((1 - 1) * Δσ) with 0 by ring.
  rewrite Rmult_1_l, sin_0.
  replace (sin Δσ / sin Δσ) with 1 by (field; exact Hs).
  replace (0 / sin Δσ) with 0 by (unfold Rdiv; ring).
  set (φ2 := lat2 * PI / 180). set (λ2 := lon2 * PI / 180).
  replace (0 * cos φ1 * cos λ1 + 1 * cos φ2 * cos λ2) with (cos φ2 * cos λ2)
    by ring.
  replace (0 * cos φ1 * sin λ1 + 1 * cos φ2 * sin λ2) with (cos φ2 * sin λ2)
    by ring.
  replace (0 * sin φ1 + 1 * sin φ2) with (sin φ2) by ring.
  destruct (unit_vector_angles φ2 λ2) as [-> ->].
  - unfold φ2; split; nra.
  - unfold λ2; split; nra.
  - unfold φ2, λ2. rewrite !degrees_back, normalizeLon_id by lra. reflexivity.
Qed.

Lemma calculateGreatCircle_regular (lat1 lon1 lat2 lon2 Δσ : R) (n : nat) :
  Math_acos (GeodesicLine.acosArgument lat1 lon1 lat2 lon2) = Some Δσ ->
  ~ Δσ < 0.001 ->
  GeodesicLine.calculateGreatCircle lat1 lon1 lat2 lon2 n =
  map (GeodesicLine.greatCirclePoint (lat1 * PI / 180) (lon1 * PI / 180)
         (lat2 * PI / 180) (lon2 * PI / 180) Δσ n) (seq 0 (S n)).
Proof.
  intros H Hd. unfold GeodesicLine.calculateGreatCircle. rewrite H.
  destruct (Rlt_dec Δσ 0.001); [contradiction | reflexivity].
Qed.

(** In exact arithmetic the cosine sum is in the domain of [Math.acos]
    without a clamp: the [isNaN] test of [GeodesicLine] never fires. *)
Lemma greatCircle_acos_defined (lat1 lon1 lat2 lon2 : R) :
  Math_acos (GeodesicLine.acosArgument lat1 lon1 lat2 lon2) =
  Some (acos (GeodesicLine.acosArgument lat1 lon1 lat2 lon2)).
Proof. apply Math_acos_in_domain, greatCircle_acosArgument_range. Qed.

(** ** The theorems with premises, at concrete inputs *)

Lemma in_range_170 : Forall lonInRange [(0, 170); (0, -170)].
Proof.
  constructor; [|constructor; [|constructor]];
    unfold lonInRange, longitude; simpl; lra.
Qed.

Lemma noJump_10_20 : noJump [(0, 10); (0, 20)].
Proof.
  simpl. split; [|tauto]. apply not_crosses_near.
  unfold longitude. simpl. lra.
Qed.

Lemma split_reconstructs_and_bounds_witness :
  Forall noJump (splitAtAntimeridian [(0, 170); (0, -170)]) /\
  splitAtAntimeridian [(0, 10); (0, 20)] = [[(0, 10); (0, 20)]].
Proof.
  split.
  - exact (proj1 (proj2 (split_reconstructs_and_bounds [(0, 170); (0, -170)]))
             in_range_170).
  - apply (proj2 (proj2 (split_reconstructs_and_bounds [(0, 10); (0, 20)]))).
    + discriminate.
    + exact noJump_10_20.
Defined.

Lemma world_copies_witness :
  exists layer,
    nth_error (createInfiniteGeodesicLine tokyo losAngeles plainOptions) 2 =
      Some layer /\
    latlngs layer =
      map (fun p => (latitude p, longitude p + IZR 0)) tokyoPath /\
    interactive layer = true.
Proof.
  destruct (world_copies tokyo losAngeles (0, 0) plainOptions
              (mkMarkerOptions None None None None None) EmptyString)
    as (_ & _ & H & _).
  apply (H 0%nat 2%nat tokyoPath).
  - rewrite tokyo_segments. reflexivity.
  - lia.
Defined.

(** * Further properties of the code *)

(** ** How many segments the dashboard splitter returns *)

Lemma countJumps_snoc (s : list point) (q p : point) :
  countJumps ((s ++ [q]) ++ [p]) =
  (countJumps (s ++ [q]) +
   if crosses_dec (longitude q) (longitude p) then 1 else 0)%nat.
Proof.
  induction s as [|a s IH].
  - simpl. destruct (crosses_dec (longitude q) (longitude p)); reflexivity.
  - change (countJumps (((a :: s) ++ [q]) ++ [p]))
      with (countJumps (a :: ((s ++ [q]) ++ [p]))).
    change (countJumps ((a :: s) ++ [q])) with (countJumps (a :: (s ++ [q]))).
    cbn [countJumps]. rewrite IH.
    destruct s; simpl; lia.
Qed.


(** What the loop keeps true while it reads a non-empty input. *)
Lemma splitLoop_counts (points : list point) :
  points <> [] ->
  let st := splitLoop points in
  length (segments st) = countJumps points /\
  (totalPoints (segments st) + length (currentSegment st) =
   length points + 2 * countJumps points)%nat /\
  Forall (fun s => (2 <= length s)%nat) (segments st) /\
  (segments st <> [] -> (2 <= length (currentSegment st))%nat) /\
  currentSegment st <> [].
Proof.
  induction points as [|p points IH] using rev_ind; [intros H; now elim H|].
  intros _. destruct points as [|q points _] using rev_ind.
  - destruct p as [la lo]. cbv zeta. simpl.
    split; [reflexivity|]. split; [reflexivity|]. split; [constructor|].
    split; [intros H; now elim H | discriminate].
  - destruct IH as (Hn & Ht & Hall & Htwo & Hne).
    { intros E. apply app_eq_nil in E as [_ E]. discriminate. }
    cbv zeta. rewrite splitLoop_snoc, countJumps_snoc.
    pose proof (splitLoop_last points q) as Hlast.
    destruct (splitLoop (points ++ [q])) as [segs cur]. simpl in *.
    apply lastElement_some in Hlast as [front ->].
    destruct (crosses_dec (longitude q) (longitude p)) as [c|c].
    + rewrite splitStep_cross by exact c. simpl.
      unfold totalPoints in *. rewrite !length_app in *. simpl in *.
      rewrite concat_app, length_app. simpl.
      rewrite !length_app. simpl.
      split; [lia|]. split; [lia|]. split.
      * apply Forall_app. split; [exact Hall|].
        constructor; [|constructor]. rewrite !length_app. simpl. lia.
      * split; [intros _; lia | discriminate].
    + rewrite splitStep_push by exact c. simpl.
      unfold totalPoints in *. rewrite !length_app in *. simpl in *.
      split; [lia|]. split; [lia|]. split; [exact Hall|]. split.
      * intros H. specialize (Htwo H). lia.
      * intros E. apply app_eq_nil in E as [_ E]. discriminate.
Qed.

(** X1.  On a non-empty input the dashboard splitter returns one segment
    more than the input has jumps over 180 degrees, and the segments hold
    the points of the input and two boundary points for every jump.  No
    segment is empty, and once there is a jump every segment has at least
    two points, so that each can be drawn as a line. *)
Theorem split_segment_count (points : list point) :
  points <> [] ->
  let segs := splitAtAntimeridian points in
  length segs = S (countJumps points) /\
  totalPoints segs = (length points + 2 * countJumps points)%nat /\
  Forall (fun s => s <> []) segs /\
  ((1 <= countJumps points)%nat -> Forall (fun s => (2 <= length s)%nat) segs).
Proof.
  intros Hne segs. unfold segs.
  destruct (splitLoop_counts points Hne) as (Hn & Ht & Hall & Htwo & Hcur).
  unfold splitAtAntimeridian, finish.
  destruct (splitLoop points) as [sg cur]. simpl in *.
  destruct cur as [|c cur]; [now elim Hcur|].
  split; [rewrite length_app; simpl; lia|].
  split.
  { unfold totalPoints in *. rewrite concat_app, length_app. simpl.
    rewrite app_nil_r. simpl in Ht. lia. }
  split.
  { apply Forall_app. split.
    - eapply Forall_impl; [|exact Hall]. intros s Hs E. subst s. simpl in Hs. lia.
    - constructor; [discriminate | constructor]. }
  intros Hj. apply Forall_app. split; [exact Hall|].
  constructor; [|constructor]. apply Htwo. intros E. subst sg. simpl in Hn. lia.
Qed.

Lemma countJumps_170 : countJumps [(0, 170); (0, -170)] = 1%nat.
Proof.
  simpl. destruct (crosses_dec 170 (-170)) as [c|c]; [reflexivity|].
  exfalso. apply c. apply crosses_far. lra.
Qed.

Lemma split_segment_count_witness :
  length (splitAtAntimeridian [(0, 170); (0, -170)]) = 2%nat.
Proof.
  rewrite (proj1 (split_segment_count [(0, 170); (0, -170)]
                    ltac:(discriminate))).
  now rewrite countJumps_170.
Defined.

(** ** The latitude of a crossing point *)

(** X2.  When the longitude before a detected crossing lies in
    [[-180,180]], the fraction both splitters compute lies in [[0,1)], so
    the latitude they give the boundary points lies between the latitudes
    of the two points of the crossing. *)
Theorem crossing_latitude_between (prevLat prevLon lat lon : R) :
  -180 <= prevLon <= 180 -> crosses prevLon lon ->
  0 <= fractionAt prevLon lon < 1 /\
  Rmin prevLat lat <= midLatAt prevLat prevLon lat lon <= Rmax prevLat lat.
Proof.
  intros Hp Hc. unfold crosses in Hc.
  assert (Ha : 0 <= 180 - Rabs prevLon <= 180).
  { pose proof (Rabs_pos prevLon). unfold Rabs in *.
    destruct (Rcase_abs prevLon); lra. }
  set (d := Rabs (lon - prevLon)) in *.
  assert (Hd : 0 < / d) by (apply Rinv_0_lt_compat; lra).
  assert (Hf : 0 <= fractionAt prevLon lon < 1).
  { unfold fractionAt. fold d. unfold Rdiv. split.
    - apply Rmult_le_pos; lra.
    - apply Rmult_lt_reg_r with d; [lra|].
      rewrite Rmult_assoc, Rinv_l by lra. lra. }
  split; [exact Hf|].
  unfold midLatAt. set (f := fractionAt prevLon lon) in *.
  unfold Rmin, Rmax. destruct (Rle_dec prevLat lat); split; nra.
Qed.

Lemma crossing_latitude_between_witness :
  Rmin 10 20 <= midLatAt 10 170 20 (-170) <= Rmax 10 20.
Proof.
  apply (crossing_latitude_between 10 170 20 (-170)).
  - lra.
  - apply crosses_far. lra.
Defined.

(** ** The normalisation loops of [GeodesicLine] never run *)

Lemma atan2_degrees (y x : R) : -180 < atan2 y x * 180 / PI <= 180.
Proof.
  pose proof (atan2_bounds y x) as Hb. pose proof PI_RGT_0 as Hpi.
  set (a := atan2 y x) in *.
  replace (a * 180 / PI) with (a * (180 / PI)) by (field; lra).
  assert (Hk : 0 < 180 / PI) by (apply Rdiv_lt_0_compat; lra).
  assert (E : PI * (180 / PI) = 180) by (field; lra).
  split; nra.
Qed.

(** X3.  The longitude [calculateGreatCircle] computes, [λi * 180 / PI]
    with [λi] from [Math.atan2], always lies in [(-180, 180]]: neither
    normalisation loop ever runs an iteration, however many are allowed,
    and the longitude stored is the one computed. *)
Theorem normalisation_loops_never_run (y x : R) (f1 f2 : nat) :
  let lon := atan2 y x * 180 / PI in
  -180 < lon <= 180 /\
  GeodesicLine.whileAbove f1 lon = lon /\
  GeodesicLine.whileBelow f2 lon = lon /\
  GeodesicLine.normalizeLon lon = lon /\
  forall φ1 λ1 φ2 λ2 Δσ n i,
    (1 <= n)%nat -> sin Δσ <> 0 ->
    -180 < longitude (GeodesicLine.greatCirclePoint φ1 λ1 φ2 λ2 Δσ n i) <= 180.
Proof.
  intros lon. pose proof (atan2_degrees y x) as H. fold lon in H.
  split; [exact H|]. split; [|split; [|split]].
  - destruct f1; simpl; [reflexivity|].
    destruct (Rgt_dec lon 180); [lra | reflexivity].
  - destruct f2; simpl; [reflexivity|].
    destruct (Rlt_dec lon (-180)); [lra | reflexivity].
  - apply normalizeLon_id. lra.
  - intros. unfold GeodesicLine.greatCirclePoint, longitude. simpl.
    match goal with |- context [atan2 ?b ?a * 180 / PI] =>
      pose proof (atan2_degrees b a) as Hd; set (v := atan2 b a * 180 / PI) in *
    end.
    rewrite normalizeLon_id by lra. exact Hd.
Qed.

Lemma normalisation_loops_never_run_witness :
  -180 < longitude (GeodesicLine.greatCirclePoint 0 0 0 (PI / 2) (PI / 2) 1 0)
  <= 180.
Proof.
  apply (proj2 (proj2 (proj2 (proj2
           (normalisation_loops_never_run 0 1 0 0))))); [lia|].
  rewrite sin_PI2. lra.
Defined.

(** ** The splitter of [GeodesicLine] on paths with one crossing *)

Lemma greatCircle_splitStep_empty (res : list (list point)) (p : point) :
  GeodesicLine.splitStep (GeodesicLine.mkSplit res []) p =
  GeodesicLine.mkSplit res [p].
Proof. destruct p. reflexivity. Qed.

Lemma greatCircle_splitStep_push (res : list (list point)) (cur : list point)
  (q p : point) :
  ~ crosses (longitude q) (longitude p) ->
  GeodesicLine.splitStep (GeodesicLine.mkSplit res (cur ++ [q])) p =
  GeodesicLine.mkSplit res ((cur ++ [q]) ++ [p]).
Proof.
  intros H. destruct p as [la lo], q as [pla plo].
  unfold GeodesicLine.splitStep. simpl. rewrite lastElement_snoc.
  destruct (crosses_dec plo lo) as [c|c]; [contradiction | reflexivity].
Qed.

Lemma greatCircle_splitStep_cross (res : list (list point)) (cur : list point)
  (q p : point) :
  crosses (longitude q) (longitude p) ->
  GeodesicLine.splitStep (GeodesicLine.mkSplit res (cur ++ [q])) p =
  let midLat := midLatAt (latitude q) (longitude q) (latitude p) (longitude p) in
  let midLon := if Rgt_dec (longitude q) 0 then 180 else -180 in
  GeodesicLine.mkSplit
    (GeodesicLine.pushAt (length (cur ++ [q]) - 1) (midLat, midLon)
       (res ++ [cur ++ [q]]))
    [(midLat, - midLon); p].
Proof.
  intros H. destruct p as [la lo], q as [pla plo].
  unfold GeodesicLine.splitStep. simpl. rewrite lastElement_snoc.
  destruct (crosses_dec plo lo) as [c|c]; [reflexivity | contradiction].
Qed.

Lemma pushAt_nil {A : Type} (k : nat) (x : A) : GeodesicLine.pushAt k x [] = [].
Proof. destruct k; reflexivity. Qed.

Lemma greatCircle_fold_noJump (rest : list point) :
  forall (res : list (list point)) (cur : list point) (q : point),
  noJump (q :: rest) ->
  fold_left GeodesicLine.splitStep rest (GeodesicLine.mkSplit res (cur ++ [q])) =
  GeodesicLine.mkSplit res ((cur ++ [q]) ++ rest).
Proof.
  induction rest as [|p rest IH]; intros res cur q H.
  - simpl. now rewrite app_nil_r.
  - destruct H as [Hqp H]. cbn [fold_left].
    rewrite greatCircle_splitStep_push by exact Hqp.
    rewrite (IH res (cur ++ [q]) p H). now rewrite <- app_assoc.
Qed.

Lemma greatCircle_splitLoop_noJump (points : list point) :
  noJump points ->
  GeodesicLine.splitLoop points = GeodesicLine.mkSplit [] points.
Proof.
  intros H. unfold GeodesicLine.splitLoop.
  destruct points as [|p points]; [reflexivity|].
  cbn [fold_left]. rewrite greatCircle_splitStep_empty.
  apply (greatCircle_fold_noJump points [] [] p H).
Qed.

(** X4.  [GeodesicLine.splitAtAntimeridian] returns a list of points, not
    of segments.  A path without a jump over 180 degrees comes back as it
    is.  On a path with one jump, between [q] and [p], it inserts the
    mirrored boundary point before [p]; the boundary point on the side of
    [q] is inserted only when [q] is the very first point of the path, since
    it is pushed onto [result[currentSegment.length - 1]], which exists only
    then.  When the longitude of [p] lies in [[-180,180]] the list returned
    still has a jump over 180 degrees in it. *)
Theorem greatCircle_split_one_crossing
  (before : list point) (q p : point) (after : list point) :
  noJump (before ++ [q]) -> noJump (p :: after) ->
  crosses (longitude q) (longitude p) ->
  let midLat := midLatAt (latitude q) (longitude q) (latitude p) (longitude p) in
  let midLon := if Rgt_dec (longitude q) 0 then 180 else -180 in
  let flat := GeodesicLine.splitAtAntimeridian ((before ++ [q]) ++ p :: after) in
  GeodesicLine.splitAtAntimeridian (before ++ [q]) = before ++ [q] /\
  flat =
    match before with
    | [] => [q; (midLat, midLon); (midLat, - midLon); p] ++ after
    | _ :: _ => (before ++ [q]) ++ [(midLat, - midLon); p] ++ after
    end /\
  (lonInRange p -> ~ noJump flat).
Proof.
  intros Hb Ha Hc midLat midLon flat.
  assert (Hflat : flat =
    match before with
    | [] => [q; (midLat, midLon); (midLat, - midLon); p] ++ after
    | _ :: _ => (before ++ [q]) ++ [(midLat, - midLon); p] ++ after
    end).
  { unfold flat, GeodesicLine.splitAtAntimeridian, GeodesicLine.splitLoop.
    rewrite fold_left_app. fold (GeodesicLine.splitLoop (before ++ [q])).
    rewrite greatCircle_splitLoop_noJump by exact Hb.
    cbn [fold_left]. rewrite greatCircle_splitStep_cross by exact Hc.
    cbv zeta. fold midLat midLon.
    rewrite (greatCircle_fold_noJump after _ [(midLat, - midLon)] p Ha).
    unfold GeodesicLine.finish.
    cbn [GeodesicLine.currentSegment GeodesicLine.result].
    destruct before as [|b before].
    + simpl. now rewrite app_nil_r.
    + assert (E : GeodesicLine.pushAt
                    (length ((b :: before) ++ [q]) - 1) (midLat, midLon)
                    ([] ++ [(b :: before) ++ [q]]) = [(b :: before) ++ [q]]).
      { simpl. rewrite length_app. simpl.
        replace (length before + 1 - 0)%nat with (S (length before)) by lia.
        cbn [GeodesicLine.pushAt]. now rewrite pushAt_nil. }
      rewrite E. simpl. rewrite app_nil_r. reflexivity. }
  split; [|split; [exact Hflat|]].
  - unfold GeodesicLine.splitAtAntimeridian.
    rewrite greatCircle_splitLoop_noJump by exact Hb.
    unfold GeodesicLine.finish. simpl.
    destruct (before ++ [q]) eqn:E; [|reflexivity].
    apply app_eq_nil in E as [_ E]. discriminate.
  - intros Hp Hn. rewrite Hflat in Hn. unfold lonInRange in Hp.
    apply crosses_far in Hc.
    destruct before as [|b before].
    + apply (noJump_middle [q] (midLat, midLon) (midLat, - midLon) (p :: after))
        in Hn.
      apply Hn. apply crosses_far. unfold midLon, longitude. simpl.
      destruct (Rgt_dec (snd q) 0); lra.
    + apply (noJump_middle (b :: before) q (midLat, - midLon) (p :: after)) in Hn.
      apply Hn. apply crosses_far. unfold midLon, longitude in *. simpl.
      destruct (Rgt_dec (snd q) 0); lra.
Qed.

Lemma noJump_160_170 : noJump ([(0, 160)] ++ [(0, 170)]).
Proof.
  simpl. split; [|tauto]. apply not_crosses_near. unfold longitude. simpl. lra.
Qed.

Lemma crosses_170_back : crosses (longitude (0, 170)) (longitude (0, -170)).
Proof. apply crosses_far. simpl. lra. Qed.

Lemma greatCircle_split_one_crossing_witness :
  GeodesicLine.splitAtAntimeridian ([(0, 160)] ++ [(0, 170)]) =
  [(0, 160)] ++ [(0, 170)].
Proof.
  exact (proj1 (greatCircle_split_one_crossing [(0, 160)] (0, 170) (0, -170) []
                  noJump_160_170 (conj I I) crosses_170_back)).
Defined.

(** ** Segments and polylines in exact arithmetic *)

Lemma split_length (points : list point) :
  points <> [] ->
  length (splitAtAntimeridian points) = S (countJumps points).
Proof.
  intros Hne.
  destruct (splitLoop_counts points Hne) as (Hn & _ & _ & _ & Hcur).
  unfold splitAtAntimeridian, finish.
  destruct (splitLoop points) as [sg cur]. simpl in *.
  destruct cur; [now elim Hcur|]. rewrite length_app. simpl. lia.
Qed.

Lemma line_layers_count (lat1 lon1 lat2 lon2 : R) (options : lineOptions) :
  length (createInfiniteGeodesicLine (lat1, lon1) (lat2, lon2) options) =
  if Rlt_dec (centralAngle lat1 lon1 lat2 lon2) 0.001 then
    if crosses_dec lon1 lon2 then 10%nat else 5%nat
  else 5%nat.
Proof.
  rewrite createInfiniteGeodesicLine_layers, forEachSegment_length.
  unfold renderedSegments, latitude, longitude. simpl fst. simpl snd.
  destruct (Rlt_dec (centralAngle lat1 lon1 lat2 lon2) 0.001) as [Hd|Hd].
  - rewrite calculateGeodesicPoints_degenerate by exact Hd.
    rewrite split_length by discriminate. simpl.
    now destruct (crosses_dec lon1 lon2).
  - now rewrite interpolated_path_single_segment by (lia || exact Hd).
Qed.

(** ** Whole turns *)

Lemma sin_turns (x : R) (k : Z) : sin (x + 2 * IZR k * PI) = sin x.
Proof.
  destruct (Z_le_gt_dec 0 k) as [H|H].
  - rewrite <- (Z2Nat.id k H), <- INR_IZR_INZ. apply sin_period.
  - rewrite <- (sin_period (x + 2 * IZR k * PI) (Z.to_nat (- k))).
    rewrite INR_IZR_INZ, Z2Nat.id by lia. rewrite opp_IZR. f_equal. ring.
Qed.

Lemma cos_turns (x : R) (k : Z) : cos (x + 2 * IZR k * PI) = cos x.
Proof.
  destruct (Z_le_gt_dec 0 k) as [H|H].
  - rewrite <- (Z2Nat.id k H), <- INR_IZR_INZ. apply cos_period.
  - rewrite <- (cos_period (x + 2 * IZR k * PI) (Z.to_nat (- k))).
    rewrite INR_IZR_INZ, Z2Nat.id by lia. rewrite opp_IZR. f_equal. ring.
Qed.

(** The wrap direction moves [λ2] by a whole number of turns. *)
Lemma unwrapλ2_turns (λ1 λ2 : R) :
  exists m : Z, unwrapλ2 λ1 λ2 = λ2 + 2 * IZR m * PI.
Proof.
  unfold unwrapλ2.
  destruct (Rgt_dec (Rabs ((λ2 - λ1) * 180 / PI)) 180).
  - destruct (Rgt_dec ((λ2 - λ1) * 180 / PI) 0).
    + exists (-1)%Z. lra.
    + exists 1%Z. lra.
  - exists 0%Z. lra.
Qed.

(** The longitude difference after the wrap, up to whole turns. *)
Lemma Δλ_turns (λ1 λ2 : R) (a b : Z) :
  exists m : Z,
    unwrapλ2 (λ1 + 2 * IZR a * PI) (λ2 + 2 * IZR b * PI)
      - (λ1 + 2 * IZR a * PI) =
    (unwrapλ2 λ1 λ2 - λ1) + 2 * IZR m * PI.
Proof.
  destruct (unwrapλ2_turns λ1 λ2) as [m E].
  destruct (unwrapλ2_turns (λ1 + 2 * IZR a * PI) (λ2 + 2 * IZR b * PI))
    as [m' E'].
  exists (m' + b - a - m)%Z. rewrite E, E'.
  rewrite !minus_IZR, !plus_IZR. ring.
Qed.

Lemma toRad_turns (lon : R) (k : Z) :
  (lon + 360 * IZR k) * toRad = lon * toRad + 2 * IZR k * PI.
Proof. unfold toRad. field. Qed.

Lemma turned_trigonometry (lon1 lon2 : R) (a b : Z) :
  let Δλ := unwrapλ2 (lon1 * toRad) (lon2 * toRad) - lon1 * toRad in
  let Δλ' := unwrapλ2 ((lon1 + 360 * IZR a) * toRad)
                      ((lon2 + 360 * IZR b) * toRad)
             - (lon1 + 360 * IZR a) * toRad in
  sin Δλ' = sin Δλ /\ cos Δλ' = cos Δλ.
Proof.
  intros Δλ Δλ'. unfold Δλ'. rewrite !toRad_turns.
  destruct (Δλ_turns (lon1 * toRad) (lon2 * toRad) a b) as [m ->].
  fold Δλ. split; [apply sin_turns | apply cos_turns].
Qed.

Lemma turned_centralAngle (lat1 lon1 lat2 lon2 : R) (a b : Z) :
  centralAngle lat1 (lon1 + 360 * IZR a) lat2 (lon2 + 360 * IZR b) =
  centralAngle lat1 lon1 lat2 lon2.
Proof.
  unfold centralAngle, acosArgument.
  destruct (turned_trigonometry lon1 lon2 a b) as [_ ->]. reflexivity.
Qed.

Lemma turned_initialBearing (lat1 lon1 lat2 lon2 : R) (a b : Z) :
  initialBearing (lat1 * toRad) (lat2 * toRad)
    (unwrapλ2 ((lon1 + 360 * IZR a) * toRad) ((lon2 + 360 * IZR b) * toRad)
     - (lon1 + 360 * IZR a) * toRad) =
  initialBearing (lat1 * toRad) (lat2 * toRad)
    (unwrapλ2 (lon1 * toRad) (lon2 * toRad) - lon1 * toRad).
Proof.
  unfold initialBearing.
  destruct (turned_trigonometry lon1 lon2 a b) as [-> ->]. reflexivity.
Qed.

Lemma geodesicPoint_turned (lat1 lon1 Δσ θ : R) (n i : nat) (a : Z) :
  geodesicPoint (lat1 * toRad) ((lon1 + 360 * IZR a) * toRad) Δσ θ n i =
  shiftPoint (360 * a)
    (geodesicPoint (lat1 * toRad) (lon1 * toRad) Δσ θ n i).
Proof.
  unfold geodesicPoint, shiftPoint. cbn [fst snd]. f_equal.
  rewrite mult_IZR. unfold toRad. field. apply PI_neq0.
Qed.

Lemma path_turned (lat1 lon1 lat2 lon2 : R) (n : nat) (a b : Z) :
  ~ centralAngle lat1 lon1 lat2 lon2 < 0.001 ->
  calculateGeodesicPoints lat1 (lon1 + 360 * IZR a) lat2 (lon2 + 360 * IZR b) n
  = map (shiftPoint (360 * a)) (calculateGeodesicPoints lat1 lon1 lat2 lon2 n).
Proof.
  intros Hd.
  rewrite (calculateGeodesicPoints_regular lat1 lon1 lat2 lon2 n Hd).
  rewrite calculateGeodesicPoints_regular
    by (rewrite turned_centralAngle; exact Hd).
  rewrite turned_centralAngle, turned_initialBearing, map_map.
  apply map_ext. intros i. apply geodesicPoint_turned.
Qed.

(** X6.  The path of [calculateGeodesicPoints] depends on the two
    longitudes only up to whole turns.  The central angle is the same when
    either longitude is moved by a multiple of 360; an interpolated path is
    the same when the destination is moved by a multiple of 360, and moves
    as a whole, every longitude by that multiple and no latitude, when the
    origin is. *)
Theorem path_up_to_whole_turns (lat1 lon1 lat2 lon2 : R) (n : nat) (a b : Z) :
  centralAngle lat1 (lon1 + 360 * IZR a) lat2 (lon2 + 360 * IZR b) =
  centralAngle lat1 lon1 lat2 lon2 /\
  ((1 <= n)%nat -> ~ centralAngle lat1 lon1 lat2 lon2 < 0.001 ->
   calculateGeodesicPoints lat1 (lon1 + 360 * IZR a) lat2 (lon2 + 360 * IZR b) n
   = map (shiftPoint (360 * a)) (calculateGeodesicPoints lat1 lon1 lat2 lon2 n)).
Proof.
  split; [apply turned_centralAngle | intros _; apply path_turned].
Qed.

Lemma path_up_to_whole_turns_witness :
  calculateGeodesicPoints 35.7 (139.7 + 360 * IZR 0) 34 (-118.2 + 360 * IZR 1) 100
  = map (shiftPoint (360 * 0))
        (calculateGeodesicPoints 35.7 139.7 34 (-118.2) 100).
Proof.
  exact (proj2 (path_up_to_whole_turns 35.7 139.7 34 (-118.2) 100 0 1)
           ltac:(lia) tokyo_not_degenerate).
Defined.

(** X7.  A world copy of an interpolated path is the path of the trip whose
    origin is moved by the offset: for each of the offsets -720, -360, 0,
    360, 720 the polyline drawn at that offset has the points
    [calculateGeodesicPoints] gives for the origin longitude plus the
    offset. *)
Theorem world_copy_is_shifted_trip
  (lat1 lon1 lat2 lon2 : R) (options : lineOptions) (j : nat) (offset : Z) :
  In offset worldOffsets ->
  ~ centralAngle lat1 lon1 lat2 lon2 < 0.001 ->
  latlngs (lineCopy options j
             (calculateGeodesicPoints lat1 lon1 lat2 lon2 100) offset) =
  calculateGeodesicPoints lat1 (lon1 + IZR offset) lat2 lon2 100.
Proof.
  intros Hin Hd.
  assert (Hk : exists k : Z, offset = (360 * k)%Z).
  { rewrite worldOffsets_values in Hin. simpl in Hin.
    destruct Hin as [<-|[<-|[<-|[<-|[<-|[]]]]]].
    - now exists (-2)%Z.
    - now exists (-1)%Z.
    - now exists 0%Z.
    - now exists 1%Z.
    - now exists 2%Z. }
  destruct Hk as [k ->].
  pose proof (path_turned lat1 lon1 lat2 lon2 100 k 0 Hd) as E.
  replace (lon2 + 360 * IZR 0) with lon2 in E by lra.
  rewrite mult_IZR, E. reflexivity.
Qed.

Lemma world_copy_is_shifted_trip_witness :
  latlngs (lineCopy plainOptions 0
             (calculateGeodesicPoints 35.7 139.7 34 (-118.2) 100) (-360)) =
  calculateGeodesicPoints 35.7 (139.7 + IZR (-360)) 34 (-118.2) 100.
Proof.
  apply world_copy_is_shifted_trip.
  - rewrite worldOffsets_values. simpl. tauto.
  - exact tokyo_not_degenerate.
Defined.

(** ** Latitudes in exact arithmetic *)

Lemma atan2_right_half (y x : R) : 0 <= x -> - (PI / 2) <= atan2 y x <= PI / 2.
Proof.
  intros Hx. pose proof PI_RGT_0 as Hpi.
  pose proof (atan_bound (y / x)) as Hb. unfold atan2.
  destruct (Rlt_dec 0 x); [lra|].
  destruct (Rlt_dec x 0); [lra|].
  destruct (Rlt_dec 0 y); [lra|]. destruct (Rlt_dec y 0); lra.
Qed.

Lemma quarter_degrees (a : R) :
  - (PI / 2) <= a <= PI / 2 -> -90 <= a * 180 / PI <= 90.
Proof.
  intros H. pose proof PI_RGT_0 as Hpi.
  replace (a * 180 / PI) with (a * (180 / PI)) by (field; lra).
  assert (Hk : 0 < 180 / PI) by (apply Rdiv_lt_0_compat; lra).
  assert (E : PI / 2 * (180 / PI) = 90) by (field; lra).
  split; nra.
Qed.

Lemma greatCirclePoint_latitude (φ1 λ1 φ2 λ2 Δσ : R) (n i : nat) :
  latInRange (GeodesicLine.greatCirclePoint φ1 λ1 φ2 λ2 Δσ n i).
Proof.
  unfold latInRange, GeodesicLine.greatCirclePoint, latitude. cbn [fst].
  apply quarter_degrees. apply atan2_right_half. apply sqrt_pos.
Qed.

Lemma geodesicPoint_first_folded (lat1 lon1 Δσ θ : R) (n : nat) :
  90 <= lat1 <= 270 ->
  geodesicPoint (lat1 * toRad) (lon1 * toRad) Δσ θ n 0 = (180 - lat1, lon1).
Proof.
  intros Hlat. pose proof PI_RGT_0 as Hpi. unfold geodesicPoint. simpl INR.
  replace (0 / INR n * Δσ) with 0 by (unfold Rdiv; ring).
  rewrite sin_0, cos_0.
  replace (sin (lat1 * toRad) * 1 + cos (lat1 * toRad) * 0 * cos θ)
    with (sin (lat1 * toRad)) by ring.
  assert (E : sin (lat1 * toRad) = sin ((180 - lat1) * toRad)).
  { rewrite <- (sin_PI_x (lat1 * toRad)). f_equal. unfold toRad. field. }
  rewrite E, asin_sin by (unfold toRad; split; nra).
  replace (sin θ * 0 * cos (lat1 * toRad)) with 0 by ring.
  rewrite atan2_0_nonneg.
  - rewrite Rplus_0_r, !toRad_back. reflexivity.
  - pose proof (sin2_cos2 ((180 - lat1) * toRad)) as H. unfold Rsqr in H.
    pose proof (Rle_0_sqr (cos ((180 - lat1) * toRad))) as Hc.
    unfold Rsqr in Hc. lra.
Qed.

(** ** Styles and popups *)

Lemma forEachSegment_In (options : lineOptions) (segs : list (list point)) :
  forall (idx : nat) (layer : polyline),
  In layer (forEachSegment options idx segs) ->
  exists j seg offset, In offset worldOffsets /\
    layer = lineCopy options j seg offset.
Proof.
  induction segs as [|s rest IH]; intros idx layer H; [contradiction|].
  cbn [forEachSegment] in H. apply in_app_or in H as [H|H].
  - apply in_map_iff in H as (offset & <- & Hin). now exists idx, s, offset.
  - now apply IH in H.
Qed.

Lemma orString_nonempty (s : option string) (d : string) :
  d <> EmptyString -> orString s d <> EmptyString.
Proof.
  intros Hd. unfold orString. destruct s as [v|]; [|exact Hd].
  destruct (String.eqb v EmptyString) eqn:E; [exact Hd|].
  intros ->. discriminate.
Qed.

Lemma orNumber_nonzero (x : option R) (d : R) : d <> 0 -> orNumber x d <> 0.
Proof.
  intros Hd. unfold orNumber. destruct x as [v|]; [|exact Hd].
  destruct (Req_dec_T v 0); assumption.
Qed.

(** X9.  Whatever options are passed, no polyline is drawn with a weight or
    an opacity of 0 or with an empty colour: a value that is missing, 0 or
    empty is replaced by the default (3, 0.7, '#ff4444').  A polyline has a
    popup exactly when it is interactive, and the popup text is never
    empty.  A marker with a popup is interactive and its text is the
    non-empty [popupContent] given; with an empty [popupContent] no marker
    has a popup. *)
Theorem styles_and_popups (origin dest latlng : point) (options : lineOptions)
  (markerOpts : markerOptions) (popupText : string) :
  (forall layer, In layer (createInfiniteGeodesicLine origin dest options) ->
     lineWeight layer <> 0 /\ lineOpacity layer <> 0 /\
     lineColor layer <> EmptyString /\
     (popup layer <> None <-> interactive layer = true) /\
     popup layer <> Some EmptyString) /\
  (forall marker, In marker (createInfiniteMarker latlng markerOpts popupText) ->
     markerRadius marker <> 0 /\
     (forall text, markerPopup marker = Some text ->
        markerInteractive marker = true /\ text = popupText /\
        text <> EmptyString)) /\
  (popupText = EmptyString ->
   Forall (fun marker => markerPopup marker = None)
          (createInfiniteMarker latlng markerOpts popupText)).
Proof.
  split; [|split].
  - intros layer H. rewrite createInfiniteGeodesicLine_layers in H.
    apply forEachSegment_In in H as (j & seg & offset & _ & ->).
    unfold lineCopy. cbn [lineWeight lineOpacity lineColor popup interactive].
    split; [apply orNumber_nonzero; lra|].
    split; [apply orNumber_nonzero; lra|].
    split; [apply orString_nonempty; discriminate|].
    destruct (isPrimary offset j).
    + split; [split; [reflexivity | discriminate]|].
      intros [= E]. revert E. apply orString_nonempty. discriminate.
    + split; [split; [intros H; now elim H | discriminate] | discriminate].
  - intros marker H. unfold createInfiniteMarker in H.
    apply in_map_iff in H as (offset & <- & _).
    destruct latlng as [la lo]. unfold markerCopy.
    cbn [markerRadius markerPopup markerInteractive].
    split; [apply orNumber_nonzero; lra|].
    intros text. destruct (offset =? 0)%Z; cbn [andb]; [|discriminate].
    destruct (String.eqb popupText EmptyString) eqn:E; cbn [negb];
      [discriminate|].
    intros [= <-]. split; [reflexivity|]. split; [reflexivity|].
    intros ->. discriminate.
  - intros ->. apply Forall_forall. intros marker H.
    unfold createInfiniteMarker in H.
    apply in_map_iff in H as (offset & <- & _).
    destruct latlng as [la lo]. unfold markerCopy. cbn [markerPopup].
    now destruct (offset =? 0)%Z.
Qed.

(** ** The registry of trip layers *)

Lemma lookup_assign (layers : registry) (id id' : nat) (entry : layerEntry) :
  lookup (assign layers id entry) id' =
  if Nat.eqb id id' then Some entry else lookup layers id'.
Proof.
  unfold lookup, assign. simpl. now destruct (Nat.eqb id id').
Qed.

Lemma combine_app_same {A B : Type} (l1 l2 : list A) (m1 m2 : list B) :
  length l1 = length m1 ->
  combine (l1 ++ l2) (m1 ++ m2) = combine l1 m1 ++ combine l2 m2.
Proof.
  revert m1. induction l1 as [|a l1 IH]; intros [|b m1] H; try discriminate.
  - reflexivity.
  - simpl. f_equal. apply IH. now injection H.
Qed.

Lemma combine_ranks_snoc {A : Type} (l : list A) (x : A) :
  combine (seq 0 (length (l ++ [x]))) (l ++ [x]) =
  combine (seq 0 (length l)) l ++ [(length l, x)].
Proof.
  rewrite length_app. simpl length. rewrite seq_app. simpl seq.
  rewrite combine_app_same by now rewrite length_seq. reflexivity.
Qed.

Lemma addLayer_fresh (n : nat) : addLayer n (seq 0 n) = seq 0 (S n).
Proof.
  unfold addLayer.
  assert (E : existsb (Nat.eqb n) (seq 0 n) = false).
  { apply Bool.not_true_is_false. intros H. apply existsb_exists in H as (x & Hx & E).
    apply in_seq in Hx. apply Nat.eqb_eq in E. lia. }
  rewrite E. now rewrite seq_S.
Qed.

Section Trips.

Variable toFixed : nat -> R -> string.

Lemma createAllTripLayers_snoc (tripsData : list trip) (t : trip) (start : page) :
  createAllTripLayers toFixed (tripsData ++ [t]) start =
  createTripLayers toFixed (createAllTripLayers toFixed tripsData start)
    (length tripsData, t).
Proof.
  unfold createAllTripLayers. rewrite combine_ranks_snoc. apply fold_left_snoc.
Qed.

Lemma createAllTripLayers_onMap (tripsData : list trip) (texts : analytics) :
  onMap (createAllTripLayers toFixed tripsData (mkPage [] [] texts)) =
  seq 0 (length tripsData).
Proof.
  induction tripsData as [|t tripsData IH] using rev_ind; [reflexivity|].
  rewrite createAllTripLayers_snoc. unfold createTripLayers. simpl.
  rewrite IH, length_app. simpl. rewrite Nat.add_1_r. apply addLayer_fresh.
Qed.

Lemma createAllTripLayers_lookup_none (tripsData : list trip) (texts : analytics)
  (id : nat) :
  (forall t, In t tripsData -> tripId t <> id) ->
  lookup (tripLayers (createAllTripLayers toFixed tripsData (mkPage [] [] texts)))
         id = None.
Proof.
  induction tripsData as [|t tripsData IH] using rev_ind; intros H;
    [reflexivity|].
  rewrite createAllTripLayers_snoc. unfold createTripLayers. simpl.
  rewrite lookup_assign.
  destruct (Nat.eqb (tripId t) id) eqn:E.
  - apply Nat.eqb_eq in E. exfalso. apply (H t); [|exact E].
    apply in_or_app. right. now left.
  - apply IH. intros t' Hin. apply H. apply in_or_app. now left.
Qed.

Lemma createAllTripLayers_lookup_last (tripsData : list trip) (texts : analytics) :
  forall (i : nat) (t : trip),
  nth_error tripsData i = Some t ->
  (forall j t', (i < j)%nat -> nth_error tripsData j = Some t' ->
                tripId t' <> tripId t) ->
  lookup (tripLayers (createAllTripLayers toFixed tripsData (mkPage [] [] texts)))
         (tripId t) =
  Some (mkLayerEntry (tripGroup toFixed i t) (tripEmissions t) (tripDistance t)).
Proof.
  induction tripsData as [|t' tripsData IH] using rev_ind; intros i t Hi Hlast.
  - destruct i; discriminate.
  - rewrite createAllTripLayers_snoc. unfold createTripLayers. simpl.
    rewrite lookup_assign.
    destruct (Nat.lt_ge_cases i (length tripsData)) as [Hlt|Hge].
    + rewrite nth_error_app1 in Hi by exact Hlt.
      assert (Hneq : tripId t' <> tripId t).
      { apply (Hlast (length tripsData) t' Hlt).
        rewrite nth_error_app2 by lia. now rewrite Nat.sub_diag. }
      apply Nat.eqb_neq in Hneq. rewrite Hneq.
      apply IH; [exact Hi|]. intros j t'' Hj Hnth. apply (Hlast j t'' Hj).
      rewrite nth_error_app1; [exact Hnth|].
      apply nth_error_Some. congruence.
    + rewrite nth_error_app2 in Hi by exact Hge.
      destruct (i - length tripsData)%nat as [|k] eqn:Ek.
      * injection Hi as ->. rewrite Nat.eqb_refl.
        replace i with (length tripsData) by lia. reflexivity.
      * destruct k; discriminate.
Qed.

(** X10.  After [tripsData.forEach], which runs when there is a trip, the
    map holds one group for every trip, duplicates of an id included, while
    [tripLayers] has for an id the entry of the last trip with that id,
    built from that trip's emissions and distance, and nothing for an id
    no trip has. *)
Theorem trips_registered (tripsData : list trip) (texts : analytics) :
  tripsData <> [] ->
  let p := createAllTripLayers toFixed tripsData (mkPage [] [] texts) in
  onMap p = seq 0 (length tripsData) /\
  (forall i t,
     nth_error tripsData i = Some t ->
     (forall j t', (i < j)%nat -> nth_error tripsData j = Some t' ->
                   tripId t' <> tripId t) ->
     lookup (tripLayers p) (tripId t) =
     Some (mkLayerEntry (tripGroup toFixed i t)
                        (tripEmissions t) (tripDistance t))) /\
  (forall id, (forall t, In t tripsData -> tripId t <> id) ->
     lookup (tripLayers p) id = None).
Proof.
  intros _ p. unfold p. split; [apply createAllTripLayers_onMap|].
  split; [apply createAllTripLayers_lookup_last|].
  apply createAllTripLayers_lookup_none.
Qed.

End Trips.

(** ** The layers of one trip *)

Section TripGroup.

Variable toFixed : nat -> R -> string.

Lemma linePopup_kept (t : trip) :
  orString (Some (linePopup toFixed t)) "Flight Path" = linePopup toFixed t.
Proof. reflexivity. Qed.

Lemma createInfiniteMarker_counts (latlng : point) (options : markerOptions)
  (text : string) :
  length (createInfiniteMarker latlng options text) = 5%nat /\
  interactiveMarkers (createInfiniteMarker latlng options text) = 1%nat.
Proof. destruct latlng. split; reflexivity. Qed.

Lemma line_layers_primary (origin dest : point) (options : lineOptions) :
  interactiveCount (createInfiniteGeodesicLine origin dest options) = 1%nat.
Proof.
  rewrite createInfiniteGeodesicLine_layers.
  pose proof (renderedSegments_nonempty origin dest) as Hne.
  destruct (renderedSegments origin dest) as [|seg rest]; [now elim Hne|].
  apply forEachSegment_one_primary.
Qed.

(** X11.  Every trip puts 15 or 20 layers in its group: five or ten
    polylines and five markers each for its origin and its destination.
    Exactly three of them are interactive, one polyline and one marker of
    each kind, and these carry the popups: the trip text on the polyline,
    the origin and destination codes on the markers.  Every polyline is
    drawn in '#ff4444' with weight 3 and opacity 0.7. *)
Theorem trip_group_layers (rank : nat) (t : trip) :
  let g := tripGroup toFixed rank t in
  stamp g = rank /\
  (length (lineGroup g) = 5%nat \/ length (lineGroup g) = 10%nat) /\
  length (originGroup g) = 5%nat /\ length (destGroup g) = 5%nat /\
  interactiveCount (lineGroup g) = 1%nat /\
  interactiveMarkers (originGroup g) = 1%nat /\
  interactiveMarkers (destGroup g) = 1%nat /\
  (forall layer, In layer (lineGroup g) ->
     lineColor layer = "#ff4444"%string /\ lineWeight layer = 3 /\
     lineOpacity layer = 0.7 /\
     popup layer =
       if interactive layer then Some (linePopup toFixed t) else None) /\
  (forall marker, In marker (originGroup g) ->
     markerPopup marker =
       if markerInteractive marker
       then Some ("<b>Origin:</b> " ++ origin_code t)%string else None) /\
  (forall marker, In marker (destGroup g) ->
     markerPopup marker =
       if markerInteractive marker
       then Some ("<b>Destination:</b> " ++ dest_code t)%string else None).
Proof.
  intros g. unfold g, tripGroup. cbn [stamp lineGroup originGroup destGroup].
  split; [reflexivity|]. split.
  { destruct (tripOrigin t) as [lat1 lon1], (tripDest t) as [lat2 lon2].
    rewrite line_layers_count.
    destruct (Rlt_dec _ 0.001); [|now left].
    destruct (crosses_dec lon1 lon2); [now right | now left]. }
  split; [apply createInfiniteMarker_counts|].
  split; [apply createInfiniteMarker_counts|].
  split; [apply line_layers_primary|].
  split; [apply createInfiniteMarker_counts|].
  split; [apply createInfiniteMarker_counts|].
  split; [|split].
  - intros layer H. rewrite createInfiniteGeodesicLine_layers in H.
    apply forEachSegment_In in H as (j & seg & offset & _ & ->).
    unfold lineCopy.
    cbn [lineColor lineWeight lineOpacity popup interactive color weight
         opacity popupContent].
    split; [reflexivity|].
    split; [unfold orNumber; destruct (Req_dec_T 3 0); [lra | reflexivity]|].
    split; [unfold orNumber; destruct (Req_dec_T 0.7 0); [lra | reflexivity]|].
    rewrite linePopup_kept. reflexivity.
  - intros marker H. unfold createInfiniteMarker in H.
    apply in_map_iff in H as (offset & <- & _).
    destruct (tripOrigin t) as [la lo]. unfold markerCopy.
    cbn [markerPopup markerInteractive]. now destruct (offset =? 0)%Z.
  - intros marker H. unfold createInfiniteMarker in H.
    apply in_map_iff in H as (offset & <- & _).
    destruct (tripDest t) as [la lo]. unfold markerCopy.
    cbn [markerPopup markerInteractive]. now destruct (offset =? 0)%Z.
Qed.

End TripGroup.

(** ** The totals of the visible trips *)

Lemma addTotals_zero (a : totals) : addTotals a (mkTotals 0 0 0) = a.
Proof.
  destruct a as [e d c]. unfold addTotals. simpl.
  f_equal; [lra | lra | lia].
Qed.

Lemma countTrip_add (layers : registry) (a b : totals) (cb : checkbox) :
  countTrip layers (addTotals a b) cb = addTotals a (countTrip layers b cb).
Proof.
  unfold countTrip. destruct (checked cb); [|reflexivity].
  destruct (lookup layers (dataTripId cb)) as [entry|]; [|reflexivity].
  unfold addTotals. simpl. f_equal; [lra | lra | lia].
Qed.

Lemma fold_countTrip_add (layers : registry) (cbs : list checkbox) :
  forall a b : totals,
  fold_left (countTrip layers) cbs (addTotals a b) =
  addTotals a (fold_left (countTrip layers) cbs b).
Proof.
  induction cbs as [|cb cbs IH]; intros a b; [reflexivity|].
  simpl. rewrite countTrip_add. apply IH.
Qed.

Lemma visibleTotals_app (layers : registry) (before after : list checkbox) :
  visibleTotals layers (before ++ after) =
  addTotals (visibleTotals layers before) (visibleTotals layers after).
Proof.
  unfold visibleTotals. rewrite fold_left_app.
  rewrite <- (addTotals_zero (fold_left (countTrip layers) before _)) at 1.
  apply fold_countTrip_add.
Qed.

Lemma visibleTotals_cons (layers : registry) (cb : checkbox)
  (after : list checkbox) :
  visibleTotals layers (cb :: after) =
  addTotals (countTrip layers (mkTotals 0 0 0) cb) (visibleTotals layers after).
Proof.
  change (cb :: after) with ([cb] ++ after). apply visibleTotals_app.
Qed.

Lemma visibleTotals_unchecked (layers : registry) (cbs : list checkbox) :
  Forall (fun cb => checked cb = false) cbs ->
  visibleTotals layers cbs = mkTotals 0 0 0.
Proof.
  induction 1 as [|cb cbs Hcb _ IH]; [reflexivity|].
  rewrite visibleTotals_cons, IH. unfold countTrip. rewrite Hcb.
  apply addTotals_zero.
Qed.

Lemma visibleCount_bound (layers : registry) (cbs : list checkbox) :
  (visibleCount (visibleTotals layers cbs) <=
   length (filter checked cbs))%nat.
Proof.
  induction cbs as [|cb cbs IH]; [simpl; lia|].
  rewrite visibleTotals_cons. unfold countTrip. simpl.
  destruct (checked cb); simpl.
  - destruct (lookup layers (dataTripId cb)); simpl; lia.
  - lia.
Qed.

(** X12.  [updateAnalytics] counts a trip once for every ticked checkbox
    that names a registered id.  Ticking one more box of a registered trip
    raises the count by one, the emissions by that trip's emissions and the
    distance by its distance, whatever the other boxes are; a box with an
    id that is not registered changes nothing, ticked or not.  With no box
    ticked all three totals are 0, and the count never exceeds the number
    of ticked boxes. *)
Theorem analytics_totals (layers : registry) (before after : list checkbox)
  (id : nat) :
  let ticked := visibleTotals layers (before ++ mkCheckbox id true :: after) in
  let clear := visibleTotals layers (before ++ mkCheckbox id false :: after) in
  match lookup layers id with
  | Some entry =>
      totalEmissions ticked = totalEmissions clear + emissions entry /\
      totalDistance ticked = totalDistance clear + distance entry /\
      visibleCount ticked = S (visibleCount clear)
  | None => ticked = clear
  end /\
  (Forall (fun cb => checked cb = false) (before ++ after) ->
   clear = mkTotals 0 0 0) /\
  (visibleCount ticked <= S (length (filter checked (before ++ after))))%nat.
Proof.
  intros ticked clear. unfold ticked, clear.
  rewrite !visibleTotals_app, !visibleTotals_cons.
  unfold countTrip. cbn [checked dataTripId].
  split; [|split].
  - destruct (lookup layers id) as [entry|]; [|reflexivity].
    unfold addTotals. simpl. split; [lra|]. split; [lra | lia].
  - intros H. apply Forall_app in H as [Hb Ha].
    rewrite (visibleTotals_unchecked layers before Hb),
            (visibleTotals_unchecked layers after Ha).
    now rewrite !addTotals_zero.
  - pose proof (visibleCount_bound layers before) as Hb.
    pose proof (visibleCount_bound layers after) as Ha.
    rewrite filter_app, length_app.
    destruct (lookup layers id); unfold addTotals; simpl; lia.
Qed.

(** ** Toggling a trip *)

Lemma addLayer_In (layer held : nat) (onMap : list nat) :
  In held (addLayer layer onMap) <-> held = layer \/ In held onMap.
Proof.
  unfold addLayer. destruct (existsb (Nat.eqb layer) onMap) eqn:E.
  - split; [tauto|]. intros [->|H]; [|exact H].
    apply existsb_exists in E as (x & Hx & Ex).
    apply Nat.eqb_eq in Ex. now subst x.
  - rewrite in_app_iff. simpl. intuition congruence.
Qed.

Lemma removeLayer_In (layer held : nat) (onMap : list nat) :
  In held (removeLayer layer onMap) <-> held <> layer /\ In held onMap.
Proof.
  unfold removeLayer. rewrite filter_In.
  destruct (Nat.eqb layer held) eqn:E.
  - apply Nat.eqb_eq in E. simpl. split; [intros [_ H]; discriminate|].
    intros [H _]. congruence.
  - apply Nat.eqb_neq in E. simpl. intuition congruence.
Qed.

Section Toggle.

Variable toFixed : nat -> R -> string.

(** X13.  [handleTripToggle] on a checkbox whose id is not in
    [tripLayers] throws before it changes anything: neither the map nor the
    totals shown are touched.  For a registered id it returns; afterwards
    the group of that trip is on the map exactly when the box is ticked,
    every other group is where it was, [tripLayers] is unchanged and the
    totals shown are those of the checkboxes. *)
Theorem toggle_effect (checkboxes : list checkbox) (target : checkbox)
  (p : page) :
  (lookup (tripLayers p) (dataTripId target) = None ->
   handleTripToggle toFixed checkboxes target p = Throws "TypeError") /\
  (forall layers,
   lookup (tripLayers p) (dataTripId target) = Some layers ->
   exists p',
     handleTripToggle toFixed checkboxes target p = Returns p' /\
     tripLayers p' = tripLayers p /\
     shown p' = updateAnalytics toFixed (tripLayers p) checkboxes /\
     (In (stamp (group layers)) (onMap p') <-> checked target = true) /\
     (forall held, held <> stamp (group layers) ->
        (In held (onMap p') <-> In held (onMap p)))).
Proof.
  unfold handleTripToggle. split.
  - intros ->. reflexivity.
  - intros layers ->. eexists. split; [reflexivity|].
    cbn [tripLayers shown onMap].
    split; [reflexivity|]. split; [reflexivity|].
    destruct (checked target); split.
    + rewrite addLayer_In. tauto.
    + intros held Hne. rewrite addLayer_In. tauto.
    + rewrite removeLayer_In. split; [tauto | discriminate].
    + intros held Hne. rewrite removeLayer_In. tauto.
Qed.

End Toggle.

(** ** Trips that share an id *)

Section SharedId.

Variable toFixed : nat -> R -> string.

(** Whatever [tripLayers] holds for an id is the entry of the last trip
    with that id. *)
Lemma lookup_is_last (tripsData : list trip) (texts : analytics) :
  forall (id : nat) (entry : layerEntry),
  lookup (tripLayers (createAllTripLayers toFixed tripsData (mkPage [] [] texts)))
         id = Some entry ->
  exists k t,
    nth_error tripsData k = Some t /\ tripId t = id /\
    stamp (group entry) = k /\
    forall j t', (k < j)%nat -> nth_error tripsData j = Some t' ->
                 tripId t' <> id.
Proof.
  induction tripsData as [|t' tripsData IH] using rev_ind; intros id entry H.
  - discriminate.
  - rewrite createAllTripLayers_snoc in H. unfold createTripLayers in H.
    simpl in H. rewrite lookup_assign in H.
    destruct (Nat.eqb (tripId t') id) eqn:E.
    + apply Nat.eqb_eq in E. injection H as <-.
      exists (length tripsData), t'. split.
      { rewrite nth_error_app2 by lia. now rewrite Nat.sub_diag. }
      split; [exact E|]. split; [reflexivity|].
      intros j t'' Hj Hnth.
      assert (Hlen : (j < length (tripsData ++ [t']))%nat)
        by (apply nth_error_Some; congruence).
      rewrite length_app in Hlen. simpl in Hlen. lia.
    + apply Nat.eqb_neq in E.
      destruct (IH id entry H) as (k & t & Hk & Hid & Hs & Hlater).
      assert (Hlt : (k < length tripsData)%nat)
        by (apply nth_error_Some; congruence).
      exists k, t. split; [now rewrite nth_error_app1|].
      split; [exact Hid|]. split; [exact Hs|].
      intros j t'' Hj Hnth.
      destruct (Nat.lt_ge_cases j (length tripsData)) as [Hjl|Hjl].
      * rewrite nth_error_app1 in Hnth by exact Hjl. now apply (Hlater j).
      * rewrite nth_error_app2 in Hnth by exact Hjl.
        destruct (j - length tripsData)%nat as [|m]; [|destruct m; discriminate].
        injection Hnth as <-. exact E.
Qed.

Lemma afterEvents_keeps (events : list (list checkbox * checkbox)) :
  forall (p : page) (i : nat),
  (forall id entry, lookup (tripLayers p) id = Some entry ->
                    stamp (group entry) <> i) ->
  In i (onMap p) ->
  In i (onMap (afterEvents toFixed events p)).
Proof.
  induction events as [|[cbs target] events IH]; intros p i Hreg Hin;
    [exact Hin|].
  unfold afterEvents. cbn [fold_left fst snd].
  fold (afterEvents toFixed events).
  unfold handleTripToggle.
  destruct (lookup (tripLayers p) (dataTripId target)) as [entry|] eqn:E.
  - apply IH; cbn [tripLayers onMap]; [exact Hreg|].
    pose proof (Hreg _ _ E) as Hne.
    destruct (checked target).
    + apply addLayer_In. now right.
    + apply removeLayer_In. split; [congruence | exact Hin].
  - now apply IH.
Qed.

(** X14.  When two trips have the same id, the group of the earlier one
    is on the map after [tripsData.forEach] and stays there whatever boxes
    are ticked or cleared afterwards: [tripLayers] only knows the later
    trip, so no change event can reach the earlier group. *)
Theorem shadowed_group_stays (tripsData : list trip) (texts : analytics)
  (i j : nat) (earlier later : trip)
  (events : list (list checkbox * checkbox)) :
  nth_error tripsData i = Some earlier ->
  nth_error tripsData j = Some later ->
  (i < j)%nat -> tripId later = tripId earlier ->
  In i (onMap (afterEvents toFixed events
                 (createAllTripLayers toFixed tripsData (mkPage [] [] texts)))).
Proof.
  intros Hi Hj Hlt Hid. apply afterEvents_keeps.
  - intros id entry H E.
    destruct (lookup_is_last tripsData texts id entry H)
      as (k & t & Hk & Htid & Hs & Hlater).
    rewrite E in Hs. subst k.
    assert (t = earlier) by congruence. subst t.
    apply (Hlater j later Hlt Hj). congruence.
  - rewrite createAllTripLayers_onMap. apply in_seq.
    assert (i < length tripsData)%nat by (apply nth_error_Some; congruence).
    lia.
Qed.

End SharedId.

(** ** The theorems on trips, at concrete trips *)

Lemma shadowed_group_stays_witness :
  In 0%nat
     (onMap (afterEvents plainFixed
               [([mkCheckbox 7 false], mkCheckbox 7 false)]
               (createAllTripLayers plainFixed [flight 7; flight 7]
                  (mkPage [] [] noTexts)))).
Proof.
  apply (shadowed_group_stays plainFixed [flight 7; flight 7]
           noTexts 0 1 (flight 7) (flight 7));
    [reflexivity | reflexivity | lia | reflexivity].
Defined.

(** ** Splitting twice *)

(** X15.  On an input with every longitude in [[-180,180]] the dashboard
    splitter finishes its work in one pass: each segment it returns is
    non-empty and splitting that segment again returns the segment alone,
    unchanged. *)
Theorem split_again_is_identity (points : list point) :
  Forall lonInRange points ->
  Forall (fun seg => splitAtAntimeridian seg = [seg])
         (splitAtAntimeridian points).
Proof.
  intros H. destruct points as [|p points].
  - constructor.
  - pose proof (split_noJump (p :: points) H) as Hno.
    destruct (splitLoop_counts (p :: points) ltac:(discriminate))
      as (_ & _ & Hall & _ & Hcur).
    assert (Hne : Forall (fun seg => seg <> [])
                         (splitAtAntimeridian (p :: points))).
    { unfold splitAtAntimeridian, finish.
      destruct (splitLoop (p :: points)) as [sg cur]. simpl in *.
      destruct cur as [|c cur]; [now elim Hcur|].
      apply Forall_app. split.
      - eapply Forall_impl; [|exact Hall]. intros s Hs E. subst s.
        simpl in Hs. lia.
      - constructor; [discriminate | constructor]. }
    rewrite Forall_forall in *. intros seg Hin.
    apply split_noJump_single; [now apply Hne | now apply Hno].
Qed.

Lemma split_again_is_identity_witness :
  Forall (fun seg => splitAtAntimeridian seg = [seg])
         (splitAtAntimeridian [(0, 170); (0, -170)]).
Proof. exact (split_again_is_identity [(0, 170); (0, -170)] in_range_170). Defined.

(** ** Along the equator *)

Lemma equator_cosine_sum (Δλ : R) :
  sin (0 * toRad) * sin (0 * toRad)
  + cos (0 * toRad) * cos (0 * toRad) * cos Δλ = cos Δλ.
Proof. rewrite Rmult_0_l, sin_0, cos_0. ring. Qed.

Lemma equator_bearing (Δλ : R) :
  initialBearing (0 * toRad) (0 * toRad) Δλ = atan2 (sin Δλ) 0.
Proof.
  unfold initialBearing. rewrite Rmult_0_l, sin_0, cos_0. f_equal; ring.
Qed.

Lemma equator_point (λ1 Δσ θ : R) (n i : nat) :
  cos θ = 0 ->
  geodesicPoint (0 * toRad) λ1 Δσ θ n i =
  (0, (λ1 + atan2 (sin θ * sin (INR i / INR n * Δσ))
                  (cos (INR i / INR n * Δσ))) * 180 / PI).
Proof.
  intros Hc. unfold geodesicPoint. rewrite Rmult_0_l, sin_0, cos_0, Hc.
  replace (0 * cos (INR i / INR n * Δσ) + 1 * sin (INR i / INR n * Δσ) * 0)
    with 0 by ring.
  rewrite asin_0, sin_0.
  replace (sin θ * sin (INR i / INR n * Δσ) * 1)
    with (sin θ * sin (INR i / INR n * Δσ)) by ring.
  replace (cos (INR i / INR n * Δσ) - 0 * 0)
    with (cos (INR i / INR n * Δσ)) by ring.
  f_equal. unfold Rdiv. ring.
Qed.

Lemma equator_centralAngle (lon1 lon2 : R) :
  -180 < unwrappedLon lon1 lon2 - lon1 < 180 ->
  centralAngle 0 lon1 0 lon2 =
  Rabs ((unwrappedLon lon1 lon2 - lon1) * toRad).
Proof.
  intros Hd. pose proof PI_RGT_0 as Hpi.
  set (d := unwrappedLon lon1 lon2 - lon1) in *.
  assert (Hrange : - PI < d * toRad < PI) by (unfold toRad; split; nra).
  unfold centralAngle, acosArgument.
  replace (unwrapλ2 (lon1 * toRad) (lon2 * toRad) - lon1 * toRad)
    with (d * toRad) by (rewrite unwrapλ2_degrees; unfold d; ring).
  rewrite equator_cosine_sum, clampUnit_id by apply COS_bound.
  unfold Rabs. destruct (Rcase_abs (d * toRad)).
  - rewrite <- cos_neg. apply acos_cos. lra.
  - apply acos_cos. lra.
Qed.

(** X16.  Between two points of the equator whose longitudes lie in
    [[-180,180]] and are neither equal up to a turn nor half a turn apart,
    the interpolated points stay on the equator and are evenly spaced in
    longitude along the shorter way: point [i] of [n] lies at
    [lon1 + i / n * d], where [d] is the difference of the longitudes
    after the wrap. *)
Theorem equator_path (lon1 lon2 : R) (n : nat) :
  (1 <= n)%nat ->
  -180 <= lon1 <= 180 -> -180 <= lon2 <= 180 ->
  let d := unwrappedLon lon1 lon2 - lon1 in
  -180 < d < 180 ->
  ~ centralAngle 0 lon1 0 lon2 < 0.001 ->
  calculateGeodesicPoints 0 lon1 0 lon2 n =
  map (fun i => (0, lon1 + INR i / INR n * d)) (seq 0 (S n)).
Proof.
  intros Hn H1 H2 d Hd Hreg. pose proof PI_RGT_0 as Hpi.
  rewrite calculateGeodesicPoints_regular by exact Hreg.
  assert (EΔ : unwrapλ2 (lon1 * toRad) (lon2 * toRad) - lon1 * toRad
               = d * toRad).
  { rewrite unwrapλ2_degrees. unfold d. ring. }
  assert (Hrange : - PI < d * toRad < PI) by (unfold toRad; split; nra).
  assert (Eσ : centralAngle 0 lon1 0 lon2 = Rabs (d * toRad))
    by (apply equator_centralAngle; exact Hd).
  assert (Hnz : d * toRad <> 0).
  { intros E. apply Hreg. rewrite Eσ, E, Rabs_R0. lra. }
  rewrite EΔ, equator_bearing, Eσ.
  apply map_ext_in. intros i Hi. apply in_seq in Hi.
  pose proof (fraction_range n i Hn ltac:(lia)) as Hf.
  set (f := INR i / INR n) in *.
  destruct (Rlt_dec 0 (d * toRad)) as [Hpos|Hneg].
  - assert (Hs : 0 < sin (d * toRad)) by (apply sin_gt_0; lra).
    assert (Eθ : atan2 (sin (d * toRad)) 0 = PI / 2).
    { unfold atan2. destruct (Rlt_dec 0 0); [lra|].
      destruct (Rlt_dec 0 (sin (d * toRad))); [reflexivity | lra]. }
    rewrite Eθ, equator_point by apply cos_PI2. fold f.
    rewrite sin_PI2, Rabs_right by lra. f_equal.
    rewrite <- (Rmult_1_l (cos (f * (d * toRad)))).
    rewrite atan2_polar by (try lra; split; nra).
    unfold toRad. field. lra.
  - assert (Hlt : d * toRad < 0) by lra.
    assert (Hs : sin (d * toRad) < 0) by (apply sin_lt_0_var; lra).
    assert (Eθ : atan2 (sin (d * toRad)) 0 = - (PI / 2)).
    { unfold atan2. destruct (Rlt_dec 0 0); [lra|].
      destruct (Rlt_dec 0 (sin (d * toRad))); [lra|].
      destruct (Rlt_dec (sin (d * toRad)) 0); [reflexivity | lra]. }
    rewrite Eθ, equator_point by (rewrite cos_neg; apply cos_PI2). fold f.
    rewrite sin_neg, sin_PI2, Rabs_left by lra. f_equal.
    replace (- (1) * sin (f * - (d * toRad)))
      with (1 * sin (f * (d * toRad)))
      by (replace (f * - (d * toRad)) with (- (f * (d * toRad))) by ring;
          rewrite sin_neg; ring).
    replace (cos (f * - (d * toRad)))
      with (1 * cos (f * (d * toRad)))
      by (replace (f * - (d * toRad)) with (- (f * (d * toRad))) by ring;
          rewrite cos_neg; ring).
    rewrite atan2_polar by (try lra; split; nra).
    unfold toRad. field. lra.
Qed.

Lemma quarter_turn_unwrapped : unwrappedLon 0 90 = 90.
Proof.
  unfold unwrappedLon. destruct (Rgt_dec (Rabs (90 - 0)) 180) as [H|H];
    [|reflexivity].
  apply (proj1 (crosses_far 0 90)) in H. lra.
Qed.

Lemma quarter_turn_regular : ~ centralAngle 0 0 0 90 < 0.001.
Proof.
  rewrite equator_centralAngle by (rewrite quarter_turn_unwrapped; lra).
  rewrite quarter_turn_unwrapped. pose proof PI2_1 as H.
  replace ((90 - 0) * toRad) with (PI / 2) by (unfold toRad; field).
  rewrite Rabs_right by lra. lra.
Qed.

Lemma equator_path_witness :
  calculateGeodesicPoints 0 0 0 90 2 =
  map (fun i => (0, 0 + INR i / INR 2 * (unwrappedLon 0 90 - 0)))
      (seq 0 3).
Proof.
  apply (equator_path 0 90 2); try lra; try lia.
  - rewrite quarter_turn_unwrapped. lra.
  - exact quarter_turn_regular.
Defined.

(** ** The theorems on layers and totals, at concrete inputs *)

Lemma styles_and_popups_witness :
  Forall (fun marker => markerPopup marker = None)
         (createInfiniteMarker (0, 0)
            (mkMarkerOptions None None None None None) EmptyString).
Proof.
  exact (proj2 (proj2 (styles_and_popups (0, 0) (0, 0) (0, 0) plainOptions
                         (mkMarkerOptions None None None None None)
                         EmptyString)) eq_refl).
Defined.

Lemma trips_registered_witness :
  lookup (tripLayers (createAllTripLayers plainFixed [flight 7]
                        (mkPage [] [] noTexts)))
         8%nat = None.
Proof.
  apply (proj2 (proj2 (trips_registered plainFixed [flight 7]
                         noTexts ltac:(discriminate)))).
  intros t [<-|[]]. discriminate.
Defined.

Lemma trip_group_layers_witness :
  markerPopup
    (markerCopy (35.7, 139.7)
       (mkMarkerOptions (Some 8) (Some "#0066cc"%string)
                        (Some "#0066cc"%string) (Some 0.8) (Some 2))
       "<b>Origin:</b> HND" 0) =
  Some "<b>Origin:</b> HND"%string.
Proof.
  apply (proj1 (proj2 (proj2 (proj2 (proj2 (proj2 (proj2 (proj2 (proj2
           (trip_group_layers plainFixed 0 (flight 7))))))))))).
  unfold tripGroup, originGroup, createInfiniteMarker.
  rewrite worldOffsets_values. simpl. right. right. left. reflexivity.
Defined.

Lemma analytics_totals_witness :
  visibleTotals [] ([] ++ mkCheckbox 7 false :: []) = mkTotals 0 0 0.
Proof.
  apply (proj1 (proj2 (analytics_totals [] [] [] 7%nat))). constructor.
Defined.

Lemma toggle_effect_witness :
  handleTripToggle plainFixed [] (mkCheckbox 7 true)
    (mkPage [] [] noTexts) = Throws "TypeError".
Proof.
  exact (proj1 (toggle_effect plainFixed [] (mkCheckbox 7 true)
                  (mkPage [] [] noTexts)) eq_refl).
Defined.

(** * Rounded arithmetic *)

(** ** [Math.acos], [Math.asin] and the clamp on a machine *)

Lemma machine_acos_in_domain (M : Doubles.machine) (x : R) :
  -1 <= x <= 1 -> Doubles.Math_acos M x = Some (Doubles.acosOn M x).
Proof.
  intros [H1 H2]. unfold Doubles.Math_acos.
  destruct (Rle_dec (-1) x); [|contradiction].
  destruct (Rle_dec x 1); [reflexivity | contradiction].
Qed.

Lemma machine_acos_nan (M : Doubles.machine) (x : R) :
  Doubles.Math_acos M x = None <-> ~ -1 <= x <= 1.
Proof.
  unfold Doubles.Math_acos.
  destruct (Rle_dec (-1) x); [destruct (Rle_dec x 1)|]; split;
    intros H; try discriminate; try reflexivity; try lra.
Qed.

Lemma machine_asin_in_domain (M : Doubles.machine) (x : R) :
  -1 <= x <= 1 -> Doubles.Math_asin M x = Some (Doubles.asinOn M x).
Proof.
  intros [H1 H2]. unfold Doubles.Math_asin.
  destruct (Rle_dec (-1) x); [|contradiction].
  destruct (Rle_dec x 1); [reflexivity | contradiction].
Qed.

Lemma machine_asin_nan (M : Doubles.machine) (x : R) :
  Doubles.Math_asin M x = None <-> ~ -1 <= x <= 1.
Proof.
  unfold Doubles.Math_asin.
  destruct (Rle_dec (-1) x); [destruct (Rle_dec x 1)|]; split;
    intros H; try discriminate; try reflexivity; try lra.
Qed.

Lemma clampUnit_above (x : R) : 1 < x -> clampUnit x = 1.
Proof.
  intros H. unfold clampUnit, Rmax, Rmin.
  destruct (Rle_dec 1 x); [|lra]. destruct (Rle_dec (-1) 1); lra.
Qed.

Lemma clampUnit_below (x : R) : x < -1 -> clampUnit x = -1.
Proof.
  intros H. unfold clampUnit, Rmax, Rmin.
  destruct (Rle_dec 1 x); [lra|]. destruct (Rle_dec (-1) x); lra.
Qed.

Lemma machine_centralAngle (M : Doubles.machine) (lat1 lon1 lat2 lon2 : R) :
  Doubles.centralAngle M lat1 lon1 lat2 lon2 =
  Some (Doubles.acosOn M (Doubles.acosArgument M lat1 lon1 lat2 lon2)).
Proof. apply machine_acos_in_domain, clampUnit_range. Qed.

(** ** The branches of the two interpolators *)

Lemma machine_path_degenerate (M : Doubles.machine) (lat1 lon1 lat2 lon2 Δσ : R)
  (n : nat) :
  Doubles.centralAngle M lat1 lon1 lat2 lon2 = Some Δσ -> Δσ < 0.001 ->
  Doubles.calculateGeodesicPoints M lat1 lon1 lat2 lon2 n =
  [Some (lat1, lon1); Some (lat2, lon2)].
Proof.
  intros E H. unfold Doubles.calculateGeodesicPoints. rewrite E.
  destruct (Rlt_dec Δσ 0.001); [reflexivity | contradiction].
Qed.

Lemma machine_path_regular (M : Doubles.machine) (lat1 lon1 lat2 lon2 Δσ : R)
  (n : nat) :
  Doubles.centralAngle M lat1 lon1 lat2 lon2 = Some Δσ -> ~ Δσ < 0.001 ->
  exists φ1 λ1 θ,
    Doubles.calculateGeodesicPoints M lat1 lon1 lat2 lon2 n =
    map (Doubles.geodesicPoint M φ1 λ1 Δσ θ n) (seq 0 (S n)) /\
    λ1 = Doubles.fl M (lon1 * Doubles.toRad M).
Proof.
  intros E H. unfold Doubles.calculateGeodesicPoints. rewrite E.
  destruct (Rlt_dec Δσ 0.001); [contradiction|].
  do 3 eexists. split; reflexivity.
Qed.

Lemma machine_path_length (M : Doubles.machine) (lat1 lon1 lat2 lon2 Δσ : R)
  (n : nat) :
  Doubles.centralAngle M lat1 lon1 lat2 lon2 = Some Δσ -> ~ Δσ < 0.001 ->
  length (Doubles.calculateGeodesicPoints M lat1 lon1 lat2 lon2 n) = S n.
Proof.
  intros E H.
  destruct (machine_path_regular M lat1 lon1 lat2 lon2 Δσ n E H)
    as (φ1 & λ1 & θ & -> & _).
  now rewrite length_map, length_seq.
Qed.

Lemma machine_circle_nan (M : Doubles.machine) (lat1 lon1 lat2 lon2 : R)
  (n fuel : nat) :
  Doubles.GeodesicLine.centralAngle M lat1 lon1 lat2 lon2 = None ->
  Doubles.GeodesicLine.calculateGreatCircle M fuel lat1 lon1 lat2 lon2 n =
  [(lat1, lon1); (lat2, lon2)].
Proof.
  intros E. unfold Doubles.GeodesicLine.calculateGreatCircle. now rewrite E.
Qed.

Lemma machine_circle_degenerate (M : Doubles.machine)
  (lat1 lon1 lat2 lon2 Δσ : R) (n fuel : nat) :
  Doubles.GeodesicLine.centralAngle M lat1 lon1 lat2 lon2 = Some Δσ ->
  Δσ < 0.001 ->
  Doubles.GeodesicLine.calculateGreatCircle M fuel lat1 lon1 lat2 lon2 n =
  [(lat1, lon1); (lat2, lon2)].
Proof.
  intros E H. unfold Doubles.GeodesicLine.calculateGreatCircle. rewrite E.
  destruct (Rlt_dec Δσ 0.001); [reflexivity | contradiction].
Qed.

Lemma machine_circle_length (M : Doubles.machine)
  (lat1 lon1 lat2 lon2 Δσ : R) (n fuel : nat) :
  Doubles.GeodesicLine.centralAngle M lat1 lon1 lat2 lon2 = Some Δσ ->
  ~ Δσ < 0.001 ->
  length (Doubles.GeodesicLine.calculateGreatCircle M fuel lat1 lon1 lat2 lon2 n)
  = S n.
Proof.
  intros E H. unfold Doubles.GeodesicLine.calculateGreatCircle. rewrite E.
  destruct (Rlt_dec Δσ 0.001); [contradiction|].
  now rewrite length_map, length_seq.
Qed.

(** ** The recorded run *)

Ltac constants :=
  unfold Doubles.πd, Doubles.toRadD, Doubles.φd, Doubles.sinD, Doubles.cosD,
    Doubles.sinSquareD, Doubles.cosSquareD, Doubles.sumD in *.

Ltac rounding :=
  unfold Doubles.roundD;
  repeat match goal with
         | |- context [Req_dec_T ?a ?b] =>
             destruct (Req_dec_T a b) as [?E|?N]
         end;
  try reflexivity;
  try (constants; lra);
  try (exfalso; match goal with N : _ <> _ |- _ => apply N end;
       constants; lra).

Lemma roundD_zero : Doubles.roundD 0 = 0.
Proof. rounding. Qed.

Lemma roundD_toRad : Doubles.roundD (Doubles.πd / 180) = Doubles.toRadD.
Proof. rounding. Qed.

Lemma roundD_8π : Doubles.roundD (8 * Doubles.πd) = 8 * Doubles.πd.
Proof. rounding. Qed.

Lemma roundD_φ_class : Doubles.roundD (8 * Doubles.πd / 180) = Doubles.φd.
Proof. rounding. Qed.

Lemma roundD_φ_dashboard : Doubles.roundD (8 * Doubles.toRadD) = Doubles.φd.
Proof. rounding. Qed.

Lemma roundD_sinSquare :
  Doubles.roundD (Doubles.sinD * Doubles.sinD) = Doubles.sinSquareD.
Proof. rounding. Qed.

Lemma roundD_cosSquare :
  Doubles.roundD (Doubles.cosD * Doubles.cosD) = Doubles.cosSquareD.
Proof. rounding. Qed.

Lemma roundD_cosSquare_1 :
  Doubles.roundD (Doubles.cosSquareD * 1) = Doubles.cosSquareD.
Proof. rounding. Qed.

Lemma roundD_sum :
  Doubles.roundD (Doubles.sinSquareD + Doubles.cosSquareD) = Doubles.sumD.
Proof. rounding. Qed.

Lemma sumD_overshoots : 1 < Doubles.sumD.
Proof. constants. lra. Qed.

Ltac on_recorded :=
  unfold Doubles.recorded;
  cbn [Doubles.fl Doubles.Math_PI Doubles.Math_sin Doubles.Math_cos
       Doubles.asinOn Doubles.acosOn Doubles.Math_atan2].

Lemma recorded_sines :
  (if Req_dec_T Doubles.φd Doubles.φd then Doubles.sinD else sin Doubles.φd)
  = Doubles.sinD /\
  (if Req_dec_T Doubles.φd Doubles.φd then Doubles.cosD else cos Doubles.φd)
  = Doubles.cosD /\
  (if Req_dec_T 0 Doubles.φd then Doubles.cosD else cos 0) = 1.
Proof.
  destruct (Req_dec_T Doubles.φd Doubles.φd) as [_|N]; [|now elim N].
  destruct (Req_dec_T 0 Doubles.φd) as [E|_]; [constants; lra|].
  now rewrite cos_0.
Qed.

(** The sum of [GeodesicLine] on the point (8, 0) taken twice. *)
Lemma recorded_class_sum :
  Doubles.GeodesicLine.cosineSum Doubles.recorded 8 0 8 0 = Doubles.sumD.
Proof.
  unfold Doubles.GeodesicLine.cosineSum. on_recorded.
  rewrite roundD_8π, roundD_φ_class.
  replace (0 * Doubles.πd) with 0 by ring. rewrite roundD_zero.
  replace (0 / 180) with 0 by (unfold Rdiv; ring). rewrite roundD_zero.
  replace (0 - 0) with 0 by ring. rewrite roundD_zero.
  destruct recorded_sines as (-> & -> & ->).
  rewrite roundD_sinSquare, roundD_cosSquare, roundD_cosSquare_1.
  apply roundD_sum.
Qed.

Lemma recorded_toRad : Doubles.toRad Doubles.recorded = Doubles.toRadD.
Proof. unfold Doubles.toRad. on_recorded. apply roundD_toRad. Qed.

Lemma recorded_no_wrap : Doubles.unwrapλ2 Doubles.recorded 0 0 = 0.
Proof.
  unfold Doubles.unwrapλ2. on_recorded.
  replace (0 - 0) with 0 by ring. rewrite roundD_zero.
  replace (0 * 180) with 0 by ring. rewrite roundD_zero.
  replace (0 / Doubles.πd) with 0 by (unfold Rdiv; ring). rewrite roundD_zero.
  rewrite Rabs_R0. destruct (Rgt_dec 0 180); [lra | reflexivity].
Qed.

(** The sum of the dashboard there is the same. *)
Lemma recorded_dashboard_sum :
  Doubles.cosineSum Doubles.recorded 8 0 8 0 = Doubles.sumD.
Proof.
  unfold Doubles.cosineSum. rewrite recorded_toRad.
  assert (Eφ : Doubles.fl Doubles.recorded (8 * Doubles.toRadD) = Doubles.φd)
    by (on_recorded; apply roundD_φ_dashboard).
  assert (Eλ : Doubles.fl Doubles.recorded (0 * Doubles.toRadD) = 0).
  { on_recorded. replace (0 * Doubles.toRadD) with 0 by ring.
    apply roundD_zero. }
  rewrite Eφ, Eλ, recorded_no_wrap. on_recorded.
  replace (0 - 0) with 0 by ring. rewrite roundD_zero.
  destruct recorded_sines as (-> & -> & ->).
  rewrite roundD_sinSquare, roundD_cosSquare, roundD_cosSquare_1.
  apply roundD_sum.
Qed.

Lemma recorded_class_angle :
  Doubles.GeodesicLine.centralAngle Doubles.recorded 8 0 8 0 = None.
Proof.
  unfold Doubles.GeodesicLine.centralAngle. rewrite recorded_class_sum.
  apply machine_acos_nan. pose proof sumD_overshoots. lra.
Qed.

Lemma recorded_dashboard_angle :
  Doubles.acosArgument Doubles.recorded 8 0 8 0 = 1 /\
  Doubles.centralAngle Doubles.recorded 8 0 8 0 = Some 0.
Proof.
  assert (E : Doubles.acosArgument Doubles.recorded 8 0 8 0 = 1).
  { unfold Doubles.acosArgument. rewrite recorded_dashboard_sum.
    apply clampUnit_above, sumD_overshoots. }
  split; [exact E|].
  rewrite machine_centralAngle, E. on_recorded. now rewrite acos_1.
Qed.

(** ** Accurate machines *)

Lemma Rabs_between (x a : R) : Rabs x <= a -> - a <= x <= a.
Proof. unfold Rabs. destruct (Rcase_abs x); lra. Qed.

Lemma exact_accurate : Doubles.accurate Doubles.exact.
Proof.
  assert (Ht : 0 < Doubles.tolerance) by (unfold Doubles.tolerance; lra).
  assert (H0 : Rabs 0 <= Doubles.tolerance) by (rewrite Rabs_R0; lra).
  constructor; simpl.
  - intros x. replace (x - x) with 0 by ring. rewrite Rabs_R0.
    pose proof (Rabs_pos x). nra.
  - now replace (PI - PI) with 0 by ring.
  - intros x. now replace (sin x - sin x) with 0 by ring.
  - intros x. now replace (cos x - cos x) with 0 by ring.
  - intros x _. now replace (acos x - acos x) with 0 by ring.
  - intros x. apply Rabs_le. pose proof (asin_bound x). lra.
  - intros y x. apply Rabs_le. pose proof (atan2_bounds y x). lra.
Qed.

(** The rounded result lies within the tolerance of the exact one. *)
Lemma fl_within (M : Doubles.machine) (x B : R) :
  Doubles.accurate M -> - B <= x <= B ->
  x - (Doubles.tolerance * B + Doubles.tolerance) <= Doubles.fl M x
  <= x + (Doubles.tolerance * B + Doubles.tolerance).
Proof.
  intros HM Hx. pose proof (Doubles.fl_error M HM x) as H.
  assert (Ha : Rabs x <= B) by now apply Rabs_le.
  assert (Ht : 0 < Doubles.tolerance) by (unfold Doubles.tolerance; lra).
  apply Rabs_between in H. nra.
Qed.

Lemma machine_PI_range (M : Doubles.machine) :
  Doubles.accurate M -> 2.9 <= Doubles.Math_PI M <= 4.1.
Proof.
  intros HM. pose proof (Doubles.PI_error M HM) as H.
  apply Rabs_between in H. unfold Doubles.tolerance in H.
  pose proof PI_4. pose proof PI2_3_2. lra.
Qed.

Lemma sin_near (M : Doubles.machine) (x : R) :
  Doubles.accurate M ->
  sin x - Doubles.tolerance <= Doubles.Math_sin M x <= sin x + Doubles.tolerance.
Proof.
  intros HM. pose proof (Doubles.sin_error M HM x) as H.
  apply Rabs_between in H. lra.
Qed.

Lemma cos_near (M : Doubles.machine) (x : R) :
  Doubles.accurate M ->
  cos x - Doubles.tolerance <= Doubles.Math_cos M x <= cos x + Doubles.tolerance.
Proof.
  intros HM. pose proof (Doubles.cos_error M HM x) as H.
  apply Rabs_between in H. lra.
Qed.

(** ** A point interpolated with itself *)

Lemma sin_le_abs (y : R) : - Rabs y <= sin y <= Rabs y.
Proof.
  pose proof (SIN_bound y) as Hb. pose proof PI2_3_2 as Hpi.
  unfold Rabs. destruct (Rcase_abs y) as [H|H].
  - pose proof (sin_gt_x y H). split; [lra|].
    destruct (Rle_dec 1 (- y)); [lra|].
    pose proof (sin_gt_0 (- y) ltac:(lra) ltac:(lra)) as H1.
    rewrite sin_neg in H1. lra.
  - destruct (Req_dec_T y 0) as [->|Hn]; [rewrite sin_0; lra|].
    pose proof (sin_lt_x y ltac:(lra)). split; [|lra].
    destruct (Rle_dec 1 y); [lra|].
    pose proof (sin_gt_0 y ltac:(lra) ltac:(lra)). lra.
Qed.

Lemma cos_near_one (d : R) : - 0.0001 <= d <= 0.0001 -> 1 - 0.00000001 <= cos d <= 1.
Proof.
  intros Hd. split; [|apply COS_bound].
  replace d with (2 * (d / 2)) by field. rewrite cos_2a_sin.
  pose proof (sin_le_abs (d / 2)) as Hs.
  assert (Ha : Rabs (d / 2) <= 0.00005) by (apply Rabs_le; lra).
  nra.
Qed.

(** The sum of products of the two interpolators, on the sine and cosine of
    one angle and the cosine of a difference that is all rounding. *)
Lemma same_point_sum (M : Doubles.machine) (a d : R) :
  Doubles.accurate M -> - 0.0001 <= d <= 0.0001 ->
  1 - 0.0000001 <=
  Doubles.fl M
    (Doubles.fl M (Doubles.Math_sin M a * Doubles.Math_sin M a) +
     Doubles.fl M
       (Doubles.fl M (Doubles.Math_cos M a * Doubles.Math_cos M a) *
        Doubles.Math_cos M d)).
Proof.
  intros HM Hd.
  pose proof (sin_near M a HM) as Hs. pose proof (cos_near M a HM) as Hc.
  pose proof (cos_near M d HM) as Hk. pose proof (cos_near_one d Hd) as Hk1.
  pose proof (sin2_cos2 a) as H1. unfold Rsqr in H1.
  pose proof (SIN_bound a) as Hsb. pose proof (COS_bound a) as Hcb.
  unfold Doubles.tolerance in *.
  set (s := Doubles.Math_sin M a) in *. set (c := Doubles.Math_cos M a) in *.
  set (k := Doubles.Math_cos M d) in *.
  set (S := sin a) in *. set (C := cos a) in *.
  assert (Hss : S * S - 0.00000001 <= s * s <= 1.1) by nra.
  assert (Hcc : C * C - 0.00000001 <= c * c <= 1.1) by nra.
  pose proof (fl_within M (s * s) 2 HM ltac:(nra)) as Hr1.
  pose proof (fl_within M (c * c) 2 HM ltac:(nra)) as Hr2.
  unfold Doubles.tolerance in *.
  set (r1 := Doubles.fl M (s * s)) in *. set (r2 := Doubles.fl M (c * c)) in *.
  assert (Hp3 : r2 - 0.00000003 <= r2 * k <= 1.2) by nra.
  pose proof (fl_within M (r2 * k) 2 HM ltac:(nra)) as Hr3.
  unfold Doubles.tolerance in *.
  set (r3 := Doubles.fl M (r2 * k)) in *.
  pose proof (fl_within M (r1 + r3) 3 HM ltac:(nra)) as Hr4.
  unfold Doubles.tolerance in *. lra.
Qed.

Lemma cos_half_milliradian : cos 0.0005 <= 1 - 0.0000001.
Proof.
  replace 0.0005 with (2 * 0.00025) by lra. rewrite cos_2a_sin.
  pose proof (sin_bound 0.00025 0 ltac:(lra) ltac:(pose proof PI2_3_2; lra))
    as [H _].
  unfold sin_approx, sin_term in H. simpl in H. nra.
Qed.

(** The arc cosine a machine has for a value that close to 1. *)
Lemma small_angle (M : Doubles.machine) (x : R) :
  Doubles.accurate M -> 1 - 0.0000001 <= x <= 1 ->
  Doubles.acosOn M x < 0.001.
Proof.
  intros HM Hx. pose proof (Doubles.acos_error M HM x ltac:(lra)) as H.
  apply Rabs_between in H. unfold Doubles.tolerance in H.
  assert (Ha : acos x <= 0.0005).
  { destruct (Rle_dec (acos x) 0.0005) as [|Hn]; [assumption|]. exfalso.
    pose proof (acos_bound x) as Hb. pose proof PI2_3_2.
    assert (Hlt : cos (acos x) < cos 0.0005)
      by (apply cos_decreasing_1; lra).
    rewrite cos_acos in Hlt by lra. pose proof cos_half_milliradian. lra. }
  lra.
Qed.

Lemma fl_zero (M : Doubles.machine) :
  Doubles.accurate M -> - 0.0001 <= Doubles.fl M 0 <= 0.0001.
Proof.
  intros HM. pose proof (fl_within M 0 0 HM ltac:(lra)) as H.
  unfold Doubles.tolerance in H. lra.
Qed.

Lemma quotient_small (y p : R) :
  2.9 <= p -> -1 <= y <= 1 -> -1 <= y / p <= 1.
Proof.
  intros Hp Hy. unfold Rdiv.
  assert (Hq : 0 < / p) by (apply Rinv_0_lt_compat; lra).
  assert (Hpq : p * / p = 1) by (apply Rinv_r; lra).
  split; nra.
Qed.

(** Between a longitude and itself no wrap is chosen. *)
Lemma machine_no_wrap_same (M : Doubles.machine) (λ : R) :
  Doubles.accurate M -> Doubles.unwrapλ2 M λ λ = λ.
Proof.
  intros HM. unfold Doubles.unwrapλ2.
  replace (λ - λ) with 0 by ring.
  pose proof (fl_zero M HM) as H0. pose proof (machine_PI_range M HM) as Hp.
  set (z0 := Doubles.fl M 0) in *.
  pose proof (fl_within M (z0 * 180) 1 HM ltac:(lra)) as H1.
  unfold Doubles.tolerance in H1. set (z1 := Doubles.fl M (z0 * 180)) in *.
  pose proof (quotient_small z1 (Doubles.Math_PI M) ltac:(lra) ltac:(lra)) as Hq.
  pose proof (fl_within M (z1 / Doubles.Math_PI M) 1 HM Hq) as H2.
  unfold Doubles.tolerance in H2.
  set (z2 := Doubles.fl M (z1 / Doubles.Math_PI M)) in *.
  destruct (Rgt_dec (Rabs z2) 180) as [H|H]; [|reflexivity].
  exfalso. assert (Ha : Rabs z2 <= 2) by (apply Rabs_le; lra). lra.
Qed.

Lemma clampUnit_near_one (x : R) :
  1 - 0.0000001 <= x -> 1 - 0.0000001 <= clampUnit x <= 1.
Proof.
  intros H. pose proof (clampUnit_range x) as Hr. split; [|lra].
  unfold clampUnit, Rmax, Rmin.
  destruct (Rle_dec 1 x); destruct (Rle_dec (-1) _); lra.
Qed.

Lemma machine_same_point (M : Doubles.machine) (lat lon : R) (n : nat) :
  Doubles.accurate M ->
  Doubles.calculateGeodesicPoints M lat lon lat lon n =
  [Some (lat, lon); Some (lat, lon)].
Proof.
  intros HM.
  apply machine_path_degenerate
    with (Δσ := Doubles.acosOn M (Doubles.acosArgument M lat lon lat lon));
    [apply machine_centralAngle|].
  apply small_angle; [exact HM|]. apply clampUnit_near_one.
  unfold Doubles.cosineSum. rewrite machine_no_wrap_same by exact HM.
  match goal with |- context [Doubles.fl M (?b - ?b)] =>
    replace (b - b) with 0 by ring end.
  apply same_point_sum; [exact HM | now apply fl_zero].
Qed.

Lemma machine_circle_same_point (M : Doubles.machine) (lat lon : R)
  (n fuel : nat) :
  Doubles.accurate M ->
  Doubles.GeodesicLine.calculateGreatCircle M fuel lat lon lat lon n =
  [(lat, lon); (lat, lon)].
Proof.
  intros HM.
  assert (Hsum : 1 - 0.0000001 <=
                 Doubles.GeodesicLine.cosineSum M lat lon lat lon).
  { unfold Doubles.GeodesicLine.cosineSum.
    match goal with |- context [Doubles.fl M (?b - ?b)] =>
      replace (b - b) with 0 by ring end.
    apply same_point_sum; [exact HM | now apply fl_zero]. }
  destruct (Doubles.GeodesicLine.centralAngle M lat lon lat lon) as [Δσ|] eqn:E;
    [|now apply machine_circle_nan].
  apply machine_circle_degenerate with (Δσ := Δσ); [exact E|].
  unfold Doubles.GeodesicLine.centralAngle in E.
  destruct (Rle_dec (Doubles.GeodesicLine.cosineSum M lat lon lat lon) 1)
    as [H1|H1].
  - rewrite machine_acos_in_domain in E by lra. injection E as <-.
    apply small_angle; [exact HM | lra].
  - exfalso. assert (Hn : Doubles.Math_acos M
                 (Doubles.GeodesicLine.cosineSum M lat lon lat lon) = None)
      by (apply machine_acos_nan; lra).
    congruence.
Qed.

(** ** Degrees computed on an accurate machine *)

Lemma to_degrees_bound (M : Doubles.machine) (x K : R) :
  Doubles.accurate M -> 0 <= K <= 2 ->
  - (K * Doubles.Math_PI M + 0.000001) <= x
    <= K * Doubles.Math_PI M + 0.000001 ->
  - (180 * K + 0.001)
    <= Doubles.fl M (Doubles.fl M (x * 180) / Doubles.Math_PI M)
    <= 180 * K + 0.001.
Proof.
  intros HM HK Hx. pose proof (machine_PI_range M HM) as Hp.
  set (p := Doubles.Math_PI M) in *.
  pose proof (fl_within M (x * 180) 1500 HM ltac:(nra)) as Hy.
  unfold Doubles.tolerance in Hy. set (y := Doubles.fl M (x * 180)) in *.
  assert (Hq : 0 < / p) by (apply Rinv_0_lt_compat; lra).
  assert (Hq1 : / p <= 1) by (rewrite <- Rinv_1; apply Rinv_le_contravar; lra).
  assert (Hpq : p * / p = 1) by (apply Rinv_r; lra).
  assert (Hy' : - (180 * K * p + 0.0002) <= y <= 180 * K * p + 0.0002) by lra.
  assert (E : (180 * K * p + 0.0002) * / p = 180 * K + 0.0002 * / p).
  { replace ((180 * K * p + 0.0002) * / p)
      with (180 * K * (p * / p) + 0.0002 * / p) by ring.
    rewrite Hpq. ring. }
  assert (Hd : - (180 * K + 0.0002) <= y / p <= 180 * K + 0.0002).
  { unfold Rdiv. split.
    - apply Rle_trans with (- ((180 * K * p + 0.0002) * / p)); [rewrite E; nra|].
      replace (- ((180 * K * p + 0.0002) * / p))
        with (- (180 * K * p + 0.0002) * / p) by ring.
      apply Rmult_le_compat_r; lra.
    - apply Rle_trans with ((180 * K * p + 0.0002) * / p); [|rewrite E; nra].
      apply Rmult_le_compat_r; lra. }
  pose proof (fl_within M (y / p) 361 HM ltac:(lra)) as Hz.
  unfold Doubles.tolerance in Hz. lra.
Qed.

(** [lon1 * toRad], rounded, for a longitude in [[-180,180]]. *)
Lemma machine_λ1_bound (M : Doubles.machine) (lon1 : R) :
  Doubles.accurate M -> -180 <= lon1 <= 180 ->
  - (Doubles.Math_PI M + 0.0000005)
  <= Doubles.fl M (lon1 * Doubles.toRad M)
  <= Doubles.Math_PI M + 0.0000005.
Proof.
  intros HM Hlon. pose proof (machine_PI_range M HM) as Hp.
  unfold Doubles.toRad. set (p := Doubles.Math_PI M) in *.
  pose proof (fl_within M (p / 180) 1 HM ltac:(lra)) as Ht.
  unfold Doubles.tolerance in Ht. set (t := Doubles.fl M (p / 180)) in *.
  pose proof (fl_within M (lon1 * t) 5 HM ltac:(nra)) as Hl.
  unfold Doubles.tolerance in Hl. nra.
Qed.

Lemma machine_longitude_bound (M : Doubles.machine) (φ1 Δσ θ lon1 : R)
  (n i : nat) (p : point) :
  Doubles.accurate M -> -180 <= lon1 <= 180 ->
  Doubles.geodesicPoint M φ1 (Doubles.fl M (lon1 * Doubles.toRad M)) Δσ θ n i
  = Some p ->
  -360.001 <= longitude p <= 360.001.
Proof.
  intros HM Hlon E. unfold Doubles.geodesicPoint in E.
  destruct (Doubles.Math_asin M _) as [φ|]; [|discriminate].
  injection E as <-. unfold longitude. cbn [snd].
  pose proof (machine_PI_range M HM) as Hp.
  pose proof (machine_λ1_bound M lon1 HM Hlon) as H1.
  set (λ1 := Doubles.fl M (lon1 * Doubles.toRad M)) in *.
  match goal with |- context [Doubles.Math_atan2 M ?y ?x] =>
    pose proof (Doubles.atan2_range M HM y x) as Ha;
    set (a := Doubles.Math_atan2 M y x) in * end.
  apply Rabs_between in Ha.
  pose proof (fl_within M (λ1 + a) 9 HM ltac:(lra)) as Hl.
  unfold Doubles.tolerance in Hl.
  pose proof (to_degrees_bound M (Doubles.fl M (λ1 + a)) 2 HM
                ltac:(lra) ltac:(lra)) as H.
  lra.
Qed.

Lemma machine_latitude_bound (M : Doubles.machine) (φ1 λ1 Δσ θ : R)
  (n i : nat) (p : point) :
  Doubles.accurate M ->
  Doubles.geodesicPoint M φ1 λ1 Δσ θ n i = Some p ->
  -90.001 <= latitude p <= 90.001.
Proof.
  intros HM E. unfold Doubles.geodesicPoint in E.
  destruct (Doubles.Math_asin M ?[x]) as [φ|] eqn:Ea; [|discriminate].
  injection E as <-. unfold latitude. cbn [fst].
  unfold Doubles.Math_asin in Ea.
  destruct (Rle_dec (-1) _); [|discriminate].
  destruct (Rle_dec _ 1); [|discriminate]. injection Ea as <-.
  match goal with |- context [Doubles.asinOn M ?x] =>
    pose proof (Doubles.asin_range M HM x) as Ha;
    set (a := Doubles.asinOn M x) in * end.
  apply Rabs_between in Ha.
  pose proof (to_degrees_bound M a (1 / 2) HM ltac:(lra) ltac:(lra)) as H.
  lra.
Qed.

(** ** The splitter on computed points *)

Lemma machine_splitLoop_snoc (points : list (option point)) (p : option point) :
  Doubles.splitLoop (points ++ [p]) =
  Doubles.splitStep (Doubles.splitLoop points) p.
Proof. apply fold_left_snoc. Qed.

Lemma boundary_within (bound prevLon : R) :
  179.999 <= bound ->
  - bound <= midLonAt prevLon <= bound /\
  - bound <= otherLonAt prevLon <= bound.
Proof.
  intros H. unfold midLonAt, otherLonAt.
  destruct (Rgt_dec prevLon 0); lra.
Qed.

Lemma machine_splitStep_within (bound : R) (st : Doubles.splitState)
  (p : option point) :
  179.999 <= bound ->
  Forall (Forall (lonWithin bound)) (Doubles.segments st) ->
  Forall (lonWithin bound) (Doubles.currentSegment st) ->
  lonWithin bound p ->
  Forall (Forall (lonWithin bound))
         (Doubles.segments (Doubles.splitStep st p)) /\
  Forall (lonWithin bound) (Doubles.currentSegment (Doubles.splitStep st p)).
Proof.
  intros Hb Hsegs Hcur Hp. destruct st as [segs cur]. simpl in *.
  assert (Hpush : Forall (lonWithin bound) (cur ++ [p]))
    by (apply Forall_app; split; [exact Hcur | now constructor]).
  unfold Doubles.splitStep. simpl.
  destruct (lastElement cur) as [[[prevLat prevLon]|]|];
    destruct p as [[lat lon]|]; simpl; try (split; assumption).
  destruct (crosses_dec prevLon lon); simpl; [|split; assumption].
  destruct (boundary_within bound prevLon Hb) as [Hm Ho]. split.
  - apply Forall_app. split; [exact Hsegs|]. constructor; [|constructor].
    apply Forall_app. split; [exact Hcur|]. now constructor.
  - constructor; [exact Ho|]. constructor; [exact Hp | constructor].
Qed.

Lemma machine_split_within (bound : R) (points : list (option point)) :
  179.999 <= bound -> Forall (lonWithin bound) points ->
  Forall (Forall (lonWithin bound)) (Doubles.splitAtAntimeridian points).
Proof.
  intros Hb H.
  assert (Hloop :
    Forall (Forall (lonWithin bound)) (Doubles.segments (Doubles.splitLoop points)) /\
    Forall (lonWithin bound) (Doubles.currentSegment (Doubles.splitLoop points))).
  { induction points as [|p points IH] using rev_ind.
    - split; constructor.
    - apply Forall_app in H as [Hpts Hp]. rewrite machine_splitLoop_snoc.
      destruct (IH Hpts) as [H1 H2].
      apply machine_splitStep_within; [exact Hb | exact H1 | exact H2|].
      now inversion Hp. }
  destruct Hloop as [H1 H2]. unfold Doubles.splitAtAntimeridian, Doubles.finish.
  destruct (Doubles.currentSegment (Doubles.splitLoop points)); [exact H1|].
  apply Forall_app. split; [exact H1 | now constructor].
Qed.

(** On a path of numbers it is the splitter of the dashboard. *)
Lemma lastElement_map {A B : Type} (f : A -> B) (l : list A) :
  lastElement (map f l) = option_map f (lastElement l).
Proof.
  destruct l as [|x l _] using rev_ind; [reflexivity|].
  rewrite map_app. simpl. now rewrite !lastElement_snoc.
Qed.

Lemma machine_splitStep_numbers (st : splitState) (p : point) :
  Doubles.splitStep (liftState st) (Some p) = liftState (splitStep st p).
Proof.
  destruct st as [segs cur], p as [lat lon].
  unfold Doubles.splitStep, splitStep, liftState. simpl.
  rewrite lastElement_map.
  destruct (lastElement cur) as [[prevLat prevLon]|]; simpl.
  - destruct (crosses_dec prevLon lon); simpl;
      repeat (rewrite map_app; simpl); reflexivity.
  - now rewrite map_app.
Qed.

Lemma machine_splitLoop_numbers (points : list point) :
  Doubles.splitLoop (map Some points) = liftState (splitLoop points).
Proof.
  induction points as [|p points IH] using rev_ind; [reflexivity|].
  rewrite map_app. simpl. rewrite machine_splitLoop_snoc, IH, splitLoop_snoc.
  apply machine_splitStep_numbers.
Qed.

Lemma machine_split_numbers (points : list point) :
  Doubles.splitAtAntimeridian (map Some points) =
  map (map Some) (splitAtAntimeridian points).
Proof.
  unfold Doubles.splitAtAntimeridian, splitAtAntimeridian.
  rewrite machine_splitLoop_numbers.
  destruct (splitLoop points) as [segs cur].
  unfold Doubles.finish, finish, liftState. simpl.
  destruct cur; simpl; [reflexivity|]. now rewrite map_app.
Qed.

(** No point is lost: a not-a-number of the path is in a segment. *)
Lemma machine_splitStep_keeps (st : Doubles.splitState) (p x : option point) :
  In x (concat (Doubles.segments st) ++ Doubles.currentSegment st) \/ x = p ->
  In x (concat (Doubles.segments (Doubles.splitStep st p)) ++
        Doubles.currentSegment (Doubles.splitStep st p)).
Proof.
  destruct st as [segs cur]. simpl. intros H.
  assert (Hpush : In x (concat segs ++ cur ++ [p])).
  { rewrite !in_app_iff. simpl. rewrite in_app_iff in H.
    destruct H as [[H|H]|H]; [tauto | tauto | subst x; tauto]. }
  unfold Doubles.splitStep. simpl.
  destruct (lastElement cur) as [[[prevLat prevLon]|]|];
    destruct p as [[lat lon]|]; simpl; try exact Hpush.
  destruct (crosses_dec prevLon lon); simpl; [|exact Hpush].
  rewrite concat_app. simpl. rewrite in_app_iff in H.
  repeat (rewrite in_app_iff; simpl).
  destruct H as [[H|H]|H]; [tauto | tauto | subst x; tauto].
Qed.

Lemma machine_split_keeps (points : list (option point)) (x : option point) :
  In x points ->
  exists segment, In segment (Doubles.splitAtAntimeridian points) /\
                  In x segment.
Proof.
  intros H.
  assert (Hloop : In x (concat (Doubles.segments (Doubles.splitLoop points)) ++
                        Doubles.currentSegment (Doubles.splitLoop points))).
  { induction points as [|p points IH] using rev_ind; [now elim H|].
    rewrite machine_splitLoop_snoc. apply machine_splitStep_keeps.
    apply in_app_iff in H as [H|[H|[]]]; [left; now apply IH | now right]. }
  unfold Doubles.splitAtAntimeridian, Doubles.finish.
  destruct (Doubles.splitLoop points) as [segs cur]. simpl in *.
  apply in_app_iff in Hloop as [Hloop|Hloop].
  - apply in_concat in Hloop as (segment & Hs & Hx). exists segment.
    split; [|exact Hx]. destruct cur; [exact Hs|].
    apply in_app_iff. now left.
  - destruct cur as [|q cur]; [now elim Hloop|]. exists (q :: cur).
    split; [|exact Hloop]. apply in_app_iff. right. now left.
Qed.

(** ** The line builder on computed points *)

Lemma numbers_all (points : list point) :
  Doubles.numbers (map Some points) = Some points.
Proof.
  induction points as [|p points IH]; [reflexivity|]. simpl. now rewrite IH.
Qed.

Lemma numbers_some (latlngs : list (option point)) (points : list point) :
  Doubles.numbers latlngs = Some points -> latlngs = map Some points.
Proof.
  revert points. induction latlngs as [|[p|] latlngs IH]; simpl; intros points H.
  - now injection H as <-.
  - destruct (Doubles.numbers latlngs) as [ps|]; [|discriminate].
    injection H as <-. simpl. f_equal. now apply IH.
  - discriminate.
Qed.

Lemma numbers_none (latlngs : list (option point)) :
  Doubles.numbers latlngs = None <-> In None latlngs.
Proof.
  induction latlngs as [|[p|] latlngs IH]; simpl.
  - split; [discriminate | tauto].
  - destruct (Doubles.numbers latlngs) as [ps|].
    + split; [discriminate|]. intros [H|H]; [discriminate|].
      now apply IH in H.
    + split; [|reflexivity]. intros _. right. now apply IH.
  - split; [now left | reflexivity].
Qed.

Lemma forOffsets_numbers (options : lineOptions) (j : nat)
  (segment : list point) (offsets : list Z) :
  Doubles.forOffsets options j (map Some segment) offsets =
  Returns (map (lineCopy options j segment) offsets).
Proof.
  induction offsets as [|offset offsets IH]; [reflexivity|].
  simpl. unfold Doubles.lineCopy. rewrite numbers_all. simpl.
  now rewrite IH.
Qed.

Lemma forOffsets_nan (options : lineOptions) (j : nat)
  (segment : list (option point)) :
  In None segment ->
  Doubles.forOffsets options j segment worldOffsets =
  Throws "Invalid LatLng object".
Proof.
  intros H. apply numbers_none in H. rewrite worldOffsets_values. simpl.
  unfold Doubles.lineCopy. now rewrite H.
Qed.

Lemma forEachSegment_numbers (options : lineOptions) (j : nat)
  (segs : list (list point)) :
  Doubles.forEachSegment options j (map (map Some) segs) =
  Returns (forEachSegment options j segs).
Proof.
  revert j. induction segs as [|segment segs IH]; intros j; [reflexivity|].
  cbn [map Doubles.forEachSegment forEachSegment].
  rewrite forOffsets_numbers. cbn [Doubles.bind]. now rewrite IH.
Qed.

Lemma forEachSegment_nan (options : lineOptions) (j : nat)
  (segs : list (list (option point))) :
  (exists segment, In segment segs /\ In None segment) ->
  Doubles.forEachSegment options j segs = Throws "Invalid LatLng object".
Proof.
  revert j. induction segs as [|segment segs IH]; intros j (s & Hs & Hn).
  - now elim Hs.
  - cbn [Doubles.forEachSegment].
    destruct (Doubles.numbers segment) as [points|] eqn:E.
    + apply numbers_some in E. subst segment.
      rewrite forOffsets_numbers. cbn [Doubles.bind].
      destruct Hs as [<-|Hs].
      * exfalso. apply in_map_iff in Hn as (q & Hq & _). discriminate.
      * rewrite IH by (exists s; tauto). reflexivity.
    + apply numbers_none in E. now rewrite forOffsets_nan.
Qed.

(** The builder returns the layers of the splitter's segments when the path
    consists of numbers, and throws when it holds a not-a-number. *)
Lemma machine_line_layers (M : Doubles.machine) (origin dest : point)
  (options : lineOptions) :
  let path :=
    Doubles.calculateGeodesicPoints M (latitude origin) (longitude origin)
                                      (latitude dest) (longitude dest) 100 in
  Doubles.createInfiniteGeodesicLine M origin dest options =
  match Doubles.numbers path with
  | Some points =>
      Returns (forEachSegment options 0 (splitAtAntimeridian points))
  | None => Throws "Invalid LatLng object"
  end.
Proof.
  destruct origin as [lat1 lon1], dest as [lat2 lon2]. simpl.
  unfold Doubles.createInfiniteGeodesicLine.
  destruct (Doubles.numbers _) as [points|] eqn:E.
  - apply numbers_some in E. rewrite E, machine_split_numbers.
    apply forEachSegment_numbers.
  - apply numbers_none in E. apply forEachSegment_nan.
    now apply machine_split_keeps.
Qed.

(** ** The machine that does not round *)

Lemma exact_centralAngle (lat1 lon1 lat2 lon2 : R) :
  Doubles.centralAngle Doubles.exact lat1 lon1 lat2 lon2 =
  Some (centralAngle lat1 lon1 lat2 lon2).
Proof. apply machine_centralAngle. Qed.

Lemma exact_geodesicPoint (φ1 λ1 Δσ θ : R) (n i : nat) :
  Doubles.geodesicPoint Doubles.exact φ1 λ1 Δσ θ n i =
  Some (geodesicPoint φ1 λ1 Δσ θ n i).
Proof.
  unfold Doubles.geodesicPoint.
  rewrite machine_asin_in_domain by apply geodesicPoint_asin_in_domain.
  reflexivity.
Qed.

(** With exact arithmetic the path is the one of the definitions above, and
    no point of it is a not-a-number. *)
Lemma exact_path (lat1 lon1 lat2 lon2 : R) (n : nat) :
  Doubles.calculateGeodesicPoints Doubles.exact lat1 lon1 lat2 lon2 n =
  map Some (calculateGeodesicPoints lat1 lon1 lat2 lon2 n).
Proof.
  unfold Doubles.calculateGeodesicPoints. rewrite exact_centralAngle.
  unfold calculateGeodesicPoints.
  destruct (Rlt_dec (centralAngle lat1 lon1 lat2 lon2) 0.001); [reflexivity|].
  rewrite map_map. apply map_ext. intros i. apply exact_geodesicPoint.
Qed.

Lemma exact_line_layers (origin dest : point) (options : lineOptions) :
  Doubles.createInfiniteGeodesicLine Doubles.exact origin dest options =
  Returns (createInfiniteGeodesicLine origin dest options).
Proof.
  rewrite machine_line_layers. cbv zeta. rewrite exact_path, numbers_all.
  now rewrite createInfiniteGeodesicLine_layers.
Qed.

(** ** The clamp *)

(** C8, as stated, fails for [GeodesicLine]: the sum is handed to
    [Math.acos] unclamped, and on the point (8, 0) taken twice the doubles
    give a sum above 1 and a central angle that is not a number. *)
Lemma unclamped_angle_not_a_number : ~ clampClaim Doubles.recorded 8 0 8 0.
Proof. intros [_ H]. apply H. exact recorded_class_angle. Qed.

(** C8, amended.  In [calculateGeodesicPoints] the value handed to
    [Math.acos] is the computed sum clamped: the sum itself when it lies in
    [[-1,1]], 1 when rounding has taken it above and -1 when below, so that
    on every machine the central angle is a number.  [GeodesicLine] hands
    the sum over as it is: its central angle is a not-a-number exactly when
    the computed sum has left [[-1,1]], and the test on [isNaN] then returns
    the two end points. *)
Theorem acos_argument_clamped (M : Doubles.machine) (lat1 lon1 lat2 lon2 : R) :
  let sum := Doubles.cosineSum M lat1 lon1 lat2 lon2 in
  let argument := Doubles.acosArgument M lat1 lon1 lat2 lon2 in
  -1 <= argument <= 1 /\
  (-1 <= sum <= 1 -> argument = sum) /\
  (1 < sum -> argument = 1) /\
  (sum < -1 -> argument = -1) /\
  Doubles.centralAngle M lat1 lon1 lat2 lon2 =
    Some (Doubles.acosOn M argument) /\
  (Doubles.GeodesicLine.centralAngle M lat1 lon1 lat2 lon2 = None <->
   ~ -1 <= Doubles.GeodesicLine.cosineSum M lat1 lon1 lat2 lon2 <= 1) /\
  (Doubles.GeodesicLine.centralAngle M lat1 lon1 lat2 lon2 = None ->
   forall fuel n,
     Doubles.GeodesicLine.calculateGreatCircle M fuel lat1 lon1 lat2 lon2 n =
     [(lat1, lon1); (lat2, lon2)]).
Proof.
  intros sum argument. unfold argument, Doubles.acosArgument. fold sum.
  split; [apply clampUnit_range|].
  split; [apply clampUnit_id|].
  split; [apply clampUnit_above|].
  split; [apply clampUnit_below|].
  split; [apply machine_centralAngle|].
  split; [apply machine_acos_nan|].
  intros H fuel n. now apply machine_circle_nan.
Qed.

Lemma acos_argument_clamped_witness :
  Doubles.acosArgument Doubles.recorded 8 0 8 0 = 1 /\
  Doubles.GeodesicLine.calculateGreatCircle Doubles.recorded 1 8 0 8 0 30 =
  [(8, 0); (8, 0)].
Proof.
  destruct (acos_argument_clamped Doubles.recorded 8 0 8 0)
    as (_ & _ & Habove & _ & _ & _ & Hnan).
  split.
  - apply Habove. rewrite recorded_dashboard_sum. exact sumD_overshoots.
  - apply Hnan. exact recorded_class_angle.
Defined.

(** ** The degenerate case on a machine *)

(** C7.  On every machine a central angle below 0.001 makes either
    interpolator return the two end points as they were given, and so does
    a central angle that is not a number in [GeodesicLine]; the dashboard
    never has one.  On an accurate machine a point interpolated with itself
    gives that point twice, at every resolution and by either
    interpolator. *)
Theorem degenerate_returns_endpoints (M : Doubles.machine)
  (lat1 lon1 lat2 lon2 : R) (n fuel : nat) :
  (forall Δσ,
   Doubles.centralAngle M lat1 lon1 lat2 lon2 = Some Δσ -> Δσ < 0.001 ->
   Doubles.calculateGeodesicPoints M lat1 lon1 lat2 lon2 n =
   [Some (lat1, lon1); Some (lat2, lon2)]) /\
  Doubles.centralAngle M lat1 lon1 lat2 lon2 <> None /\
  (Doubles.GeodesicLine.centralAngle M lat1 lon1 lat2 lon2 = None ->
   Doubles.GeodesicLine.calculateGreatCircle M fuel lat1 lon1 lat2 lon2 n =
   [(lat1, lon1); (lat2, lon2)]) /\
  (forall Δσ,
   Doubles.GeodesicLine.centralAngle M lat1 lon1 lat2 lon2 = Some Δσ ->
   Δσ < 0.001 ->
   Doubles.GeodesicLine.calculateGreatCircle M fuel lat1 lon1 lat2 lon2 n =
   [(lat1, lon1); (lat2, lon2)]) /\
  (Doubles.accurate M ->
   Doubles.calculateGeodesicPoints M lat1 lon1 lat1 lon1 n =
     [Some (lat1, lon1); Some (lat1, lon1)] /\
   Doubles.GeodesicLine.calculateGreatCircle M fuel lat1 lon1 lat1 lon1 n =
     [(lat1, lon1); (lat1, lon1)]).
Proof.
  split; [intros Δσ; apply machine_path_degenerate|].
  split; [rewrite machine_centralAngle; discriminate|].
  split; [apply machine_circle_nan|].
  split; [intros Δσ; apply machine_circle_degenerate|].
  intros HM. split.
  - now apply machine_same_point.
  - now apply machine_circle_same_point.
Qed.

Lemma degenerate_returns_endpoints_witness :
  Doubles.GeodesicLine.calculateGreatCircle Doubles.recorded 1 8 0 8 0 30 =
    [(8, 0); (8, 0)] /\
  Doubles.calculateGeodesicPoints Doubles.recorded 8 0 8 0 30 =
    [Some (8, 0); Some (8, 0)] /\
  Doubles.calculateGeodesicPoints Doubles.exact 10 10 10 10 30 =
    [Some (10, 10); Some (10, 10)].
Proof.
  split; [|split].
  - exact (proj1 (proj2 (proj2
             (degenerate_returns_endpoints Doubles.recorded 8 0 8 0 30 1)))
             recorded_class_angle).
  - apply (proj1 (degenerate_returns_endpoints Doubles.recorded 8 0 8 0 30 1) 0).
    + exact (proj2 recorded_dashboard_angle).
    + lra.
  - exact (proj1 (proj2 (proj2 (proj2 (proj2
             (degenerate_returns_endpoints Doubles.exact 10 10 10 10 30 1))))
             exact_accurate)).
Defined.

(** ** Both interpolators, end to end *)

(** C6, amended.  At a resolution [n >= 1] and on every machine,
    [calculateGeodesicPoints] returns exactly [n + 1] points when the
    central angle it computed is at least 0.001 and the two points
    [[p1, p2]] when it is below; [GeodesicLine.calculateGreatCircle] returns
    [n + 1] points when its central angle is a number and at least 0.001,
    and [[p1, p2]] when it is below 0.001 or not a number.  In exact
    arithmetic the path of the dashboard starts at [p1] when its latitude is
    in range and, when both latitudes are strictly between the poles and
    both longitudes in [[-180,180]], ends at the latitude of [p2], its
    longitude up to a full turn; the path of [GeodesicLine] starts at [p1]
    and ends at [p2] when the central angle is less than half a turn, the
    latitudes are strictly between the poles and the longitudes in
    [(-180,180]]. *)
Theorem interpolate_points (M : Doubles.machine) (lat1 lon1 lat2 lon2 : R)
  (n fuel : nat) :
  (1 <= n)%nat ->
  (forall Δσ,
   Doubles.centralAngle M lat1 lon1 lat2 lon2 = Some Δσ ->
   (Δσ < 0.001 ->
    Doubles.calculateGeodesicPoints M lat1 lon1 lat2 lon2 n =
    [Some (lat1, lon1); Some (lat2, lon2)]) /\
   (~ Δσ < 0.001 ->
    length (Doubles.calculateGeodesicPoints M lat1 lon1 lat2 lon2 n) = S n)) /\
  (Doubles.GeodesicLine.centralAngle M lat1 lon1 lat2 lon2 = None ->
   Doubles.GeodesicLine.calculateGreatCircle M fuel lat1 lon1 lat2 lon2 n =
   [(lat1, lon1); (lat2, lon2)]) /\
  (forall Δσ,
   Doubles.GeodesicLine.centralAngle M lat1 lon1 lat2 lon2 = Some Δσ ->
   (Δσ < 0.001 ->
    Doubles.GeodesicLine.calculateGreatCircle M fuel lat1 lon1 lat2 lon2 n =
    [(lat1, lon1); (lat2, lon2)]) /\
   (~ Δσ < 0.001 ->
    length (Doubles.GeodesicLine.calculateGreatCircle M fuel lat1 lon1 lat2 lon2 n)
    = S n)) /\
  (let points := calculateGeodesicPoints lat1 lon1 lat2 lon2 n in
   ~ centralAngle lat1 lon1 lat2 lon2 < 0.001 ->
   (-90 <= lat1 <= 90 -> hd_error points = Some (lat1, lon1)) /\
   (-90 < lat1 < 90 -> -90 < lat2 < 90 ->
    -180 <= lon1 <= 180 -> -180 <= lon2 <= 180 ->
    exists lon, lastElement points = Some (lat2, lon) /\
                (lon = lon2 \/ lon = lon2 - 360 \/ lon = lon2 + 360))) /\
  (let circle := GeodesicLine.calculateGreatCircle lat1 lon1 lat2 lon2 n in
   forall Δσ,
   Math_acos (GeodesicLine.acosArgument lat1 lon1 lat2 lon2) = Some Δσ ->
   ~ Δσ < 0.001 -> sin Δσ <> 0 ->
   (-90 < lat1 < 90 -> -180 < lon1 <= 180 ->
    hd_error circle = Some (lat1, lon1)) /\
   (-90 < lat2 < 90 -> -180 < lon2 <= 180 ->
    lastElement circle = Some (lat2, lon2))).
Proof.
  intros Hn. split; [|split; [|split; [|split]]].
  - intros Δσ E. split.
    + now apply machine_path_degenerate.
    + now apply machine_path_length.
  - apply machine_circle_nan.
  - intros Δσ E. split.
    + now apply machine_circle_degenerate.
    + now apply machine_circle_length.
  - intros points Hd. unfold points. split.
    + intros H. now apply calculateGeodesicPoints_first.
    + intros H1 H2 H3 H4. eexists. split.
      * now apply calculateGeodesicPoints_last.
      * destruct (Req_dec_T (lon2 - lon1) (-180)); [tauto|].
        unfold unwrappedLon.
        destruct (Rgt_dec (Rabs (lon2 - lon1)) 180); [|tauto].
        destruct (Rgt_dec (lon2 - lon1) 0); tauto.
  - intros circle Δσ Hacos Hd Hs. unfold circle.
    rewrite (calculateGreatCircle_regular lat1 lon1 lat2 lon2 Δσ n Hacos Hd).
    split.
    + intros H1 H2. simpl. f_equal. now apply greatCirclePoint_first.
    + intros H1 H2. rewrite lastElement_map_seq. f_equal.
      now apply greatCirclePoint_last.
Qed.

Lemma interpolate_points_witness :
  hd_error (calculateGeodesicPoints 35.7 139.7 34 (-118.2) 100) =
    Some (35.7, 139.7) /\
  Doubles.GeodesicLine.calculateGreatCircle Doubles.recorded 1 8 0 8 0 30 =
    [(8, 0); (8, 0)].
Proof.
  split.
  - apply (proj1 (proj2 (proj2 (proj2
             (interpolate_points Doubles.exact 35.7 139.7 34 (-118.2) 100 1
                ltac:(lia)))))); [exact tokyo_not_degenerate | lra].
  - apply (proj1 (proj2
             (interpolate_points Doubles.recorded 8 0 8 0 30 1 ltac:(lia)))).
    exact recorded_class_angle.
Defined.

(** ** Longitudes handed to the renderer *)

Lemma machine_path_within (M : Doubles.machine) (lat1 lon1 lat2 lon2 : R)
  (n : nat) :
  Doubles.accurate M -> -180 <= lon1 <= 180 -> -180 <= lon2 <= 180 ->
  Forall (lonWithin 360.001)
         (Doubles.calculateGeodesicPoints M lat1 lon1 lat2 lon2 n).
Proof.
  intros HM H1 H2.
  pose proof (machine_centralAngle M lat1 lon1 lat2 lon2) as E.
  set (Δσ := Doubles.acosOn M _) in E.
  destruct (Rlt_dec Δσ 0.001) as [Hd|Hd].
  - rewrite (machine_path_degenerate M lat1 lon1 lat2 lon2 Δσ n E Hd).
    constructor; [|constructor; [|constructor]];
      unfold lonWithin, longitude; simpl; lra.
  - destruct (machine_path_regular M lat1 lon1 lat2 lon2 Δσ n E Hd)
      as (φ1 & λ1 & θ & -> & ->).
    apply Forall_forall. intros p Hp. apply in_map_iff in Hp as (i & Hi & _).
    destruct p as [q|]; [|exact I]. simpl.
    pose proof (machine_longitude_bound M φ1 Δσ θ lon1 n i q HM H1 Hi). lra.
Qed.

(** C4, amended.  For a trip whose two longitudes lie in [[-180,180]], every
    point handed to the renderer, before any world-copy offset, is a
    not-a-number or has its longitude in [[-360,360]], up to the rounding of
    an accurate machine: the longitudes of an interpolated path are left
    unwrapped.  On a two-point path they lie in [[-180,180]].  The
    interpolator of [GeodesicLine] does normalise: in exact arithmetic, at a
    resolution of at least 1 and a central angle other than half a turn, all
    its longitudes lie in [[-180,180]]. *)
Theorem rendered_longitudes_bounded (M : Doubles.machine)
  (lat1 lon1 lat2 lon2 : R) (n : nat) :
  Doubles.accurate M -> -180 <= lon1 <= 180 -> -180 <= lon2 <= 180 ->
  let segs := Doubles.renderedSegments M (lat1, lon1) (lat2, lon2) in
  Forall (Forall (lonWithin 360.001)) segs /\
  (forall Δσ,
   Doubles.centralAngle M lat1 lon1 lat2 lon2 = Some Δσ -> Δσ < 0.001 ->
   Forall (Forall (lonWithin 180)) segs) /\
  ((1 <= n)%nat -> GeodesicLine.acosArgument lat1 lon1 lat2 lon2 <> -1 ->
   Forall lonInRange (GeodesicLine.calculateGreatCircle lat1 lon1 lat2 lon2 n)).
Proof.
  intros HM H1 H2 segs. unfold segs, Doubles.renderedSegments.
  unfold latitude, longitude. cbn [fst snd].
  split; [|split].
  - apply machine_split_within; [lra|]. now apply machine_path_within.
  - intros Δσ E Hd.
    rewrite (machine_path_degenerate M lat1 lon1 lat2 lon2 Δσ 100 E Hd).
    apply machine_split_within; [lra|].
    constructor; [|constructor; [|constructor]];
      unfold lonWithin, longitude; simpl; lra.
  - intros _ _. now apply calculateGreatCircle_range.
Qed.

Lemma rendered_longitudes_bounded_witness :
  Forall (Forall (lonWithin 360.001))
         (Doubles.renderedSegments Doubles.exact (35.7, 139.7) (34, -118.2)).
Proof.
  apply (rendered_longitudes_bounded Doubles.exact 35.7 139.7 34 (-118.2) 100);
    [exact exact_accurate | lra | lra].
Defined.

(** ** Coordinates out of range *)

(** C9, as stated, fails: the trip from longitude 400 to longitude 40 is
    not rejected, ten polylines are built from it. *)
Lemma malformed_trip_is_drawn : ~ rejectionClaim Doubles.exact (0, 400) (0, 40).
Proof.
  intros H. destruct H as [condition H].
  - unfold validCoordinate, latitude, longitude. simpl. lra.
  - rewrite exact_line_layers in H. discriminate.
Qed.

Lemma malformed_trip_returned :
  exists layers,
    Doubles.createInfiniteGeodesicLine Doubles.exact (0, 400) (0, 40)
      plainOptions = Returns layers /\
    length layers = 10%nat.
Proof.
  eexists. split; [apply exact_line_layers | apply malformed_trip_layers].
Qed.

Lemma machine_path_nonempty (M : Doubles.machine) (lat1 lon1 lat2 lon2 : R)
  (n : nat) :
  Doubles.calculateGeodesicPoints M lat1 lon1 lat2 lon2 n <> [].
Proof.
  unfold Doubles.calculateGeodesicPoints.
  destruct (Doubles.centralAngle M lat1 lon1 lat2 lon2) as [Δσ|];
    [destruct (Rlt_dec Δσ 0.001)|]; simpl; discriminate.
Qed.

Lemma machine_circle_nonempty (M : Doubles.machine) (lat1 lon1 lat2 lon2 : R)
  (n fuel : nat) :
  Doubles.GeodesicLine.calculateGreatCircle M fuel lat1 lon1 lat2 lon2 n <> [].
Proof.
  unfold Doubles.GeodesicLine.calculateGreatCircle.
  destruct (Doubles.GeodesicLine.centralAngle M lat1 lon1 lat2 lon2) as [Δσ|];
    [destruct (Rlt_dec Δσ 0.001)|]; simpl; discriminate.
Qed.

Lemma machine_flightPath_nonempty (M : Doubles.machine) (fuel : nat)
  (origin destination : point) :
  Doubles.GeodesicLine.createFlightPath M fuel origin destination <> [].
Proof.
  destruct origin as [lat1 lon1], destination as [lat2 lon2].
  unfold Doubles.GeodesicLine.createFlightPath.
  destruct (Rgt_dec _ 180).
  - apply greatCircle_split_nonempty, machine_circle_nonempty.
  - apply machine_circle_nonempty.
Qed.

(** The polylines of a path of numbers. *)
Lemma machine_layers_count (M : Doubles.machine) (origin dest : point)
  (options : lineOptions) (points : list point) :
  Doubles.numbers
    (Doubles.calculateGeodesicPoints M (latitude origin) (longitude origin)
                                       (latitude dest) (longitude dest) 100)
  = Some points ->
  Doubles.createInfiniteGeodesicLine M origin dest options =
    Returns (forEachSegment options 0 (splitAtAntimeridian points)) /\
  length (forEachSegment options 0 (splitAtAntimeridian points)) =
    (5 * S (countJumps points))%nat.
Proof.
  intros E. split.
  - rewrite machine_line_layers. cbv zeta. now rewrite E.
  - rewrite forEachSegment_length. f_equal. apply split_length.
    intros ->. apply numbers_some in E. simpl in E.
    now apply machine_path_nonempty in E.
Qed.

(** Accuracy does not keep [Math.asin] inside its domain: on the tilted
    machine the path from the pole (90, 0) to (0, 0) starts with a
    not-a-number, and the build of that trip, whose coordinates are in
    range, throws. *)
Lemma tilted_accurate : Doubles.accurate Doubles.tilted.
Proof.
  assert (Ht : 0 < Doubles.tolerance) by (unfold Doubles.tolerance; lra).
  assert (H0 : Rabs 0 <= Doubles.tolerance) by (rewrite Rabs_R0; lra).
  constructor; simpl.
  - intros x. replace (x - x) with 0 by ring. rewrite Rabs_R0.
    pose proof (Rabs_pos x). nra.
  - now replace (PI - PI) with 0 by ring.
  - intros x. now replace (sin x - sin x) with 0 by ring.
  - intros x. replace (cos x + Doubles.tolerance - cos x)
      with Doubles.tolerance by ring.
    rewrite Rabs_right; lra.
  - intros x _. now replace (acos x - acos x) with 0 by ring.
  - intros x. apply Rabs_le. pose proof (asin_bound x). lra.
  - intros y x. apply Rabs_le. pose proof (atan2_bounds y x). lra.
Qed.

Lemma tilted_path_nan :
  In None (Doubles.calculateGeodesicPoints Doubles.tilted 90 0 0 0 100).
Proof.
  assert (Ht : 0 < Doubles.tolerance < 0.1)
    by (unfold Doubles.tolerance; lra).
  pose proof PI_RGT_0 as Hpi.
  assert (Eφ : 90 * (PI / 180) = PI / 2) by field.
  unfold Doubles.calculateGeodesicPoints.
  rewrite machine_centralAngle.
  set (Δσ := Doubles.acosOn Doubles.tilted _).
  assert (Hd : ~ Δσ < 0.001).
  { unfold Δσ, Doubles.acosArgument, Doubles.cosineSum, Doubles.unwrapλ2,
      Doubles.toRad.
    cbn [Doubles.fl Doubles.Math_PI Doubles.Math_sin Doubles.Math_cos
         Doubles.acosOn Doubles.tilted].
    apply centralAngle_not_small.
    rewrite Eφ, !Rmult_0_l, sin_PI2, cos_PI2, sin_0, cos_0.
    match goal with |- context [Rgt_dec ?a ?b] => destruct (Rgt_dec a b) end;
      [match goal with |- context [Rgt_dec ?a ?b] =>
         destruct (Rgt_dec a b) end|];
      pose proof (COS_bound (0 - 2 * PI - 0)); pose proof (COS_bound (0 + 2 * PI - 0));
      pose proof (COS_bound (0 - 0)); nra. }
  destruct (Rlt_dec Δσ 0.001); [contradiction|].
  left. unfold Doubles.geodesicPoint, Doubles.toRad.
  cbn [Doubles.fl Doubles.Math_PI Doubles.Math_sin Doubles.Math_cos
       Doubles.tilted].
  rewrite Eφ, sin_PI2, cos_PI2.
  replace (INR 0 / INR 100 * Δσ) with 0 by (simpl INR; unfold Rdiv; ring).
  rewrite sin_0, cos_0.
  match goal with |- match Doubles.Math_asin _ ?x with _ => _ end = _ =>
    assert (E : Doubles.Math_asin Doubles.tilted x = None)
      by (apply machine_asin_nan; lra);
    now rewrite E
  end.
Qed.

(** C9, amended.  The build checks no range.  On every machine and for
    every origin and destination, in range or not,
    [createInfiniteGeodesicLine] returns five polylines for each segment of
    the path whenever the path it computed consists of numbers, at least
    five in all; a two-point path consists of the two end points as they
    were given, so it is always drawn.  The build throws exactly when the
    path holds a not-a-number, and then with the condition of the renderer.
    [GeodesicLine.createFlightPath] returns a non-empty list of points. *)
Theorem build_checks_no_range (M : Doubles.machine) (origin dest : point)
  (options : lineOptions) :
  let path :=
    Doubles.calculateGeodesicPoints M (latitude origin) (longitude origin)
                                      (latitude dest) (longitude dest) 100 in
  (forall points, Doubles.numbers path = Some points ->
   exists layers,
     Doubles.createInfiniteGeodesicLine M origin dest options =
       Returns layers /\
     length layers = (5 * length (splitAtAntimeridian points))%nat /\
     (5 <= length layers)%nat) /\
  (forall Δσ,
   Doubles.centralAngle M (latitude origin) (longitude origin)
                          (latitude dest) (longitude dest) = Some Δσ ->
   Δσ < 0.001 -> Doubles.numbers path = Some [origin; dest]) /\
  (In None path ->
   Doubles.createInfiniteGeodesicLine M origin dest options =
   Throws "Invalid LatLng object") /\
  (forall condition,
   Doubles.createInfiniteGeodesicLine M origin dest options = Throws condition
   -> In None path /\ condition = "Invalid LatLng object"%string) /\
  (forall fuel, Doubles.GeodesicLine.createFlightPath M fuel origin dest <> []).
Proof.
  intros path. split; [|split; [|split; [|split]]].
  - intros points E.
    destruct (machine_layers_count M origin dest options points E) as [Hr Hl].
    eexists. split; [exact Hr|]. rewrite forEachSegment_length.
    rewrite forEachSegment_length in Hl. split; [reflexivity | lia].
  - intros Δσ E Hd. unfold path.
    rewrite (machine_path_degenerate M _ _ _ _ Δσ 100 E Hd).
    destruct origin, dest. reflexivity.
  - intros H. apply numbers_none in H. rewrite machine_line_layers.
    cbv zeta. fold path. now rewrite H.
  - intros condition H. rewrite machine_line_layers in H. cbv zeta in H.
    fold path in H. destruct (Doubles.numbers path) eqn:E; [discriminate|].
    split; [now apply numbers_none | now injection H as <-].
  - intros fuel. apply machine_flightPath_nonempty.
Qed.

Lemma build_checks_no_range_witness :
  Doubles.createInfiniteGeodesicLine Doubles.tilted (90, 0) (0, 0) plainOptions
    = Throws "Invalid LatLng object" /\
  exists layers,
    Doubles.createInfiniteGeodesicLine Doubles.exact (0, 400) (0, 40)
      plainOptions = Returns layers /\
    length layers =
      Nat.mul 5 (length (splitAtAntimeridian [(0, 400); (0, 40)])) /\
    (5 <= length layers)%nat.
Proof.
  split.
  { apply (proj1 (proj2 (proj2
             (build_checks_no_range Doubles.tilted (90, 0) (0, 0)
                plainOptions)))).
    exact tilted_path_nan. }
  apply (proj1 (build_checks_no_range Doubles.exact (0, 400) (0, 40)
                  plainOptions)).
  apply (proj1 (proj2 (build_checks_no_range Doubles.exact (0, 400) (0, 40)
                         plainOptions)) (centralAngle 0 400 0 40)).
  - apply exact_centralAngle.
  - unfold centralAngle, acosArgument.
    rewrite unwrapλ2_degrees. unfold unwrappedLon.
    destruct (Rgt_dec (Rabs (40 - 400)) 180) as [H|H].
    + destruct (Rgt_dec (40 - 400) 0); [lra|].
      replace ((40 + 360) * toRad - 400 * toRad) with 0 by ring.
      rewrite cosine_sum_same, clampUnit_id, acos_1 by lra. lra.
    + exfalso. apply H. apply (proj2 (crosses_far 400 40)). lra.
Defined.

(** ** How many polylines a trip gets *)



(** ** Latitudes on a machine *)

(** X8.  On an accurate machine every point of an interpolated path of the
    dashboard is a not-a-number or has its latitude in [[-90,90]], up to
    rounding, whatever the latitudes given; with both latitudes given in
    [[-90,90]] that holds of the two-point path too.  In exact arithmetic
    the path of an origin with a latitude between 90 and 270 starts at 180
    minus that latitude, on the longitude given, and every latitude
    [GeodesicLine] returns for latitudes in [[-90,90]] is in [[-90,90]].
    The resolution is at least 1. *)
Theorem interpolated_latitudes (M : Doubles.machine) (lat1 lon1 lat2 lon2 : R)
  (n : nat) :
  Doubles.accurate M -> (1 <= n)%nat ->
  (forall Δσ,
   Doubles.centralAngle M lat1 lon1 lat2 lon2 = Some Δσ -> ~ Δσ < 0.001 ->
   Forall (latWithin 90.001)
          (Doubles.calculateGeodesicPoints M lat1 lon1 lat2 lon2 n)) /\
  (-90 <= lat1 <= 90 -> -90 <= lat2 <= 90 ->
   Forall (latWithin 90.001)
          (Doubles.calculateGeodesicPoints M lat1 lon1 lat2 lon2 n)) /\
  (~ centralAngle lat1 lon1 lat2 lon2 < 0.001 ->
   90 <= lat1 <= 270 ->
   hd_error (calculateGeodesicPoints lat1 lon1 lat2 lon2 n) =
   Some (180 - lat1, lon1)) /\
  (-90 <= lat1 <= 90 -> -90 <= lat2 <= 90 ->
   GeodesicLine.acosArgument lat1 lon1 lat2 lon2 <> -1 ->
   Forall latInRange (GeodesicLine.calculateGreatCircle lat1 lon1 lat2 lon2 n)).
Proof.
  intros HM Hn.
  assert (Hreg : forall Δσ,
    Doubles.centralAngle M lat1 lon1 lat2 lon2 = Some Δσ -> ~ Δσ < 0.001 ->
    Forall (latWithin 90.001)
           (Doubles.calculateGeodesicPoints M lat1 lon1 lat2 lon2 n)).
  { intros Δσ E Hd.
    destruct (machine_path_regular M lat1 lon1 lat2 lon2 Δσ n E Hd)
      as (φ1 & λ1 & θ & -> & _).
    apply Forall_forall. intros p Hp. apply in_map_iff in Hp as (i & Hi & _).
    destruct p as [q|]; [|exact I]. simpl.
    pose proof (machine_latitude_bound M φ1 λ1 Δσ θ n i q HM Hi). lra. }
  split; [exact Hreg|]. split; [|split].
  - intros H1 H2.
    pose proof (machine_centralAngle M lat1 lon1 lat2 lon2) as E.
    set (Δσ := Doubles.acosOn M _) in E.
    destruct (Rlt_dec Δσ 0.001) as [Hd|Hd]; [|now apply (Hreg Δσ)].
    rewrite (machine_path_degenerate M lat1 lon1 lat2 lon2 Δσ n E Hd).
    constructor; [|constructor; [|constructor]];
      unfold latWithin, latitude; simpl; lra.
  - intros Hd Hlat. rewrite calculateGeodesicPoints_regular by exact Hd.
    simpl. f_equal. now apply geodesicPoint_first_folded.
  - intros H1 H2 _. unfold GeodesicLine.calculateGreatCircle.
    assert (Hends : Forall latInRange [(lat1, lon1); (lat2, lon2)]).
    { constructor; [exact H1|]. constructor; [exact H2 | constructor]. }
    destruct (Math_acos _) as [Δσ|]; [|exact Hends].
    destruct (Rlt_dec Δσ 0.001); [exact Hends|].
    apply Forall_forall. intros p Hp. apply in_map_iff in Hp as (i & <- & _).
    apply greatCirclePoint_latitude.
Qed.

Lemma interpolated_latitudes_witness :
  Forall (latWithin 90.001)
         (Doubles.calculateGeodesicPoints Doubles.exact 35.7 139.7 34 (-118.2)
            100).
Proof.
  apply (proj1 (proj2 (interpolated_latitudes Doubles.exact 35.7 139.7 34
                         (-118.2) 100 exact_accurate ltac:(lia)))); lra.
Defined.
